(** * whatsview: the chat-export parser, the attachment resolver and the poll parser

    A shallow embedding of [parseChat], [extractAttachment],
    [getSystemMessageType], [getFileType] (the chat parser module) and of
    [parsePollMessage] (pollParser.js), together with the fragment of the
    ECMAScript runtime these functions rely on: strings as sequences of
    UTF-16 code units, [trim], [split], [indexOf], [replace], and the
    backtracking regular-expression matcher of ECMA-262 (non-unicode mode).

    The two patterns [messageRegex] and [systemMessageRegex] that [parseChat]
    declares are never used by it and are left out. *)

From stdpp Require Import base numbers list option gmap strings.
From Stdlib Require Import Ascii.
From Stdlib Require Import Lia.

Set Default Proof Using "Type".

(** ** Strings *)

(** A JavaScript string is a sequence of UTF-16 code units. *)
Abbreviation jsstring := (list N).

(** Literals: an ASCII Rocq string read as code units; the two characters
  backslash-n stand for the line feed, as in the JavaScript source. *)
Fixpoint lit (s : string) : jsstring :=
  match s with
  | EmptyString => []
  | String "\"%char (String "n"%char r) => 10%N :: lit r
  | String a r => N_of_ascii a :: lit r
  end.

Module Char.
Local Open Scope N_scope.

(** LineTerminator: LF, CR, LS, PS. *)
Definition isLineTerminator (c : N) : bool :=
  (c =? 10) || (c =? 13) || (c =? 0x2028) || (c =? 0x2029).

(** WhiteSpace (TAB, VT, FF, SP, NBSP, ZWNBSP and category Zs). *)
Definition isWhiteSpace (c : N) : bool :=
  (c =? 9) || (c =? 11) || (c =? 12) || (c =? 32) || (c =? 0xA0)
  || (c =? 0x1680) || ((0x2000 <=? c) && (c <=? 0x200A))
  || (c =? 0x202F) || (c =? 0x205F) || (c =? 0x3000) || (c =? 0xFEFF).

(** The set stripped by [trim] and matched by [\s]. *)
Definition isSpace (c : N) : bool := isWhiteSpace c || isLineTerminator c.

Definition isDigit (c : N) : bool := (48 <=? c) && (c <=? 57).

Definition isAscii (c : N) : bool := c <? 128.

Definition asciiUpper (c : N) : N :=
  if (97 <=? c) && (c <=? 122) then c - 32 else c.

Definition asciiLower (c : N) : N :=
  if (65 <=? c) && (c <=? 90) then c + 32 else c.
End Char.

Module Str.
(** [s.startsWith(p)] *)
Fixpoint startsWith (p s : jsstring) : bool :=
  match p, s with
  | [], _ => true
  | a :: p', b :: s' => (a =? b)%N && startsWith p' s'
  | _ :: _, [] => false
  end.

(** [s.indexOf(p)]; [None] stands for -1. *)
Fixpoint indexOf (p s : jsstring) : option nat :=
  if startsWith p s then Some 0
  else match s with
       | [] => None
       | _ :: s' => S <$> indexOf p s'
       end.

(** [s.includes(p)] *)
Definition includes (p s : jsstring) : bool := bool_decide (is_Some (indexOf p s)).

(** [s.substring(i, j)] for [i <= j] and [s.substring(i)]. *)
Definition substring (i j : nat) (s : jsstring) : jsstring := take (j - i) (drop i s).
Definition substringFrom (i : nat) (s : jsstring) : jsstring := drop i s.

Fixpoint trimStart (s : jsstring) : jsstring :=
  match s with
  | c :: s' => if Char.isSpace c then trimStart s' else s
  | [] => []
  end.

Definition trimEnd (s : jsstring) : jsstring := reverse (trimStart (reverse s)).

(** [s.trim()] *)
Definition trim (s : jsstring) : jsstring := trimEnd (trimStart s).

(** [s.split(sep)] for a one-unit separator: the current segment [cur] is
    kept reversed while scanning. *)
Fixpoint splitAux (sep : N) (cur : jsstring) (s : jsstring) : list jsstring :=
  match s with
  | [] => [reverse cur]
  | c :: s' => if (c =? sep)%N then reverse cur :: splitAux sep [] s'
               else splitAux sep (c :: cur) s'
  end.

Definition split (sep : N) (s : jsstring) : list jsstring := splitAux sep [] s.

(** [s.replace(p, '')] with a string pattern: the first occurrence of [p]
    is removed. *)
Definition removeFirst (p s : jsstring) : jsstring :=
  match indexOf p s with
  | Some i => take i s ++ drop (i + length p) s
  | None => s
  end.

(** [s.endsWith(p)] *)
Definition endsWith (p s : jsstring) : bool := startsWith (reverse p) (reverse s).
End Str.

(** ** Regular expressions *)

(** Character matchers of a pattern. *)
Inductive cclass :=
| Lit (a : N)              (** a pattern character *)
| Digit                    (** [\d] *)
| Space                    (** [\s] *)
| Dot                      (** [.] *)
| OneOf (l : jsstring)     (** [[...]] *)
| NoneOf (l : jsstring).   (** [[^...]] *)

Inductive regex :=
| Eps
| Chr (cl : cclass)
| Seq (r1 r2 : regex)
| Alt (r1 r2 : regex)
| Rep (min : nat) (max : option nat) (greedy : bool) (r : regex)
| Grp (i : nat) (r : regex)      (** capturing group number [i] *)
| Ncg (r : regex)                (** [(?:...)] *)
| Bol                            (** [^] *)
| Eol.                           (** [$] *)

(** Pattern builders. *)
Fixpoint seqs (l : list regex) : regex :=
  match l with
  | [] => Eps
  | [r] => r
  | r :: l' => Seq r (seqs l')
  end.

Fixpoint alts (l : list regex) : regex :=
  match l with
  | [] => Eps
  | [r] => r
  | r :: l' => Alt r (alts l')
  end.

Definition chars (s : jsstring) : regex := seqs (Chr ∘ Lit <$> s).
Definition word (s : string) : regex := chars (lit s).
Definition star (r : regex) : regex := Rep 0 None true r.
Definition plus (r : regex) : regex := Rep 1 None true r.
Definition opt (r : regex) : regex := Rep 0 (Some 1) true r.
Definition lazyStar (r : regex) : regex := Rep 0 None false r.
Definition lazyPlus (r : regex) : regex := Rep 1 None false r.
Definition between (m n : nat) (r : regex) : regex := Rep m (Some n) true r.
Definition exactly (n : nat) (r : regex) : regex := Rep n (Some n) true r.

(** The capturing groups inside a pattern (cleared at each iteration of an
  enclosing quantifier). *)
Fixpoint groups (r : regex) : list nat :=
  match r with
  | Seq r1 r2 | Alt r1 r2 => groups r1 ++ groups r2
  | Rep _ _ _ r | Ncg r => groups r
  | Grp i r => i :: groups r
  | _ => []
  end.

Inductive result (A : Type) :=
| Matched (a : A)
| Failure
| OutOfFuel.
Arguments Matched {A} a.
Arguments Failure {A}.
Arguments OutOfFuel {A}.

(** Captures: group number to captured substring; an absent key is
  [undefined]. *)
Abbreviation captures := (gmap nat jsstring).

(** A match state is the input still to be read (so that [endIndex] is the
  input length minus its length) and the captures. *)
Abbreviation MatchState := (prod jsstring captures).
Abbreviation Continuation := (jsstring → captures → result MatchState).
Abbreviation Matcher := (jsstring → captures → Continuation → result MatchState).

Record MatchResult := {
  index : nat;            (** [match.index] *)
  matched : jsstring;     (** [match[0]] *)
  caps : captures         (** [match[1]], [match[2]], ... *)
}.

(** [match[i]]; groups read by the sources always take part in a match. *)
Definition group (i : nat) (m : MatchResult) : jsstring := default [] (caps m !! i).

(** ** A host for closed examples *)

(** Case tables that leave every non-ASCII unit alone, a clock stuck at 0,
    and a date parser that rejects everything; the examples below are ASCII
    and read none of them. *)
Module Host.
Definition upper (ch : N) : N := ch.
Definition lower (s : jsstring) : jsstring := s.
Definition now (index : nat) : N := 0%N.
Definition getTime (s : jsstring) : option Z := None.
End Host.

Section Runtime.
(** What the model leaves to the host: the payload type of the file table,
    the Unicode case tables outside ASCII, the clock and the date parser. *)
Context {Blob : Type}.
(** The single code unit [toUpperCase] yields for a non-ASCII code unit
    (the unit itself when there is none). *)
Variable unicodeUpper : N → N.
(** [toLowerCase] on strings that are not pure ASCII. *)
Variable unicodeLower : jsstring → jsstring.
(** [Date.now()] as read while the line of a given index is processed. *)
Variable dateNow : nat → N.
(** [new Date(s).getTime()]; [None] is NaN. *)
Variable dateGetTime : jsstring → option Z.

(** Canonicalize of ECMA-262 22.2.5.6 without the unicode flag, under
    ignoreCase: the upper-case code unit, except that a non-ASCII unit
    never maps to an ASCII one. *)
Definition canonicalize (ch : N) : N :=
  if Char.isAscii ch then Char.asciiUpper ch
  else let cu := unicodeUpper ch in
       if Char.isAscii cu then ch else cu.

(** Equality of canonical forms, arranged to decide ASCII against
    non-ASCII without consulting the tables ([ceq_canonicalize]). *)
Definition ceq (icase : bool) (a ch : N) : bool :=
  if icase then
    if Char.isAscii a then Char.isAscii ch && (Char.asciiUpper a =? Char.asciiUpper ch)%N
    else if Char.isAscii ch then false
    else (canonicalize a =? canonicalize ch)%N
  else (a =? ch)%N.

Definition cmatch (icase : bool) (cl : cclass) (ch : N) : bool :=
  match cl with
  | Lit a => ceq icase a ch
  | Digit => Char.isDigit ch
  | Space => Char.isSpace ch
  | Dot => negb (Char.isLineTerminator ch)
  | OneOf l => existsb (λ a, ceq icase a ch) l
  | NoneOf l => negb (existsb (λ a, ceq icase a ch) l)
  end.

Section Matcher.
Variable icase : bool.
(** Length of the whole input, to recognise index 0. *)
Variable inputLength : nat.

Definition clear (gs : list nat) (c : captures) : captures :=
  foldr delete c gs.

(** RepeatMatcher of ECMA-262 22.2.2.3.1. *)
Fixpoint RepeatMatcher (fuel : nat) (m : Matcher) (gs : list nat)
    (min : nat) (max : option nat) (greedy : bool)
    (x : jsstring) (c : captures) (k : Continuation) : result MatchState :=
  match fuel with
  | O => OutOfFuel
  | S fuel' =>
    if bool_decide (max = Some 0) then k x c else
    let d : Continuation := λ y c',
      if bool_decide (min = 0) && bool_decide (length y = length x) then Failure
      else RepeatMatcher fuel' m gs (pred min) (pred <$> max) greedy y c' k in
    let cr := clear gs c in
    if negb (bool_decide (min = 0)) then m x cr d
    else if greedy then
      match m x cr d with
      | Failure => k x c
      | z => z
      end
    else
      match k x c with
      | Failure => m x cr d
      | z => z
      end
  end.

Fixpoint matcher (r : regex) : Matcher :=
  match r with
  | Eps => λ x c k, k x c
  | Chr cl => λ x c k,
      match x with
      | ch :: y => if cmatch icase cl ch then k y c else Failure
      | [] => Failure
      end
  | Seq r1 r2 =>
      let m1 := matcher r1 in let m2 := matcher r2 in
      λ x c k, m1 x c (λ y c', m2 y c' k)
  | Alt r1 r2 =>
      let m1 := matcher r1 in let m2 := matcher r2 in
      λ x c k, match m1 x c k with
               | Failure => m2 x c k
               | z => z
               end
  | Rep min max greedy r' =>
      let m := matcher r' in
      λ x c k, RepeatMatcher (S (min + length x)) m (groups r') min max greedy x c k
  | Grp i r' =>
      let m := matcher r' in
      λ x c k, m x c (λ y c', k y (<[i := take (length x - length y) x]> c'))
  | Ncg r' => matcher r'
  | Bol => λ x c k, if bool_decide (length x = inputLength) then k x c else Failure
  | Eol => λ x c k, match x with [] => k x c | _ => Failure end
  end.
End Matcher.

(** RegExpBuiltinExec for a pattern without the global and sticky flags:
    the match is attempted at index 0, 1, ..., length. *)
Fixpoint execFrom (icase : bool) (r : regex) (n : nat) (i : nat) (x : jsstring)
    : result MatchResult :=
  match matcher icase n r x ∅ (λ y c, Matched (y, c)) with
  | Matched (y, c) =>
      Matched {| index := i; matched := take (length x - length y) x; caps := c |}
  | OutOfFuel => OutOfFuel
  | Failure =>
      match x with
      | [] => Failure
      | _ :: x' => execFrom icase r n (S i) x'
      end
  end.

Record RegExp := { pattern : regex; ignoreCase : bool }.

Definition exec (re : RegExp) (s : jsstring) : result MatchResult :=
  execFrom (ignoreCase re) (pattern re) (length s) 0 s.

(** [s.match(re)]; [None] is [null]. *)
Definition String_match (re : RegExp) (s : jsstring) : option MatchResult :=
  match exec re s with
  | Matched m => Some m
  | _ => None
  end.

(** [s.replace(re, '')] *)
Definition String_remove (re : RegExp) (s : jsstring) : jsstring :=
  match String_match re s with
  | Some m => take (index m) s ++ drop (index m + length (matched m)) s
  | None => s
  end.

(** [/^(\d{1,2}\/\d{1,2}\/\d{2,4}),\s*(\d{1,2}:\d{2}\s*[APMapm]{2})\s*-\s*(.+)$/i] *)
Definition dateTimeRegex : RegExp :=
  {| pattern := seqs [
       Bol;
       Grp 1 (seqs [between 1 2 (Chr Digit); word "/";
                    between 1 2 (Chr Digit); word "/";
                    between 2 4 (Chr Digit)]);
       word ","; star (Chr Space);
       Grp 2 (seqs [between 1 2 (Chr Digit); word ":"; exactly 2 (Chr Digit);
                    star (Chr Space); exactly 2 (Chr (OneOf (lit "APMapm")))]);
       star (Chr Space); word "-"; star (Chr Space);
       Grp 3 (plus (Chr Dot));
       Eol ];
     ignoreCase := true |}.

(** The three groups of a header line: [dateTimeMatch[1]], [[2]], [[3]]. *)
Definition headerFields (line : jsstring) : option (jsstring * jsstring * jsstring) :=
  (λ hm, (group 1 hm, group 2 hm, group 3 hm)) <$> String_match dateTimeRegex line.

(** *** Chat parser (utils/chatParser, in performanceUtils.js) *)

(** [s.toLowerCase()]: on a pure-ASCII string, unit by unit. *)
Definition toLowerCase (s : jsstring) : jsstring :=
  if forallb Char.isAscii s then Char.asciiLower <$> s else unicodeLower s.

(** [array.includes(s)] on an array of strings. *)
Definition Array_includes (s : jsstring) (l : list jsstring) : bool :=
  existsb (λ t, bool_decide (s = t)) l.

Inductive fileType := image | video | audio | document | unknown.

Definition imageTypes : list jsstring :=
  lit <$> ["jpg"; "jpeg"; "png"; "gif"; "webp"; "bmp"; "svg"].
Definition videoTypes : list jsstring :=
  lit <$> ["mp4"; "avi"; "mov"; "wmv"; "flv"; "webm"].
Definition audioTypes : list jsstring :=
  lit <$> ["mp3"; "wav"; "ogg"; "aac"; "m4a"; "flac"].
Definition documentTypes : list jsstring :=
  lit <$> ["pdf"; "doc"; "docx"; "xls"; "xlsx"; "ppt"; "pptx"; "txt"].

(** The table lookup of [getFileType], on the extension. *)
Definition typeOfExtension (extension : jsstring) : fileType :=
  if Array_includes extension imageTypes then image
  else if Array_includes extension videoTypes then video
  else if Array_includes extension audioTypes then audio
  else if Array_includes extension documentTypes then document
  else unknown.

(** [filename.toLowerCase().split('.').pop()] *)
Definition extensionOf (filename : jsstring) : jsstring :=
  default [] (last (Str.split 46 (toLowerCase filename))).

Definition getFileType (filename : jsstring) : fileType :=
  typeOfExtension (extensionOf filename).

Inductive systemCategory :=
| joined | left | created | name_changed | description_changed
| icon_changed | encryption | ended | other.

Definition getSystemMessageType (message : jsstring) : systemCategory :=
  let lowerMessage := toLowerCase message in
  let has (p : string) := Str.includes (lit p) lowerMessage in
  if has "joined using this group's invite link" || has "joined" || has "added"
  then joined
  else if has "removed" || has "left" then left
  else if has "created group" || has "group created" then created
  else if has "changed the group name" || has "group name changed" then name_changed
  else if has "changed group description" || has "group description changed"
  then description_changed
  else if has "changed this group's icon" || has "group icon changed" then icon_changed
  else if has "messages and calls are end-to-end encrypted" then encryption
  else if has "ended" || has "deleted" then ended
  else other.

Record Attachment := {
  filename : jsstring;
  type : fileType;
  originalText : jsstring;
  blob : Blob
}.

(** [/<attached:\s*([^>]+)>/i] *)
Definition attachedPattern : RegExp :=
  {| pattern := seqs [word "<attached:"; star (Chr Space);
                      Grp 1 (plus (Chr (NoneOf (lit ">")))); word ">"];
     ignoreCase := true |}.

(** [/(.+?)\s*\((file|image)\s+attached\)/i] *)
Definition fileAttachedPattern : RegExp :=
  {| pattern := seqs [Grp 1 (lazyPlus (Chr Dot)); star (Chr Space); word "(";
                      Grp 2 (alts [word "file"; word "image"]);
                      plus (Chr Space); word "attached)"];
     ignoreCase := true |}.

(** [/(IMG-\d+\.(jpg|jpeg|png|gif|webp|mp4)|Document-\d+\.(pdf|docx?|xlsx?|pptx?|txt|mp3|wav|ogg))/i] *)
Definition directFilePattern : RegExp :=
  {| pattern :=
       Grp 1 (alts [
         seqs [word "IMG-"; plus (Chr Digit); word ".";
               Grp 2 (alts [word "jpg"; word "jpeg"; word "png"; word "gif";
                            word "webp"; word "mp4"])];
         seqs [word "Document-"; plus (Chr Digit); word ".";
               Grp 3 (alts [word "pdf";
                            seqs [word "doc"; opt (word "x")];
                            seqs [word "xls"; opt (word "x")];
                            seqs [word "ppt"; opt (word "x")];
                            word "txt"; word "mp3"; word "wav"; word "ogg"])]]);
     ignoreCase := true |}.

(** The file table: [files.get(name)] is a lookup; every stored value is a
    Blob object, hence truthy. *)
Definition resolve (files : gmap jsstring Blob) (name original : jsstring)
    : option Attachment :=
  file ← files !! name;
  Some {| filename := name; type := getFileType name;
          originalText := original; blob := file |}.

Definition orElse {A} (a b : option A) : option A :=
  match a with
  | Some _ => a
  | None => b
  end.

(** Pattern 1: [<attached: filename.ext>] *)
Definition tryAttached (messageText : jsstring) (files : gmap jsstring Blob)
    : option Attachment :=
  attachedMatch ← String_match attachedPattern messageText;
  resolve files (Str.trim (group 1 attachedMatch)) (matched attachedMatch).

(** Pattern 2: [(file attached)] or [(image attached)] *)
Definition tryFileAttached (messageText : jsstring) (files : gmap jsstring Blob)
    : option Attachment :=
  fileAttachedMatch ← String_match fileAttachedPattern messageText;
  resolve files (Str.trim (group 1 fileAttachedMatch)) (matched fileAttachedMatch).

(** Pattern 3: direct filename references *)
Definition tryDirect (messageText : jsstring) (files : gmap jsstring Blob)
    : option Attachment :=
  directFileMatch ← String_match directFilePattern messageText;
  resolve files (group 1 directFileMatch) (group 1 directFileMatch).

Definition extractAttachment (messageText : jsstring) (files : gmap jsstring Blob)
    : option Attachment :=
  match messageText with
  | [] => None
  | _ => orElse (tryAttached messageText files)
           (orElse (tryFileAttached messageText files)
                   (tryDirect messageText files))
  end.

Inductive messageKind := message_ | system_.

Record Message := {
  id : N * nat;                        (** [`${Date.now()}-${index}`] *)
  date : jsstring;
  time : jsstring;
  sender : jsstring;
  message : jsstring;
  attachment : option Attachment;
  timestamp : option Z;
  kind : messageKind;                  (** the [type] field *)
  systemType : option systemCategory   (** absent on authored messages *)
}.

Definition appendLine (line : jsstring) (m : Message) : Message :=
  {| id := id m; date := date m; time := time m; sender := sender m;
     message := message m ++ 10%N :: line;
     attachment := attachment m; timestamp := timestamp m;
     kind := kind m; systemType := systemType m |}.

(** The message started by a header line: the body of the
    [if (dateTimeMatch)] branch after the push. *)
Definition newMessage (files : gmap jsstring Blob) (index : nat)
    (dateTimeMatch : MatchResult) : Message :=
  let date := group 1 dateTimeMatch in
  let time := group 2 dateTimeMatch in
  let content := Str.trim (group 3 dateTimeMatch) in
  let colonIndex := Str.indexOf (lit ":") content in
  match colonIndex with
  | Some (S n) =>
      let colonIndex := S n in
      let sender := Str.trim (Str.substring 0 colonIndex content) in
      let messageText := Str.trim (Str.substringFrom (colonIndex + 1) content) in
      let attachment := extractAttachment messageText files in
      let finalMessageText :=
        match attachment with
        | Some a => Str.trim (Str.removeFirst (originalText a) messageText)
        | None => messageText
        end in
      {| id := (dateNow index, index); date := date; time := time;
         sender := sender; message := finalMessageText;
         attachment := attachment;
         timestamp := dateGetTime (date ++ lit " " ++ time);
         kind := message_; systemType := None |}
  | _ =>
      {| id := (dateNow index, index); date := date; time := time;
         sender := lit "System"; message := content;
         attachment := None;
         timestamp := dateGetTime (date ++ lit " " ++ time);
         kind := system_; systemType := Some (getSystemMessageType content) |}
  end.

(** The two variables of the [forEach] loop. *)
Record ParserState := {
  chatMessages : list Message;
  lastMessage : option Message
}.

Definition pushLast (st : ParserState) : list Message :=
  match lastMessage st with
  | Some m => chatMessages st ++ [m]
  | None => chatMessages st
  end.

(** One call of the [forEach] callback. *)
Definition processLine (files : gmap jsstring Blob) (st : ParserState)
    (index : nat) (line : jsstring) : ParserState :=
  match String_match dateTimeRegex line with
  | Some dateTimeMatch =>
      {| chatMessages := pushLast st;
         lastMessage := Some (newMessage files index dateTimeMatch) |}
  | None =>
      match lastMessage st with
      | Some m => {| chatMessages := chatMessages st;
                     lastMessage := Some (appendLine line m) |}
      | None => st
      end
  end.

Fixpoint forEach (files : gmap jsstring Blob) (index : nat) (lines : list jsstring)
    (st : ParserState) : ParserState :=
  match lines with
  | [] => st
  | line :: rest => forEach files (S index) rest (processLine files st index line)
  end.

(** [if (chatContent.charCodeAt(0) === 0xFEFF) chatContent = chatContent.slice(1)] *)
Definition stripBOM (chatContent : jsstring) : jsstring :=
  match chatContent with
  | c :: rest => if (c =? 0xFEFF)%N then rest else chatContent
  | [] => chatContent
  end.

(** [chatContent.split('\n').map(line => line.trim())] after the BOM. *)
Definition linesOf (chatContent : jsstring) : list jsstring :=
  Str.trim <$> Str.split 10 (stripBOM chatContent).

Definition parseChat (chatContent : jsstring) (files : gmap jsstring Blob)
    : list Message :=
  pushLast (forEach files 0 (linesOf chatContent)
              {| chatMessages := []; lastMessage := None |}).

(** *** Poll parser (pollParser.js) *)

(** The indicator strings as they stand in the source file, which holds
    the two poll emoji and the three bullets as mis-decoded UTF-8: what the
    engine compares against are these code units. *)
Definition pollMark1 : jsstring := [0xF0; 0x178; 0x201C; 0x160]%N.
Definition pollMark2 : jsstring := [0xF0; 0x178; 0x2014; 0xB3; 0xEF; 0xB8]%N.
Definition bullet1 : jsstring := [0xE2; 0x20AC; 0xA2]%N.
Definition bullet2 : jsstring := [0xE2; 0x153; 0x201C]%N.
Definition bullet3 : jsstring := [0xE2; 0x2DC; 0x2018]%N.

(** [/(?:OPTION:|Option:|option:|\B1|\B2|\B3)\s*(.+?)\s*\((\d+).*?\)/i],
    [B1], [B2], [B3] being the three bullet strings. *)
Definition optionRegex : RegExp :=
  {| pattern := seqs [
       Ncg (alts [word "OPTION:"; word "Option:"; word "option:";
                  chars bullet1; chars bullet2; chars bullet3]);
       star (Chr Space); Grp 1 (lazyPlus (Chr Dot)); star (Chr Space);
       word "("; Grp 2 (plus (Chr Digit)); lazyStar (Chr Dot); word ")"];
     ignoreCase := true |}.

(** [/^(.+?)\s*\((\d+).*?\)$/] *)
Definition simpleOptionRegex : RegExp :=
  {| pattern := seqs [
       Bol; Grp 1 (lazyPlus (Chr Dot)); star (Chr Space);
       word "("; Grp 2 (plus (Chr Digit)); lazyStar (Chr Dot); word ")"; Eol];
     ignoreCase := false |}.

(** [/^(POLL:|Poll:|poll:)\s*/i] *)
Definition titlePrefixRegex : RegExp :=
  {| pattern := seqs [
       Bol; Grp 1 (alts [word "POLL:"; word "Poll:"; word "poll:"]);
       star (Chr Space)];
     ignoreCase := true |}.

(** Numbers are modelled by [Z]: the vote counts read by [parseInt] are
    the integers their digits denote (exact in JavaScript below 2^53). *)
Definition digitValue (c : N) : Z := Z.of_N c - 48.

Fixpoint leadingDigits (s : jsstring) : jsstring :=
  match s with
  | c :: s' => if Char.isDigit c then c :: leadingDigits s' else []
  | [] => []
  end.

(** [parseInt(s, 10)]; [None] is NaN. *)
Definition parseInt (s : jsstring) : option Z :=
  let t := Str.trimStart s in
  let '(sign, t) := match t with
                    | c :: r => if (c =? 45)%N then ((-1)%Z, r)
                                else if (c =? 43)%N then (1%Z, r)
                                else (1%Z, t)
                    | [] => (1%Z, t)
                    end in
  let ds := leadingDigits t in
  match ds with
  | [] => None
  | _ => Some (sign * foldl (λ acc c, 10 * acc + digitValue c) 0 ds)%Z
  end.

Record PollOption := { text : jsstring; votes : Z }.

Record Poll := {
  title : jsstring;
  options : list PollOption;
  totalVotes : Z;
  maxVotes : Z
}.

(** The option pushed (or not) for one line: the body of the [for] loop. *)
Definition optionOfMatch (m : MatchResult) : list PollOption :=
  let optionText := Str.trim (group 1 m) in
  match optionText, parseInt (group 2 m) with
  | _ :: _, Some voteCount => [{| text := optionText; votes := voteCount |}]
  | _, _ => []
  end.

Definition optionOfLine (line : jsstring) : list PollOption :=
  match String_match optionRegex line with
  | Some m => optionOfMatch m
  | None =>
      match String_match simpleOptionRegex line with
      | Some simpleOptionMatch => optionOfMatch simpleOptionMatch
      | None => []
      end
  end.

(** [for (let i = 1; i < lines.length; i++)]: the options of the lines
    from index [i] on, in order. *)
Fixpoint optionsFrom (i : nat) (lines : list jsstring) : list PollOption :=
  match lines with
  | [] => []
  | line :: rest =>
      match i with
      | O => optionOfLine line ++ optionsFrom 0 rest
      | S i' => optionsFrom i' rest
      end
  end.

Definition hasPollPrefix (line : jsstring) : bool :=
  Str.includes (lit "POLL:") line || Str.includes (lit "Poll:") line
  || Str.includes (lit "poll:") line.

Definition hasPollIndicator (line : jsstring) : bool :=
  hasPollPrefix line || Str.includes pollMark1 line || Str.includes pollMark2 line.

Definition hasOptionIndicator (line : jsstring) : bool :=
  Str.includes (lit "OPTION:") line || Str.includes (lit "Option:") line
  || Str.includes (lit "option:") line || Str.includes bullet1 line
  || Str.includes bullet2 line || Str.includes bullet3 line.

(** [message.trim().split('\n').map(line => line.trim()).filter(line => line.length > 0)] *)
Definition pollLines (message : jsstring) : list jsstring :=
  filter (λ line, 0 < length line) (Str.trim <$> Str.split 10 (Str.trim message)).

(** [Math.max(v, ...vs)] on a non-empty argument list. *)
Definition mathMax (v : Z) (vs : list Z) : Z := foldl Z.max v vs.

(** [parsePollMessage(message)]; [None] is [null]. *)
Definition parsePollMessage (message : jsstring) : option Poll :=
  let lines := pollLines message in
  if bool_decide (length lines < 3) then None else
  let line0 := default [] (lines !! 0) in
  if negb (hasPollIndicator line0) then None else
  if negb (existsb hasOptionIndicator lines) then None else
  let title :=
    if hasPollPrefix line0 then Str.trim (String_remove titlePrefixRegex line0)
    else default [] (lines !! 1) in
  let options := optionsFrom 1 lines in
  match options with
  | o1 :: o2 :: rest =>      (* not [options.length < 2] *)
      let totalVotes := foldl (λ sum option, sum + votes option)%Z 0%Z options in
      let maxVotes := mathMax (votes o1) (votes <$> o2 :: rest) in
      Some {| title := match title with [] => lit "Poll" | _ => title end;
              options := options;
              totalVotes := totalVotes;
              maxVotes := if (maxVotes =? 0)%Z then 1 else maxVotes |}
  | _ => None
  end.


(** *** Colours (utils/colors, in pollParser.js) *)

Definition userColors : list jsstring :=
  lit <$> ["#FF6B6B"; "#4ECDC4"; "#45B7D1"; "#96CEB4"; "#FFEAA7"; "#DDA0DD";
           "#98D8C8"; "#F7DC6F"; "#BB8FCE"; "#85C1E9"; "#F8C471"; "#82E0AA";
           "#F1948A"; "#85C1E9"; "#D7BDE2"; "#A9DFBF"; "#F9E79F"; "#AED6F1";
           "#D5DBDB"; "#FADBD8"].

(** ToInt32 of ECMA-262 7.1.6 on an integer. *)
Definition toInt32 (z : Z) : Z :=
  let int32bit := (z `mod` 2 ^ 32)%Z in
  if (2 ^ 31 <=? int32bit)%Z then (int32bit - 2 ^ 32)%Z else int32bit.

(** One turn of the hashing loop:
    [hash = ((hash << 5) - hash) + char; hash = hash & hash]. The shift and
    the conjunction work on ToInt32 of their operands; the subtraction and
    the sum are those of Numbers, exact at this size. *)
Definition hashStep (hash : Z) (char : N) : Z :=
  let hash := (toInt32 (Z.shiftl (toInt32 hash) 5) - hash + Z.of_N char)%Z in
  Z.land (toInt32 hash) (toInt32 hash).

(** [getUserColor(userName, totalUsers = 0)]; [None] is [undefined]. *)
Definition getUserColor (userName : jsstring) (totalUsers : Z) : option jsstring :=
  match userName with
  | [] => Some (lit "#6B7280")
  | _ =>
      let hash := foldl hashStep 0%Z userName in
      let colorIndex := Z.rem (Z.abs hash) (Z.of_nat (length userColors)) in
      userColors !! Z.to_nat colorIndex
  end.

(** [o[key] = v] on an object created by [{}], as a map of its own
    properties: the key [__proto__] reaches the setter inherited from
    Object.prototype, which ignores a value that is no object. *)
Definition setProperty {V} (o : gmap jsstring V) (key : jsstring) (v : V)
    : gmap jsstring V :=
  if bool_decide (key = lit "__proto__") then o else <[key := v]> o.

(** The [forEach] of [createColorMap], from [index] on; a stored [None] is
    [undefined]. *)
Fixpoint colorLoop (index : nat) (participants : list jsstring)
    (colorMap : gmap jsstring (option jsstring)) : gmap jsstring (option jsstring) :=
  match participants with
  | [] => colorMap
  | participant :: rest =>
      colorLoop (S index) rest
        (setProperty colorMap participant
           (userColors !! (index `mod` length userColors)))
  end.

Definition createColorMap (participants : list jsstring)
    : gmap jsstring (option jsstring) :=
  colorLoop 0 participants ∅.



(** *** Performance utilities (performanceUtils.js) *)

(** [array.slice(start, end)] of ECMA-262 23.1.3.28 on integers. *)
Definition Array_slice {A} (start end_ : Z) (array : list A) : list A :=
  let len := Z.of_nat (length array) in
  let k := if (start <? 0)%Z then Z.max (len + start) 0 else Z.min start len in
  let final := if (end_ <? 0)%Z then Z.max (len + end_) 0 else Z.min end_ len in
  take (Z.to_nat (final - k)) (drop (Z.to_nat k) array).

(** The [for] loop of [chunkArray] run for [fuel] turns at most; [None]
    when the loop is still running after them. *)
Fixpoint chunkLoop {A} (fuel : nat) (array : list A) (size i : Z)
    (chunks : list (list A)) : option (list (list A)) :=
  match fuel with
  | O => None
  | S fuel' =>
      if (i <? Z.of_nat (length array))%Z
      then chunkLoop fuel' array size (i + size)
             (chunks ++ [Array_slice i (i + size) array])
      else Some chunks
  end.

(** [chunkArray(array, size)] for an integer [size]. *)
Definition chunkArray {A} (fuel : nat) (array : list A) (size : Z)
    : option (list (list A)) :=
  chunkLoop fuel array size 0 [].




(** The blob URL store of the File API. [URL.createObjectURL] mints a URL
    that was never issued before and enters the blob under it;
    [URL.revokeObjectURL] removes the entry, if there is one. A blob URL is
    written as the number that tells it from the others; as a string it is
    never empty, hence truthy. *)
Record URLStore := {
  issued : nat;
  entries : gmap nat Blob
}.

Definition URL_createObjectURL (blob : Blob) (store : URLStore) : nat * URLStore :=
  (issued store,
   {| issued := S (issued store); entries := <[issued store := blob]> (entries store) |}).

Definition URL_revokeObjectURL (url : nat) (store : URLStore) : URLStore :=
  {| issued := issued store; entries := delete url (entries store) |}.

(** An [ObjectURLManager] with the store it works on: [urls] is its
    [Map] from keys to URLs. *)
Record ObjectURLManager := {
  store : URLStore;
  urls : gmap jsstring nat
}.

(** [new ObjectURLManager()] *)
Definition newManager (store : URLStore) : ObjectURLManager :=
  {| store := store; urls := ∅ |}.

(** [revokeURL(key)] *)
Definition revokeURL (key : jsstring) (this : ObjectURLManager) : ObjectURLManager :=
  match urls this !! key with
  | Some url =>
      {| store := URL_revokeObjectURL url (store this);
         urls := delete key (urls this) |}
  | None => this
  end.

(** [createURL(blob, key)] *)
Definition createURL (blob : Blob) (key : jsstring) (this : ObjectURLManager)
    : nat * ObjectURLManager :=
  let this := if bool_decide (is_Some (urls this !! key)) then revokeURL key this
              else this in
  let '(url, store') := URL_createObjectURL blob (store this) in
  (url, {| store := store'; urls := <[key := url]> (urls this) |}).

(** [getURL(key)]; [None] is [null]. *)
Definition getURL (key : jsstring) (this : ObjectURLManager) : option nat :=
  urls this !! key.

(** [revokeAll()]: the order in which [forEach] visits the URLs does not
    show in the store that results. *)
Definition revokeAll (this : ObjectURLManager) : ObjectURLManager :=
  {| store := map_fold (λ _ url store, URL_revokeObjectURL url store)
                (store this) (urls this);
     urls := ∅ |}.

(** [getCount()] *)
Definition getCount (this : ObjectURLManager) : nat := size (urls this).

(** The calls that change a manager. *)
Inductive managerCall :=
| CreateURL (blob : Blob) (key : jsstring)
| RevokeURL (key : jsstring)
| RevokeAll.

Definition call (this : ObjectURLManager) (c : managerCall) : ObjectURLManager :=
  match c with
  | CreateURL blob key => (createURL blob key this).2
  | RevokeURL key => revokeURL key this
  | RevokeAll => revokeAll this
  end.

(** *** File type detection (utils/fileTypeDetector, in performanceUtils.js) *)

(** The categories and the MIME types are the strings of the source. The
    module has a [getFileType] of its own, with a longer table than the
    chat parser's; it is written [fileTypeDetector_getFileType] here. *)
Definition typeMap : list (jsstring * list jsstring) :=
  [ (lit "image", lit <$> ["jpg"; "jpeg"; "png"; "gif"; "webp"; "bmp"; "svg"; "ico";
                           "tiff"; "tif"]);
    (lit "video", lit <$> ["mp4"; "avi"; "mov"; "wmv"; "flv"; "webm"; "mkv"; "3gp";
                           "m4v"]);
    (lit "audio", lit <$> ["mp3"; "wav"; "ogg"; "aac"; "m4a"; "flac"; "wma"; "opus"]);
    (lit "document", lit <$> ["pdf"; "doc"; "docx"; "xls"; "xlsx"; "ppt"; "pptx"; "txt";
                              "rtf"; "odt"; "ods"; "odp"]);
    (lit "archive", lit <$> ["zip"; "rar"; "7z"; "tar"; "gz"; "bz2"]);
    (lit "code", lit <$> ["js"; "jsx"; "ts"; "tsx"; "html"; "css"; "scss"; "sass";
                          "less"; "py"; "java"; "cpp"; "c"; "php"; "rb"; "go"; "rs"]);
    (lit "unknown", []) ].

(** [for (const [type, extensions] of Object.entries(typeMap))] with the
    [return 'unknown'] behind it. *)
Fixpoint typeMapLoop (entries : list (jsstring * list jsstring)) (extension : jsstring)
    : jsstring :=
  match entries with
  | [] => lit "unknown"
  | (type, extensions) :: rest =>
      if Array_includes extension extensions then type
      else typeMapLoop rest extension
  end.

Definition fileTypeDetector_getFileType (filename : jsstring) : jsstring :=
  match filename with
  | [] => lit "unknown"
  | _ => typeMapLoop typeMap (extensionOf filename)
  end.

Definition isImage (filename : jsstring) : bool :=
  bool_decide (fileTypeDetector_getFileType filename = lit "image").
Definition isVideo (filename : jsstring) : bool :=
  bool_decide (fileTypeDetector_getFileType filename = lit "video").
Definition isAudio (filename : jsstring) : bool :=
  bool_decide (fileTypeDetector_getFileType filename = lit "audio").
Definition isDocument (filename : jsstring) : bool :=
  bool_decide (fileTypeDetector_getFileType filename = lit "document").

Definition mimeTypes : list (jsstring * jsstring) :=
  [ (lit "jpg", lit "image/jpeg"); (lit "jpeg", lit "image/jpeg");
    (lit "png", lit "image/png"); (lit "gif", lit "image/gif");
    (lit "webp", lit "image/webp"); (lit "bmp", lit "image/bmp");
    (lit "svg", lit "image/svg+xml"); (lit "ico", lit "image/x-icon");
    (lit "tiff", lit "image/tiff"); (lit "tif", lit "image/tiff");
    (lit "mp4", lit "video/mp4"); (lit "avi", lit "video/x-msvideo");
    (lit "mov", lit "video/quicktime"); (lit "wmv", lit "video/x-ms-wmv");
    (lit "flv", lit "video/x-flv"); (lit "webm", lit "video/webm");
    (lit "mkv", lit "video/x-matroska"); (lit "3gp", lit "video/3gpp");
    (lit "m4v", lit "video/x-m4v");
    (lit "mp3", lit "audio/mpeg"); (lit "wav", lit "audio/wav");
    (lit "ogg", lit "audio/ogg"); (lit "aac", lit "audio/aac");
    (lit "m4a", lit "audio/mp4"); (lit "flac", lit "audio/flac");
    (lit "wma", lit "audio/x-ms-wma"); (lit "opus", lit "audio/opus");
    (lit "pdf", lit "application/pdf"); (lit "doc", lit "application/msword");
    (lit "docx",
     lit "application/vnd.openxmlformats-officedocument.wordprocessingml.document");
    (lit "xls", lit "application/vnd.ms-excel");
    (lit "xlsx", lit "application/vnd.openxmlformats-officedocument.spreadsheetml.sheet");
    (lit "ppt", lit "application/vnd.ms-powerpoint");
    (lit "pptx",
     lit "application/vnd.openxmlformats-officedocument.presentationml.presentation");
    (lit "txt", lit "text/plain"); (lit "rtf", lit "application/rtf");
    (lit "odt", lit "application/vnd.oasis.opendocument.text");
    (lit "ods", lit "application/vnd.oasis.opendocument.spreadsheet");
    (lit "odp", lit "application/vnd.oasis.opendocument.presentation");
    (lit "zip", lit "application/zip"); (lit "rar", lit "application/x-rar-compressed");
    (lit "7z", lit "application/x-7z-compressed"); (lit "tar", lit "application/x-tar");
    (lit "gz", lit "application/gzip"); (lit "bz2", lit "application/x-bzip2") ].

(** The property names an object literal inherits from Object.prototype:
    reading one of them off the object yields the inherited member. *)
Definition objectPrototypeNames : list jsstring :=
  lit <$> ["constructor"; "hasOwnProperty"; "isPrototypeOf"; "propertyIsEnumerable";
           "toLocaleString"; "toString"; "valueOf"; "__proto__";
           "__defineGetter__"; "__defineSetter__"; "__lookupGetter__";
           "__lookupSetter__"].

(** What [mimeTypes[extension] || 'application/octet-stream'] evaluates to:
    a string, or the member of Object.prototype of that name (an object,
    hence truthy, which [||] passes on). *)
Inductive mimeResult :=
| MimeType (s : jsstring)
| PrototypeMember (name : jsstring).

(** [o[key]] on the own properties of an object literal given as the list
    of its entries (no key of [mimeTypes] occurs twice). *)
Fixpoint ownProperty {V} (o : list (jsstring * V)) (key : jsstring) : option V :=
  match o with
  | [] => None
  | (k, v) :: rest => if bool_decide (key = k) then Some v else ownProperty rest key
  end.

Definition getMimeType (filename : jsstring) : mimeResult :=
  let extension := extensionOf filename in
  match ownProperty mimeTypes extension with
  | Some mime => MimeType mime
  | None =>
      if Array_includes extension objectPrototypeNames then PrototypeMember extension
      else MimeType (lit "application/octet-stream")
  end.

(** [['image', 'video', 'audio'].includes(type)] *)
Definition canPreview (filename : jsstring) : bool :=
  let type := fileTypeDetector_getFileType filename in
  Array_includes type (lit <$> ["image"; "video"; "audio"]).

Definition getComponentType (filename : jsstring) : jsstring :=
  let type := fileTypeDetector_getFileType filename in
  if bool_decide (type = lit "image") then lit "ImageAttachment"
  else if bool_decide (type = lit "video") then lit "VideoAttachment"
  else if bool_decide (type = lit "audio") then lit "AudioAttachment"
  else if bool_decide (type = lit "document") then lit "DocumentAttachment"
  else lit "GenericAttachment".

(** *** ZIP handler (zipHandler.js) *)

(** The [Map] of extracted files is kept here as the list of its entries
    in insertion order, the order in which [keys()] yields them;
    [Map_get] is [files.get(key)], [None] being [undefined]. *)
Definition Map_get {V} (files : list (jsstring * V)) (key : jsstring) : option V :=
  ownProperty files key.

(** The test of the [filter] callback of [findChatFile]. *)
Definition isChatFileName (filename : jsstring) : bool :=
  let lowerName := toLowerCase filename in
  Str.endsWith (lit ".txt") lowerName
  && (Str.includes (lit "chat") lowerName || Str.includes (lit "whatsapp") lowerName).

(** [findChatFile()]: the name and the blob of the first chat file;
    [None] is [null]. *)
Definition findChatFile (files : list (jsstring * Blob))
    : option (jsstring * option Blob) :=
  let chatFiles := filter (λ filename, isChatFileName filename = true) files.*1 in
  match chatFiles with
  | [] => None
  | chatFileName :: _ => Some (chatFileName, Map_get files chatFileName)
  end.

(** [getFile(filename)]: a stored blob is an object, hence truthy. *)
Definition getFile (files : list (jsstring * Blob)) (filename : jsstring)
    : option Blob :=
  Map_get files filename.

(** *** Formatting (formatMessageText, utils/chatParser) *)

(** GetSubstitution of ECMA-262 22.1.3.19.1 for a pattern without named
    groups: [$$], [$&], [$`], [$'], [$n] and [$nn]; [captureLen] is the
    number of capturing groups of the pattern. *)
Fixpoint GetSubstitution (matched str : jsstring) (position : nat) (caps : captures)
    (captureLen : nat) (replacementTemplate : jsstring) : jsstring :=
  let capture (index : nat) (ref : jsstring) : jsstring :=
    if bool_decide (1 ≤ index ≤ captureLen) then default [] (caps !! index) else ref in
  match replacementTemplate with
  | [] => []
  | c :: rest =>
      let literal := c :: GetSubstitution matched str position caps captureLen rest in
      if negb (c =? 36)%N then literal else
      match rest with
      | [] => literal
      | d :: rest' =>
          let continue := GetSubstitution matched str position caps captureLen rest' in
          if (d =? 36)%N then 36%N :: continue
          else if (d =? 96)%N then take position str ++ continue
          else if (d =? 38)%N then matched ++ continue
          else if (d =? 39)%N then drop (position + length matched) str ++ continue
          else if Char.isDigit d then
            let oneDigit := capture (N.to_nat (d - 48)) [c; d] ++ continue in
            match rest' with
            | d' :: rest'' =>
                if Char.isDigit d' then
                  let index := 10 * N.to_nat (d - 48) + N.to_nat (d' - 48) in
                  if bool_decide (captureLen < index) then oneDigit
                  else capture index [c; d; d']
                       ++ GetSubstitution matched str position caps captureLen rest''
                else oneDigit
            | [] => oneDigit
            end
          else literal
      end
  end.

(** The loop of RegExp.prototype[@@replace] for a pattern with the global
    flag, when [lastIndex] is [i] and [x] is the input from there on: the
    input in front of a match is copied, the match is replaced by what
    [replaceValue] makes of it, and the search goes on behind it (one unit
    further when the match is empty). [fuel] bounds the number of matches. *)
Fixpoint replaceFrom (fuel : nat) (re : RegExp) (inputLength : nat)
    (replaceValue : MatchResult → jsstring) (i : nat) (x : jsstring) : jsstring :=
  match fuel with
  | O => x
  | S fuel' =>
      match execFrom (ignoreCase re) (pattern re) inputLength i x with
      | Matched m =>
          let position := index m - i in
          let rest := drop (position + length (matched m)) x in
          take position x ++ replaceValue m
          ++ match matched m with
             | [] =>
                 match rest with
                 | [] => []
                 | c :: rest' =>
                     c :: replaceFrom fuel' re inputLength replaceValue (S (index m)) rest'
                 end
             | _ =>
                 replaceFrom fuel' re inputLength replaceValue
                   (index m + length (matched m)) rest
             end
      | _ => x
      end
  end.

(** [s.replace(re, replaceValue)] for a global [re] and a function. *)
Definition String_replaceAll (re : RegExp) (replaceValue : MatchResult → jsstring)
    (s : jsstring) : jsstring :=
  replaceFrom (S (length s)) re (length s) replaceValue 0 s.

(** [s.replace(re, template)] for a global [re] and a string. *)
Definition String_replaceTemplate (re : RegExp) (template : string) (s : jsstring)
    : jsstring :=
  String_replaceAll re
    (λ m, GetSubstitution (matched m) s (index m) (caps m)
            (length (groups (pattern re))) (lit template))
    s.

(** [/M(.*?)M/g] for a marker [M] of pattern characters: [/\*(.*?)\*/g],
    [/_(.*?)_/g], [/~(.*?)~/g] and [/```(.*?)```/g]. *)
Definition markerRegex (marker : string) : RegExp :=
  {| pattern := seqs [word marker; Grp 1 (lazyStar (Chr Dot)); word marker];
     ignoreCase := false |}.

(** The code units from [lo] to [hi]: a class range. *)
Definition unitsBetween (lo hi : N) : jsstring :=
  N.of_nat <$> seq (N.to_nat lo) (S (N.to_nat hi - N.to_nat lo)).

(** [[^\s]] (the pattern has no ignoreCase flag): none of the units of
    [\s]. *)
Definition notSpace : cclass :=
  NoneOf ([9; 10; 11; 12; 13; 32; 0xA0; 0x1680]%N ++ unitsBetween 0x2000 0x200A
          ++ [0x2028; 0x2029; 0x202F; 0x205F; 0x3000; 0xFEFF]%N).

(** [[a-zA-Z0-9.-]] and [[a-zA-Z]] *)
Definition hostUnit : cclass :=
  OneOf (unitsBetween 97 122 ++ unitsBetween 65 90 ++ unitsBetween 48 57 ++ lit ".-").
Definition letter : cclass := OneOf (unitsBetween 97 122 ++ unitsBetween 65 90).

(** [/(https?:\/\/[^\s]+|www\.[^\s]+|[a-zA-Z0-9.-]+\.[a-zA-Z]{2,}(?:\/[^\s]{0,})?)/g],
    the last quantifier being written as a star in the source; its three
    alternatives first. *)
Definition linkWithScheme : regex :=
  seqs [word "http"; opt (word "s"); word "://"; plus (Chr notSpace)].
Definition linkWithWww : regex := seqs [word "www."; plus (Chr notSpace)].
Definition linkWithDomain : regex :=
  seqs [plus (Chr hostUnit); word "."; Rep 2 None true (Chr letter);
        opt (Ncg (seqs [word "/"; star (Chr notSpace)]))].

Definition linkRegex : RegExp :=
  {| pattern := Grp 1 (alts [linkWithScheme; linkWithWww; linkWithDomain]);
     ignoreCase := false |}.

(** [/\n/g] *)
Definition lineFeedRegex : RegExp := {| pattern := word "\n"; ignoreCase := false |}.

(** The callback of the link replacement; [quote] is the double quote. *)
Definition quote : jsstring := [34%N].

Definition linkReplacer (m : MatchResult) : jsstring :=
  let match_ := matched m in
  let url := if Str.startsWith (lit "http") match_ then match_
             else lit "https://" ++ match_ in
  lit "<a href=" ++ quote ++ url ++ quote
  ++ lit " target=" ++ quote ++ lit "_blank" ++ quote
  ++ lit " rel=" ++ quote ++ lit "noopener noreferrer" ++ quote
  ++ lit " class=" ++ quote
  ++ lit "text-blue-300 hover:text-blue-200 hover:underline underline-offset-2 cursor-pointer"
  ++ quote ++ lit ">" ++ match_ ++ lit "</a>".

Definition formatMessageText (text : jsstring) : jsstring :=
  match text with
  | [] => []
  | _ =>
      let text := String_replaceTemplate (markerRegex "*") "<strong>$1</strong>" text in
      let text := String_replaceTemplate (markerRegex "_") "<em>$1</em>" text in
      let text := String_replaceTemplate (markerRegex "~") "<del>$1</del>" text in
      let text := String_replaceTemplate (markerRegex "```") "<code>$1</code>" text in
      let text := String_replaceAll linkRegex linkReplacer text in
      String_replaceTemplate lineFeedRegex "<br>" text
  end.

(** ** Views used by the statements *)

(** *** Declarative reading of a pattern *)

(** [n] successive matches of a quantified atom; the captures of the atom's
    own groups are cleared before each one. *)
Inductive iter (R : jsstring → captures → jsstring → captures → Prop) (gs : list nat)
  : nat → jsstring → captures → jsstring → captures → Prop :=
| iter_O x c : iter R gs 0 x c x c
| iter_S n x c y c' z c'' :
    R x (clear gs c) y c' → iter R gs n y c' z c'' → iter R gs (S n) x c z c''.

(** [Sem icase len r x c y c']: pattern [r] can read the input from [x] down
    to its suffix [y], turning the captures [c] into [c']; [len] is the
    length of the whole input. *)
Fixpoint Sem (icase : bool) (len : nat) (r : regex)
    (x : jsstring) (c : captures) (y : jsstring) (c' : captures) : Prop :=
  match r with
  | Eps => y = x ∧ c' = c
  | Chr cl => ∃ ch, x = ch :: y ∧ cmatch icase cl ch = true ∧ c' = c
  | Seq r1 r2 => ∃ z c1, Sem icase len r1 x c z c1 ∧ Sem icase len r2 z c1 y c'
  | Alt r1 r2 => Sem icase len r1 x c y c' ∨ Sem icase len r2 x c y c'
  | Rep min max _ r' =>
      ∃ n, min ≤ n ∧ (∀ m, max = Some m → n ≤ m)
           ∧ iter (Sem icase len r') (groups r') n x c y c'
  | Grp i r' =>
      ∃ c1, Sem icase len r' x c y c1 ∧ c' = <[i := take (length x - length y) x]> c1
  | Ncg r' => Sem icase len r' x c y c'
  | Bol => length x = len ∧ y = x ∧ c' = c
  | Eol => x = [] ∧ y = [] ∧ c' = c
  end.

(** Quantifier bounds are in order (a pattern with [{m,n}], [m > n], is a
    syntax error). *)
Fixpoint wellFormed (r : regex) : bool :=
  match r with
  | Seq r1 r2 | Alt r1 r2 => wellFormed r1 && wellFormed r2
  | Rep min max _ r' =>
      match max with Some m => bool_decide (min ≤ m) | None => true end && wellFormed r'
  | Grp _ r' | Ncg r' => wellFormed r'
  | _ => true
  end.

(** A reading of a pattern in which every quantifier is greedy over a
    one-character class and takes a whole run: the reading the matcher
    finds first. Alternatives and lazy quantifiers have none. *)
Fixpoint Run (icase : bool) (len : nat) (r : regex)
    (x : jsstring) (c : captures) (y : jsstring) (c' : captures) : Prop :=
  match r with
  | Eps => y = x ∧ c' = c
  | Chr cl => ∃ ch, x = ch :: y ∧ cmatch icase cl ch = true ∧ c' = c
  | Seq r1 r2 => ∃ z c1, Run icase len r1 x c z c1 ∧ Run icase len r2 z c1 y c'
  | Rep min max true (Chr cl) =>
      ∃ w, x = w ++ y ∧ Forall (λ ch, cmatch icase cl ch = true) w
           ∧ min ≤ length w ∧ (∀ m, max = Some m → length w ≤ m)
           ∧ (max = Some (length w)
              ∨ match y with [] => True | ch :: _ => cmatch icase cl ch = false end)
           ∧ c' = c
  | Grp i r' =>
      ∃ c1, Run icase len r' x c y c1 ∧ c' = <[i := take (length x - length y) x]> c1
  | Ncg r' => Run icase len r' x c y c'
  | Bol => length x = len ∧ y = x ∧ c' = c
  | Eol => x = [] ∧ y = [] ∧ c' = c
  | _ => False
  end.

(** *** Headers and blocks of lines *)

(** The letters of an am/pm marker. *)
Definition isAmPmLetter (ch : N) : Prop := ch ∈ lit "APMapm".

(** The maximal run of non-header lines at the front of [lines]. *)
Fixpoint continuation (lines : list jsstring) : list jsstring :=
  match lines with
  | [] => []
  | line :: rest =>
      match String_match dateTimeRegex line with
      | Some _ => []
      | None => line :: continuation rest
      end
  end.

(** Every header line with its index, its match and the continuation lines
    that follow it. *)
Fixpoint blocks (index : nat) (lines : list jsstring)
    : list (nat * MatchResult * list jsstring) :=
  match lines with
  | [] => []
  | line :: rest =>
      match String_match dateTimeRegex line with
      | Some hm => (index, hm, continuation rest) :: blocks (S index) rest
      | None => blocks (S index) rest
      end
  end.

(** The message of a block: the header's message with the continuation
    lines appended one by one. *)
Definition appendLines (m : Message) (conts : list jsstring) : Message :=
  foldl (λ m line, appendLine line m) m conts.

Definition messageOfBlock (files : gmap jsstring Blob)
    (b : nat * MatchResult * list jsstring) : Message :=
  appendLines (newMessage files b.1.1 b.1.2) b.2.


Definition isHeader (line : jsstring) : Prop :=
  is_Some (String_match dateTimeRegex line).

(** The text the resolver is given for an authored header line:
    [content.substring(colonIndex + 1).trim()]. *)
Definition headerMessageText (hm : MatchResult) : jsstring :=
  let content := Str.trim (group 3 hm) in
  match Str.indexOf (lit ":") content with
  | Some colonIndex => Str.trim (Str.substringFrom (colonIndex + 1) content)
  | None => []
  end.

(** *** Colours *)

(** The polynomial hash of a name: the sum of [c_i * 31^(n-1-i)], without
    any wrap-around. *)
Definition polyHash (userName : jsstring) : Z :=
  foldl (λ acc c, 31 * acc + Z.of_N c)%Z 0%Z userName.

(** *** The URLs a manager holds *)

(** A store has issued every URL it holds. *)
Definition wellFormedStore (store0 : URLStore) : Prop :=
  ∀ url, is_Some (entries store0 !! url) → url < issued store0.

(** What a manager created on the store [store0] keeps true: the store's
    earlier entries are as they were, every URL minted since and still in
    the store is held under exactly one key, and the other way round. *)
Definition Tracks (store0 : URLStore) (this : ObjectURLManager) : Prop :=
  issued store0 ≤ issued (store this)
  ∧ wellFormedStore (store this)
  ∧ (∀ url, url < issued store0 → entries (store this) !! url = entries store0 !! url)
  ∧ (∀ key url, urls this !! key = Some url →
                issued store0 ≤ url ∧ is_Some (entries (store this) !! url))
  ∧ (∀ url, issued store0 ≤ url → is_Some (entries (store this) !! url) →
            ∃ key, urls this !! key = Some url)
  ∧ (∀ key1 key2 url, urls this !! key1 = Some url → urls this !! key2 = Some url →
                      key1 = key2)
  ∧ size (entries (store this)) = size (entries store0) + size (urls this).

(** *** File categories *)

(** The string a category of the chat parser stands for. *)
Definition typeName (t : fileType) : jsstring :=
  match t with
  | image => lit "image"
  | video => lit "video"
  | audio => lit "audio"
  | document => lit "document"
  | unknown => lit "unknown"
  end.

(** *** Code units a pattern cannot do without *)

(** [requires units r]: every match of [r], read without ignoreCase,
    holds one of [units] (a sufficient, syntactic test). *)
Fixpoint requires (units : list N) (r : regex) : bool :=
  match r with
  | Chr (Lit a) => bool_decide (a ∈ units)
  | Seq r1 r2 => requires units r1 || requires units r2
  | Alt r1 r2 => requires units r1 && requires units r2
  | Rep min _ _ r' => bool_decide (1 ≤ min) && requires units r'
  | Grp _ r' | Ncg r' => requires units r'
  | _ => false
  end.

(** What the last step of [formatMessageText] makes of one code unit. *)
Definition lineBreak (c : N) : jsstring :=
  if (c =? 10)%N then lit "<br>" else [c].

(** The anchor the link replacement writes for a link text and its
    address. *)
Definition anchor (href label : jsstring) : jsstring :=
  lit "<a href=" ++ quote ++ href ++ quote
  ++ lit " target=" ++ quote ++ lit "_blank" ++ quote
  ++ lit " rel=" ++ quote ++ lit "noopener noreferrer" ++ quote
  ++ lit " class=" ++ quote
  ++ lit "text-blue-300 hover:text-blue-200 hover:underline underline-offset-2 cursor-pointer"
  ++ quote ++ lit ">" ++ label ++ lit "</a>".

(** [within P r]: every code unit a match of [r] reads, without
    ignoreCase, satisfies [P]. *)
Fixpoint within (P : N → Prop) (r : regex) : Prop :=
  match r with
  | Chr cl => ∀ ch, cmatch false cl ch = true → P ch
  | Seq r1 r2 | Alt r1 r2 => within P r1 ∧ within P r2
  | Rep _ _ _ r' | Grp _ r' | Ncg r' => within P r'
  | _ => True
  end.


(** * Properties *)

(** ** The matcher always answers *)

Lemma RepeatMatcher_answers (m : Matcher) gs greedy k :
  (∀ x c k', (∀ y c', length y ≤ length x → k' y c' ≠ OutOfFuel) → m x c k' ≠ OutOfFuel) →
  ∀ fuel min max x c,
    min + length x < fuel →
    (∀ y c', length y ≤ length x → k y c' ≠ OutOfFuel) →
    RepeatMatcher fuel m gs min max greedy x c k ≠ OutOfFuel.
Proof.
  intros Hm fuel. induction fuel as [|fuel IH]; intros min max x c Hfuel Hk; [lia|].
  cbn [RepeatMatcher]. case_bool_decide; [by apply Hk|].
  assert (Hd : ∀ y c', length y ≤ length x →
    (if bool_decide (min = 0) && bool_decide (length y = length x) then Failure
     else RepeatMatcher fuel m gs (pred min) (pred <$> max) greedy y c' k) ≠ OutOfFuel).
  { intros y c' Hy. destruct (bool_decide (min = 0)) eqn:E1;
      [destruct (bool_decide (length y = length x)) eqn:E2|]; cbn [andb]; [done| |].
    - apply bool_decide_eq_true in E1. apply bool_decide_eq_false in E2.
      apply IH; [lia|]. intros; apply Hk; lia.
    - apply bool_decide_eq_false in E1. apply IH; [lia|]. intros; apply Hk; lia. }
  specialize (Hm x (clear gs c) _ Hd). specialize (Hk x c (reflexivity _)).
  destruct (bool_decide (min = 0)); cbn [negb]; [|done].
  destruct greedy.
  - destruct (m x (clear gs c) _); done.
  - destruct (k x c); done.
Qed.

Lemma matcher_answers icase len r :
  ∀ x c k, (∀ y c', length y ≤ length x → k y c' ≠ OutOfFuel) →
           matcher icase len r x c k ≠ OutOfFuel.
Proof.
  induction r as [|cl|r1 IH1 r2 IH2|r1 IH1 r2 IH2|min max greedy r IH|i r IH|r IH| |];
    intros x c k Hk; cbn [matcher].
  - by apply Hk.
  - destruct x as [|ch y]; [done|]. destruct (cmatch icase cl ch); [|done].
    apply Hk; cbn; lia.
  - apply IH1. intros y c' Hy. apply IH2. intros; apply Hk; lia.
  - specialize (IH1 x c k Hk). specialize (IH2 x c k Hk).
    destruct (matcher icase len r1 x c k); done.
  - apply RepeatMatcher_answers; [exact IH|lia|exact Hk].
  - apply IH. intros y c' Hy. by apply Hk.
  - by apply IH.
  - case_bool_decide; [by apply Hk|done].
  - destruct x; [by apply Hk|done].
Qed.

Lemma execFrom_answers icase r n x : ∀ i, execFrom icase r n i x ≠ OutOfFuel.
Proof.
  induction x as [|ch x IH]; intros i; cbn [execFrom];
    pose proof (matcher_answers icase n r) as Hm.
  - specialize (Hm [] ∅ (λ y c, Matched (y, c))).
    destruct (matcher _ _ _ _ _ _) as [[y c]| |]; [done|done|]. exfalso; by apply Hm.
  - specialize (Hm (ch :: x) ∅ (λ y c, Matched (y, c))).
    destruct (matcher _ _ _ _ _ _) as [[y c]| |]; [done|apply IH|]. exfalso; by apply Hm.
Qed.

(** [exec] never runs out of fuel: [String_match] is [None] exactly when the
    search fails at every index. *)
Lemma String_match_None re s : String_match re s = None ↔ exec re s = Failure.
Proof.
  unfold String_match. pose proof (execFrom_answers (ignoreCase re) (pattern re) (length s) s 0) as H.
  fold (exec re s) in H. destruct (exec re s); split; intros; congruence.
Qed.

(** ** A successful match has a declarative reading *)

Lemma RepeatMatcher_sound (R : jsstring → captures → jsstring → captures → Prop)
    (m : Matcher) gs greedy k :
  (∀ x c k' v, m x c k' = Matched v → ∃ y c', R x c y c' ∧ k' y c' = Matched v) →
  ∀ fuel min max x c v,
    (∀ mx, max = Some mx → min ≤ mx) →
    RepeatMatcher fuel m gs min max greedy x c k = Matched v →
    ∃ n y c', min ≤ n ∧ (∀ mx, max = Some mx → n ≤ mx)
              ∧ iter R gs n x c y c' ∧ k y c' = Matched v.
Proof.
  intros Hm fuel. induction fuel as [|fuel IH]; intros min max x c v Hwf H; [done|].
  cbn [RepeatMatcher] in H. case_bool_decide as Hmax.
  { exists 0, x, c. subst max. specialize (Hwf 0 eq_refl).
    repeat split; [lia|by intros ? [= <-]|constructor|done]. }
  cbv zeta in H.
  match type of H with context [m x (clear gs c) ?d0] => set (d := d0) in * end.
  assert (Hstop : min = 0 → k x c = Matched v →
    ∃ n y c', min ≤ n ∧ (∀ mx, max = Some mx → n ≤ mx)
              ∧ iter R gs n x c y c' ∧ k y c' = Matched v).
  { intros -> Hk. exists 0, x, c. repeat split; [lia|intros; lia|constructor|done]. }
  assert (Hstep : m x (clear gs c) d = Matched v →
    ∃ n y c', min ≤ n ∧ (∀ mx, max = Some mx → n ≤ mx)
              ∧ iter R gs n x c y c' ∧ k y c' = Matched v).
  { intros Hv. apply Hm in Hv as (y & c' & HR & Hd). unfold d in Hd.
    destruct (bool_decide (min = 0) && bool_decide (length y = length x)); [done|].
    apply IH in Hd as (n & z & c'' & Hmin & Hmx & Hit & Hk).
    - exists (S n), z, c''. repeat split; [lia| |by econstructor|done].
      intros mx ->. specialize (Hmx (pred mx) eq_refl).
      destruct mx; [done|cbn in Hmx; lia].
    - intros mx Hpm. destruct max as [m0|]; [|done]. cbn in Hpm.
      injection Hpm as <-. specialize (Hwf m0 eq_refl). lia. }
  destruct (bool_decide (min = 0)) eqn:E; cbn [negb] in H; [|by apply Hstep].
  apply bool_decide_eq_true in E. destruct greedy.
  - destruct (m x (clear gs c) d) eqn:E1; [apply Hstep; congruence|by apply Hstop|done].
  - destruct (k x c) eqn:E1; [apply Hstop; congruence|by apply Hstep|done].
Qed.

Lemma matcher_sound icase len r :
  wellFormed r = true →
  ∀ x c k v, matcher icase len r x c k = Matched v →
             ∃ y c', Sem icase len r x c y c' ∧ k y c' = Matched v.
Proof.
  induction r as [|cl|r1 IH1 r2 IH2|r1 IH1 r2 IH2|min max greedy r IH|i r IH|r IH| |];
    cbn [wellFormed]; intros Hwf x c k v H; cbn [matcher] in H.
  - by exists x, c.
  - destruct x as [|ch y]; [done|]. destruct (cmatch icase cl ch) eqn:E; [|done].
    exists y, c. split; [|done]. by exists ch.
  - apply andb_prop in Hwf as [Hwf1 Hwf2].
    apply (IH1 Hwf1) in H as (z & c1 & H1 & H).
    apply (IH2 Hwf2) in H as (y & c' & H2 & H).
    exists y, c'. split; [|done]. by exists z, c1.
  - apply andb_prop in Hwf as [Hwf1 Hwf2].
    destruct (matcher icase len r1 x c k) eqn:E1.
    + apply (IH1 Hwf1) in E1 as (y & c' & H1 & Hk). exists y, c'.
      split; [by left|congruence].
    + apply (IH2 Hwf2) in H as (y & c' & H2 & Hk). exists y, c'. split; [by right|done].
    + done.
  - apply andb_prop in Hwf as [Hwf1 Hwf2].
    apply (RepeatMatcher_sound (Sem icase len r)) in H as (n & y & c' & ? & ? & ? & ?).
    + exists y, c'. split; [|done]. by exists n.
    + by apply IH.
    + intros mx ->. by apply bool_decide_eq_true in Hwf1.
  - apply (IH Hwf) in H as (y & c1 & H1 & Hk).
    exists y, (<[i := take (length x - length y) x]> c1). split; [|done]. by exists c1.
  - by apply IH.
  - case_bool_decide; [|done]. by exists x, c.
  - destruct x; [|done]. by exists [], c.
Qed.

(** What a pattern reads is a prefix of what it was given. *)
Lemma Sem_prefix icase len r :
  ∀ x c y c', Sem icase len r x c y c' → ∃ w, x = w ++ y.
Proof.
  induction r as [|cl|r1 IH1 r2 IH2|r1 IH1 r2 IH2|min max greedy r IH|i r IH|r IH| |];
    cbn [Sem]; intros x c y c' H.
  - destruct H as [-> _]. by exists [].
  - destruct H as (ch & -> & _). by exists [ch].
  - destruct H as (z & c1 & H1 & H2).
    apply IH1 in H1 as [w1 ->]. apply IH2 in H2 as [w2 ->].
    exists (w1 ++ w2). by rewrite <-(assoc (++)).
  - destruct H as [H|H]; eauto.
  - destruct H as (n & _ & _ & H). induction H as [|n x c y c' z c'' H1 _ IHit].
    + by exists [].
    + apply IH in H1 as [w1 ->]. destruct IHit as [w2 ->].
      exists (w1 ++ w2). by rewrite <-(assoc (++)).
  - destruct H as (c1 & H & _). eauto.
  - eauto.
  - destruct H as (_ & -> & _). by exists [].
  - destruct H as (-> & -> & _). by exists [].
Qed.

(** Repeating a one-character class reads a run of that class and leaves
    the captures alone. *)
Lemma iter_Chr icase len cl n x c y c' :
  iter (Sem icase len (Chr cl)) [] n x c y c' →
  ∃ w, x = w ++ y ∧ length w = n ∧ Forall (λ ch, cmatch icase cl ch = true) w ∧ c' = c.
Proof.
  induction 1 as [|n x c y c' z c'' (ch & -> & Hch & ->) _ (w & -> & <- & Hw & ->)].
  - by exists [].
  - exists (ch :: w). repeat split; first [done|by constructor].
Qed.

Lemma take_prefix_length (x w y : jsstring) :
  x = w ++ y → take (length x - length y) x = w.
Proof.
  intros ->. rewrite length_app, Nat.add_sub. by rewrite take_app_length.
Qed.

Lemma execFrom_Matched icase r n x : ∀ i mr,
  wellFormed r = true →
  execFrom icase r n i x = Matched mr →
  ∃ j y, j ≤ length x ∧ index mr = i + j
         ∧ Sem icase n r (drop j x) ∅ y (caps mr)
         ∧ matched mr = take (length (drop j x) - length y) (drop j x).
Proof.
  induction x as [|ch x IH]; intros i mr Hwf H; cbn [execFrom] in H.
  - destruct (matcher _ _ _ _ _ _) as [[y c]| |] eqn:E; [|done..].
    apply (matcher_sound _ _ _ Hwf) in E as (y' & c' & HS & [= <- <-]).
    injection H as <-. exists 0, y'. cbn. repeat split; first [done|lia].
  - destruct (matcher _ _ _ _ _ _) as [[y c]| |] eqn:E; [| |done].
    + apply (matcher_sound _ _ _ Hwf) in E as (y' & c' & HS & [= <- <-]).
      injection H as <-. exists 0, y'. cbn. repeat split; first [done|lia].
    + apply (IH _ _ Hwf) in H as (j & y & Hj & Hi & HS & Hm).
      exists (S j), y. cbn. repeat split; first [done|lia].
Qed.

Lemma String_match_sound re s mr :
  wellFormed (pattern re) = true →
  String_match re s = Some mr →
  ∃ j y, j ≤ length s ∧ index mr = j
         ∧ Sem (ignoreCase re) (length s) (pattern re) (drop j s) ∅ y (caps mr)
         ∧ matched mr = take (length (drop j s) - length y) (drop j s).
Proof.
  unfold String_match, exec. intros Hwf H.
  destruct (execFrom _ _ _ _ _) as [mr'| |] eqn:E; [|done..]. injection H as ->.
  apply (execFrom_Matched _ _ _ _ _ _ Hwf) in E as (j & y & ? & ? & ? & ?). by exists j, y.
Qed.

Lemma lookup_clear gs (c : captures) i : i ∉ gs → clear gs c !! i = c !! i.
Proof.
  induction gs as [|g gs IH]; cbn; [done|]. intros Hi.
  apply not_elem_of_cons in Hi as [Hne Hi]. rewrite lookup_delete_ne; auto.
Qed.

(** A pattern leaves alone the captures of groups it does not contain. *)
Lemma Sem_lookup_other icase len r i :
  i ∉ groups r → ∀ x c y c', Sem icase len r x c y c' → c' !! i = c !! i.
Proof.
  induction r as [|cl|r1 IH1 r2 IH2|r1 IH1 r2 IH2|min max greedy r IH|j r IH|r IH| |];
    cbn [Sem groups]; intros Hi x c y c' H.
  - by destruct H as [_ ->].
  - by destruct H as (ch & _ & _ & ->).
  - apply not_elem_of_app in Hi as [Hi1 Hi2]. destruct H as (z & c1 & H1 & H2).
    rewrite (IH2 Hi2 _ _ _ _ H2). eauto.
  - apply not_elem_of_app in Hi as [Hi1 Hi2]. destruct H as [H|H]; eauto.
  - destruct H as (n & _ & _ & H). induction H as [|n x c y c' z c'' H1 _ IHit]; [done|].
    rewrite IHit, (IH Hi _ _ _ _ H1). by apply lookup_clear.
  - apply not_elem_of_cons in Hi as [Hne Hi]. destruct H as (c1 & H & ->).
    rewrite lookup_insert_ne; eauto.
  - eauto.
  - by destruct H as (_ & _ & ->).
  - by destruct H as (_ & _ & ->).
Qed.

(** ** The reading the matcher finds first *)

Lemma execFrom_first icase r n i x y c :
  matcher icase n r x ∅ (λ y c, Matched (y, c)) = Matched (y, c) →
  execFrom icase r n i x
  = Matched {| index := i; matched := take (length x - length y) x; caps := c |}.
Proof. intros H. destruct x; cbn [execFrom]; by rewrite H. Qed.

Lemma matcher_Chr_cons icase len cl ch y c k :
  matcher icase len (Chr cl) (ch :: y) c k
  = if cmatch icase cl ch then k y c else Failure.
Proof. done. Qed.

Lemma matcher_Chr_nil icase len cl c k : matcher icase len (Chr cl) [] c k = Failure.
Proof. done. Qed.

(** A greedy quantifier over a one-character class, with bounds, reads a whole run of its class when the run fits the bounds and
    either fills the upper bound or is followed by no unit of the class. *)
Lemma RepeatMatcher_run icase len cl (rest : jsstring) c k v :
  k rest c = Matched v →
  ∀ w min max fuel,
    Forall (λ ch, cmatch icase cl ch = true) w →
    min ≤ length w →
    (∀ m, max = Some m → length w ≤ m) →
    (max = Some (length w)
     ∨ match rest with [] => True | ch :: _ => cmatch icase cl ch = false end) →
    min + length (w ++ rest) < fuel →
    RepeatMatcher fuel (matcher icase len (Chr cl)) [] min max true (w ++ rest) c k
    = Matched v.
Proof.
  intros Hk w. induction w as [|ch w IH]; intros min max fuel Hw Hmin Hmax Hstop Hfuel;
    (destruct fuel as [|fuel]; [lia|]); cbn [RepeatMatcher].
  - cbn in Hmin. assert (min = 0) as -> by lia.
    case_bool_decide as Hm0; [done|].
    destruct Hstop as [->|Hstop]; [done|].
    rewrite (bool_decide_true (0 = 0)) by done. cbn [negb andb app clear foldr].
    destruct rest as [|ch rest]; [by rewrite matcher_Chr_nil|].
    by rewrite matcher_Chr_cons, Hstop.
  - apply Forall_cons in Hw as [Hch Hw]. cbn [length] in Hmin, Hmax, Hstop.
    rewrite bool_decide_false by (intros ->; specialize (Hmax 0 eq_refl); lia).
    cbn [app clear foldr]. rewrite !matcher_Chr_cons, Hch.
    assert (RepeatMatcher fuel (matcher icase len (Chr cl)) [] (pred min) (pred <$> max)
              true (w ++ rest) c k = Matched v) as Hrec.
    { apply IH; [done|lia| | |cbn [app length] in Hfuel; lia].
      - intros m Hm. destruct max as [mx|]; [|done]. injection Hm as <-.
        specialize (Hmax mx eq_refl). lia.
      - destruct Hstop as [->|Hstop]; [by left|by right]. }
    rewrite (bool_decide_false (length (w ++ rest) = length (ch :: w ++ rest)))
      by (cbn [length]; lia).
    rewrite andb_false_r, Hrec. by destruct (bool_decide (min = 0)).
Qed.

Lemma matcher_Run icase len r : ∀ x c y c' k v,
  Run icase len r x c y c' → k y c' = Matched v → matcher icase len r x c k = Matched v.
Proof.
  induction r as [|cl|r1 IH1 r2 IH2|r1 IH1 r2 IH2|min max greedy r IH|i r IH|r IH| |];
    intros x c y c' k v H Hk; cbn [Run] in H.
  - by destruct H as [-> ->].
  - destruct H as (ch & -> & Hch & ->). by rewrite matcher_Chr_cons, Hch.
  - destruct H as (z & c1 & H1 & H2). cbn [matcher].
    apply (IH1 _ _ z c1); [done|]. by apply (IH2 _ _ y c').
  - done.
  - destruct greedy; [|done]. destruct r as [|cl| | | | | | |]; try done.
    destruct H as (w & -> & Hw & Hmin & Hmax & Hstop & ->).
    cbn [matcher groups]. apply (RepeatMatcher_run icase len cl); [done..|lia].
  - destruct H as (c1 & H & ->). cbn [matcher]. by apply (IH _ _ y c1).
  - cbn [matcher]. by apply (IH _ _ y c').
  - destruct H as (Hlen & -> & ->). cbn [matcher]. by rewrite bool_decide_true.
  - by destruct H as (-> & -> & ->).
Qed.

Lemma Run_Seq icase len r1 r2 x c z c1 y c' :
  Run icase len r1 x c z c1 → Run icase len r2 z c1 y c' →
  Run icase len (Seq r1 r2) x c y c'.
Proof. intros H1 H2. by exists z, c1. Qed.

Lemma Run_Chr icase len cl ch y c :
  cmatch icase cl ch = true → Run icase len (Chr cl) (ch :: y) c y c.
Proof. intros H. by exists ch. Qed.

Lemma Run_Rep icase len min max cl w x y c :
  x = w ++ y →
  Forall (λ ch, cmatch icase cl ch = true) w →
  min ≤ length w → (∀ m, max = Some m → length w ≤ m) →
  (max = Some (length w)
   ∨ match y with [] => True | ch :: _ => cmatch icase cl ch = false end) →
  Run icase len (Rep min max true (Chr cl)) x c y c.
Proof. intros. by exists w. Qed.

Lemma Run_Grp icase len i r w x y c c1 :
  x = w ++ y → Run icase len r x c y c1 →
  Run icase len (Grp i r) x c y (<[i := w]> c1).
Proof. intros Hx H. exists c1. split; [done|]. by rewrite (take_prefix_length x w y). Qed.

Lemma Run_chars icase len l : ∀ w y c,
  Forall2 (λ a ch, ceq icase a ch = true) l w →
  Run icase len (chars l) (w ++ y) c y c.
Proof.
  unfold chars. induction l as [|a [|b l] IH]; intros w y c Hw.
  - by apply Forall2_nil_inv_l in Hw as ->.
  - apply Forall2_cons_inv_l in Hw as (ch & w' & Hch & Hnil & ->).
    apply Forall2_nil_inv_l in Hnil as ->. by apply Run_Chr.
  - apply Forall2_cons_inv_l in Hw as (ch & w' & Hch & Hw & ->).
    eapply Run_Seq; [by apply Run_Chr|]. by apply IH.
Qed.

(** ** Character classes under ignoreCase *)

Lemma asciiUpper_ascii ch : Char.isAscii ch = true → Char.isAscii (Char.asciiUpper ch) = true.
Proof.
  unfold Char.isAscii, Char.asciiUpper. intros H%N.ltb_lt.
  destruct (N.leb_spec 97 ch), (N.leb_spec ch 122); cbn [andb]; apply N.ltb_lt; lia.
Qed.

Lemma canonicalize_ascii ch : Char.isAscii (canonicalize ch) = Char.isAscii ch.
Proof.
  unfold canonicalize. destruct (Char.isAscii ch) eqn:E.
  - by apply asciiUpper_ascii.
  - cbv zeta. by destruct (Char.isAscii (unicodeUpper ch)) eqn:E'.
Qed.

(** [ceq] under ignoreCase is equality of canonical forms. *)
Lemma ceq_canonicalize a ch : ceq true a ch = (canonicalize a =? canonicalize ch)%N.
Proof.
  unfold ceq. pose proof (canonicalize_ascii a) as Ha. pose proof (canonicalize_ascii ch) as Hc.
  destruct (Char.isAscii a) eqn:Ea, (Char.isAscii ch) eqn:Ec; cbn [andb]; try done.
  - unfold canonicalize. by rewrite Ea, Ec.
  - symmetry. apply N.eqb_neq. intros Heq. rewrite Heq in Ha. congruence.
  - symmetry. apply N.eqb_neq. intros Heq. rewrite Heq in Ha. congruence.
Qed.

Lemma ceq_ascii a ch :
  Char.isAscii a = true → ceq true a ch = true →
  Char.asciiUpper ch = Char.asciiUpper a.
Proof.
  unfold ceq. intros ->. intros [_ H]%andb_prop. by apply N.eqb_eq in H.
Qed.

Lemma asciiUpper_fixed a ch :
  Char.asciiUpper ch = a → (a < 65 ∨ 90 < a)%N → ch = a.
Proof.
  unfold Char.asciiUpper.
  destruct (N.leb_spec 97 ch), (N.leb_spec ch 122); cbn [andb]; lia.
Qed.

Lemma asciiUpper_letter a ch :
  Char.asciiUpper ch = a → ch = a ∨ ch = (a + 32)%N.
Proof.
  unfold Char.asciiUpper.
  destruct (N.leb_spec 97 ch), (N.leb_spec ch 122); cbn [andb]; lia.
Qed.


Lemma Forall2_ceq_ascii l w :
  forallb Char.isAscii l = true →
  Forall2 (λ a ch, ceq true a ch = true) l w →
  Forall2 (λ a ch, Char.asciiUpper ch = Char.asciiUpper a) l w.
Proof.
  intros Hl H. induction H as [|a ch l w Hch _ IH]; [constructor|].
  cbn in Hl. apply andb_prop in Hl as [Ha Hl]. constructor; [|by apply IH].
  by apply ceq_ascii.
Qed.

Lemma isDigit_bounds c : Char.isDigit c = true → (48 ≤ c ≤ 57)%N.
Proof.
  unfold Char.isDigit. intros [H1 H2]%andb_prop.
  apply N.leb_le in H1, H2. lia.
Qed.

Lemma isDigit_not_space c : Char.isDigit c = true → Char.isSpace c = false.
Proof.
  intros Hc%isDigit_bounds.
  unfold Char.isSpace, Char.isWhiteSpace, Char.isLineTerminator.
  repeat match goal with
         | |- context [(c =? ?k)%N] => rewrite (proj2 (N.eqb_neq c k)) by lia
         end.
  rewrite (proj2 (N.leb_gt 0x2000 c)) by lia. done.
Qed.

(** ** The header pattern *)

Lemma cmatch_AmPm ch : cmatch true (OneOf (lit "APMapm")) ch = true → isAmPmLetter ch.
Proof.
  cbn [cmatch]. intros (a & Ha & H)%existsb_exists. unfold isAmPmLetter.
  vm_compute in Ha.
  repeat (destruct Ha as [<-|Ha];
    [apply ceq_ascii in H; [|done]; apply asciiUpper_letter in H;
     destruct H as [->| ->]; compute_done|]).
  done.
Qed.

Lemma dateTimeMatch_time line hm :
  String_match dateTimeRegex line = Some hm →
  ∃ hh mm ws a b,
    group 2 hm = hh ++ lit ":" ++ mm ++ ws ++ [a; b]
    ∧ Forall (λ ch, Char.isDigit ch = true) (hh ++ mm)
    ∧ Forall (λ ch, Char.isSpace ch = true) ws
    ∧ isAmPmLetter a ∧ isAmPmLetter b.
Proof.
  intros H. apply String_match_sound in H as (j & y & Hj & _ & HS & _); [|done].
  set (r := pattern dateTimeRegex) in HS. vm_compute in r. subst r.
  change (ignoreCase dateTimeRegex) with true in HS.
  do 4 destruct HS as (? & ? & ? & HS).
  destruct HS as (rest & c5 & HG2 & HREST).
  apply (Sem_lookup_other _ _ _ 2) in HREST; [|by intros ?%list_elem_of_singleton].
  unfold group. rewrite HREST. clear HREST.
  destruct HG2 as (c' & HG2 & ->). rewrite lookup_insert_eq. cbn [default].
  destruct HG2 as (z1 & k1 & (n1 & _ & _ & It1) & z2 & k2 & (ch & -> & Hch & _)
                   & z3 & k3 & (n3 & _ & _ & It3) & z4 & k4 & (n4 & _ & _ & It4)
                   & (n5 & Hlo & Hhi & It5)).
  apply (iter_Chr true _ Digit) in It1 as (hh & -> & _ & Hhh & _).
  apply (iter_Chr true _ Digit) in It3 as (mm & -> & _ & Hmm & _).
  apply (iter_Chr true _ Space) in It4 as (ws & -> & _ & Hws & _).
  apply (iter_Chr true _ (OneOf _)) in It5 as (ap & -> & Hlen & Hap & _).
  specialize (Hhi 2 eq_refl). assert (length ap = 2) as Hap2 by lia.
  destruct ap as [|a [|b [|]]]; try done.
  apply Forall_cons in Hap as [Ha Hap]. apply Forall_cons in Hap as [Hb _].
  apply ceq_ascii in Hch; [|done]. apply asciiUpper_fixed in Hch; [|by left].
  vm_compute in Hch. subst ch. exists hh, mm, ws, a, b. repeat split.
  - apply take_prefix_length. by simplify_list_eq.
  - by apply Forall_app.
  - done.
  - by apply cmatch_AmPm.
  - by apply cmatch_AmPm.
Qed.

Lemma header_class ch : isAmPmLetter ch → cmatch true (OneOf (lit "APMapm")) ch = true.
Proof.
  unfold isAmPmLetter. intros Hch. vm_compute in Hch.
  repeat (apply elem_of_cons in Hch as [->|Hch]); [..|by apply elem_of_nil in Hch];
    by vm_compute.
Qed.

Lemma isAmPmLetter_not_space a : isAmPmLetter a → Char.isSpace a = false.
Proof.
  unfold isAmPmLetter. intros Ha. vm_compute in Ha.
  repeat (apply elem_of_cons in Ha as [->|Ha]); [..|by apply elem_of_nil in Ha]; done.
Qed.

(** Every line of the header shape is a header: date, comma, time with its
    marker, dash and a rest without line terminators that starts with no
    white space; the three groups are the date, the time with its marker
    and the rest. *)
Lemma dateTimeRegex_matches mo dd yy hh mi ws1 ws2 ws3 ws4 a b rest :
  Forall (λ ch, Char.isDigit ch = true) (mo ++ dd ++ yy ++ hh ++ mi) →
  1 ≤ length mo ≤ 2 → 1 ≤ length dd ≤ 2 → 2 ≤ length yy ≤ 4 →
  1 ≤ length hh ≤ 2 → length mi = 2 →
  Forall (λ ch, Char.isSpace ch = true) (ws1 ++ ws2 ++ ws3 ++ ws4) →
  isAmPmLetter a → isAmPmLetter b →
  Forall (λ ch, Char.isLineTerminator ch = false) rest →
  match rest with [] => False | ch :: _ => Char.isSpace ch = false end →
  headerFields (mo ++ lit "/" ++ dd ++ lit "/" ++ yy ++ lit "," ++ ws1
                ++ hh ++ lit ":" ++ mi ++ ws2 ++ [a; b] ++ ws3 ++ lit "-" ++ ws4 ++ rest)
  = Some (mo ++ lit "/" ++ dd ++ lit "/" ++ yy, hh ++ lit ":" ++ mi ++ ws2 ++ [a; b], rest).
Proof.
  intros Hd Hmo Hdd Hyy Hhh Hmi Hws Ha Hb Hrest Hhead.
  apply Forall_app in Hd as [Dmo Hd]. apply Forall_app in Hd as [Ddd Hd].
  apply Forall_app in Hd as [Dyy Hd]. apply Forall_app in Hd as [Dhh Dmi].
  apply Forall_app in Hws as [W1 Hws]. apply Forall_app in Hws as [W2 Hws].
  apply Forall_app in Hws as [W3 W4].
  change (lit "/") with [47%N]. change (lit ",") with [44%N].
  change (lit ":") with [58%N]. change (lit "-") with [45%N]. cbn [app].
  set (line := mo ++ _).
  assert (matcher true (length line) (pattern dateTimeRegex) line ∅ (λ y c, Matched (y, c))
          = Matched ([], <[3 := rest]>
                           (<[2 := hh ++ 58%N :: mi ++ ws2 ++ [a; b]]>
                              (<[1 := mo ++ 47%N :: dd ++ 47%N :: yy]> ∅)))) as Hm.
  { eapply matcher_Run; [|reflexivity].
    set (r := pattern dateTimeRegex). vm_compute in r. subst r.
    eapply Run_Seq; [done|].
    eapply Run_Seq.
    { eapply (Run_Grp _ _ _ _ (mo ++ 47%N :: dd ++ 47%N :: yy));
        [unfold line; by simplify_list_eq|]. unfold line.
      eapply Run_Seq; [eapply (Run_Rep _ _ _ _ _ mo); [done|done|lia| |by right]|].
      { intros m [= <-]. lia. }
      eapply Run_Seq; [by apply Run_Chr|].
      eapply Run_Seq; [eapply (Run_Rep _ _ _ _ _ dd); [done|done|lia| |by right]|].
      { intros m [= <-]. lia. }
      eapply Run_Seq; [by apply Run_Chr|].
      eapply (Run_Rep _ _ _ _ _ yy); [done|done|lia| |by right].
      intros m [= <-]. lia. }
    eapply Run_Seq; [by apply Run_Chr|].
    eapply Run_Seq.
    { eapply (Run_Rep _ _ _ _ _ ws1); [done|done|lia|done|right].
      destruct hh as [|h hh']; [cbn in Hhh; lia|].
      apply Forall_cons in Dhh as [Dh _]. by apply isDigit_not_space. }
    eapply Run_Seq.
    { eapply (Run_Grp _ _ _ _ (hh ++ 58%N :: mi ++ ws2 ++ [a; b]));
        [by simplify_list_eq|].
      eapply Run_Seq; [eapply (Run_Rep _ _ _ _ _ hh); [done|done|lia| |by right]|].
      { intros m [= <-]. lia. }
      eapply Run_Seq; [by apply Run_Chr|].
      eapply Run_Seq; [eapply (Run_Rep _ _ _ _ _ mi); [done|done|lia| |left; by rewrite Hmi]|].
      { intros m [= <-]. lia. }
      eapply Run_Seq.
      { eapply (Run_Rep _ _ _ _ _ ws2); [done|done|lia|done|right].
        by apply isAmPmLetter_not_space. }
      eapply (Run_Rep _ _ _ _ _ [a; b]); [done| |done| |by left].
      - repeat constructor; by apply header_class.
      - by intros m [= <-]. }
    eapply Run_Seq; [eapply (Run_Rep _ _ _ _ _ ws3); [done|done|lia|done|by right]|].
    eapply Run_Seq; [by apply Run_Chr|].
    eapply Run_Seq; [eapply (Run_Rep _ _ _ _ _ ws4); [done|done|lia|done|right]|].
    { destruct rest; [done|]. exact Hhead. }
    eapply Run_Seq; [|done].
    eapply (Run_Grp _ _ _ _ rest); [by rewrite app_nil_r|].
    eapply (Run_Rep _ _ _ _ _ rest); [by rewrite app_nil_r| | |done|by right].
    - eapply Forall_impl; [exact Hrest|]. intros ch Hch. cbn. by rewrite Hch.
    - destruct rest; [done|cbn; lia]. }
  unfold headerFields, String_match, exec. change (ignoreCase dateTimeRegex) with true.
  rewrite (execFrom_first _ _ _ _ _ _ _ Hm). cbn [fmap option_fmap option_map].
  unfold group. cbn [caps].
  rewrite lookup_insert_ne, lookup_insert_ne, lookup_insert_eq by done.
  rewrite lookup_insert_ne, lookup_insert_eq by done. by rewrite lookup_insert_eq.
Qed.

(** ** The line loop as blocks *)

Lemma forEach_blocks files : ∀ lines index st,
  pushLast (forEach files index lines st)
  = chatMessages st
    ++ match lastMessage st with
       | Some m => [appendLines m (continuation lines)]
       | None => []
       end
    ++ (messageOfBlock files <$> blocks index lines).
Proof.
  induction lines as [|line rest IH]; intros index st; cbn [forEach continuation blocks].
  - unfold pushLast. destruct (lastMessage st); cbn; by rewrite ?app_nil_r.
  - rewrite IH. unfold processLine.
    destruct (String_match dateTimeRegex line) as [hm|] eqn:E.
    + cbn. unfold pushLast. destruct (lastMessage st); cbn; by rewrite <-?(assoc (++)).
    + destruct (lastMessage st) as [m|] eqn:El; cbn; by rewrite ?El.
Qed.

Lemma parseChat_blocks chatContent files :
  parseChat chatContent files = messageOfBlock files <$> blocks 0 (linesOf chatContent).
Proof. unfold parseChat. by rewrite forEach_blocks. Qed.

Lemma appendLines_fields m conts :
  id (appendLines m conts) = id m ∧ date (appendLines m conts) = date m
  ∧ time (appendLines m conts) = time m ∧ sender (appendLines m conts) = sender m
  ∧ attachment (appendLines m conts) = attachment m
  ∧ timestamp (appendLines m conts) = timestamp m
  ∧ kind (appendLines m conts) = kind m
  ∧ systemType (appendLines m conts) = systemType m
  ∧ message (appendLines m conts) = message m ++ concat ((λ l, 10%N :: l) <$> conts).
Proof.
  revert m. induction conts as [|l conts IH]; intros m.
  - cbn. by rewrite app_nil_r.
  - change (appendLines m (l :: conts)) with (appendLines (appendLine l m) conts).
    destruct (IH (appendLine l m)) as (-> & -> & -> & -> & -> & -> & -> & -> & ->).
    rewrite fmap_cons. cbn. by rewrite <-(assoc (++)).
Qed.

Lemma newMessage_header files index hm :
  id (newMessage files index hm) = (dateNow index, index)
  ∧ date (newMessage files index hm) = group 1 hm
  ∧ time (newMessage files index hm) = group 2 hm.
Proof. unfold newMessage. by destruct (Str.indexOf _ _) as [[|n]|]. Qed.


Lemma blocks_length : ∀ lines index,
  length (blocks index lines) = length (filter isHeader lines).
Proof.
  induction lines as [|line rest IH]; intros index; [done|].
  rewrite filter_cons. cbn [blocks].
  destruct (decide (isHeader line)) as [[hm Hm]|Hn].
  - rewrite Hm. cbn. by rewrite IH.
  - destruct (String_match dateTimeRegex line) eqn:E; [|apply IH].
    exfalso. apply Hn. by eexists.
Qed.


Lemma continuation_app_header pre h rest :
  isHeader h → continuation (pre ++ h :: rest) = continuation pre.
Proof.
  intros [hm Hh]. induction pre as [|l pre IH]; cbn.
  - by rewrite Hh.
  - destruct (String_match dateTimeRegex l); [done|]. by rewrite IH.
Qed.

Lemma continuation_all conts post :
  Forall (λ l, String_match dateTimeRegex l = None) conts →
  (post = [] ∨ ∃ h post', post = h :: post' ∧ isHeader h) →
  continuation (conts ++ post) = conts.
Proof.
  intros Hc Hpost. induction Hc as [|l conts Hl _ IH]; cbn.
  - destruct Hpost as [->|(h & post' & -> & [hm Hh])]; cbn; [done|]. by rewrite Hh.
  - by rewrite Hl, IH.
Qed.

Lemma blocks_app_header pre h rest index :
  isHeader h →
  blocks index (pre ++ h :: rest)
  = blocks index pre ++ blocks (index + length pre) (h :: rest).
Proof.
  intros Hh. revert index. induction pre as [|l pre IH]; intros index.
  - cbn [app length]. by rewrite Nat.add_0_r.
  - cbn [app blocks length]. rewrite IH, continuation_app_header by done.
    replace (S index + length pre) with (index + S (length pre)) by lia.
    by destruct (String_match dateTimeRegex l).
Qed.

Lemma blocks_skip conts post index :
  Forall (λ l, String_match dateTimeRegex l = None) conts →
  blocks index (conts ++ post) = blocks (index + length conts) post.
Proof.
  intros Hc. revert index. induction Hc as [|l conts Hl _ IH]; intros index.
  - cbn [app length]. by rewrite Nat.add_0_r.
  - cbn [app blocks length]. rewrite Hl, IH. f_equal. lia.
Qed.

(** A header line followed by continuation lines yields one message, at
    the place of that header among the headers. *)
Lemma parseChat_block_at chatContent files pre h hm conts post :
  linesOf chatContent = pre ++ h :: conts ++ post →
  String_match dateTimeRegex h = Some hm →
  Forall (λ l, String_match dateTimeRegex l = None) conts →
  (post = [] ∨ ∃ h' post', post = h' :: post' ∧ isHeader h') →
  ∃ before after,
    parseChat chatContent files
    = before ++ appendLines (newMessage files (length pre) hm) conts :: after
    ∧ length before = length (filter isHeader pre)
    ∧ length after = length (filter isHeader post).
Proof.
  intros Hlines Hh Hc Hpost. rewrite parseChat_blocks, Hlines.
  rewrite blocks_app_header by by eexists. cbn [blocks plus]. rewrite Hh.
  rewrite continuation_all, blocks_skip by done. rewrite fmap_app, fmap_cons.
  eexists _, _. split; [reflexivity|]. by rewrite !length_fmap, !blocks_length.
Qed.

(** ** Messages and header lines *)


(** C2 (amended). The am/pm marker of the header pattern is mandatory
    and any casing of it is accepted: the time group of every matched
    header ends, after optional white space, with exactly two letters taken
    from A, P, M in either case; the class of the pattern accepts these six
    letters and no other code unit; and every line made of a date, a comma,
    an H:MM time, two such letters in any casing, a dash and a rest is a
    header whose fields are the date, the time with its marker and the
    rest. *)
Theorem header_time_ends_with_marker :
  (∀ line hm,
     String_match dateTimeRegex line = Some hm →
     ∃ hh mm ws a b,
       group 2 hm = hh ++ lit ":" ++ mm ++ ws ++ [a; b]
       ∧ Forall (λ ch, Char.isDigit ch = true) (hh ++ mm)
       ∧ Forall (λ ch, Char.isSpace ch = true) ws
       ∧ isAmPmLetter a ∧ isAmPmLetter b)
  ∧ (∀ ch, cmatch true (OneOf (lit "APMapm")) ch = true ↔ isAmPmLetter ch)
  ∧ (∀ mo dd yy hh mi ws1 ws2 ws3 ws4 a b rest,
       Forall (λ ch, Char.isDigit ch = true) (mo ++ dd ++ yy ++ hh ++ mi) →
       1 ≤ length mo ≤ 2 → 1 ≤ length dd ≤ 2 → 2 ≤ length yy ≤ 4 →
       1 ≤ length hh ≤ 2 → length mi = 2 →
       Forall (λ ch, Char.isSpace ch = true) (ws1 ++ ws2 ++ ws3 ++ ws4) →
       isAmPmLetter a → isAmPmLetter b →
       Forall (λ ch, Char.isLineTerminator ch = false) rest →
       match rest with [] => False | ch :: _ => Char.isSpace ch = false end →
       headerFields (mo ++ lit "/" ++ dd ++ lit "/" ++ yy ++ lit "," ++ ws1
                     ++ hh ++ lit ":" ++ mi ++ ws2 ++ [a; b]
                     ++ ws3 ++ lit "-" ++ ws4 ++ rest)
       = Some (mo ++ lit "/" ++ dd ++ lit "/" ++ yy,
               hh ++ lit ":" ++ mi ++ ws2 ++ [a; b], rest)).
Proof.
  split; [exact dateTimeMatch_time|]. split.
  - intros ch. split; [apply cmatch_AmPm|apply header_class].
  - exact dateTimeRegex_matches.
Qed.

(** C3. A header line followed by [N] non-header lines (up to the next
    header or the end of the input) yields exactly one message, placed
    after the messages of the earlier headers, whose body is the header's
    body followed by the [N] lines, each behind a line break, in order; and
    the text of scenario A yields the single message of Alice with body
    Hello, line break, World. *)
Theorem continuation_lines_joined chatContent files pre h hm conts post :
  linesOf chatContent = pre ++ h :: conts ++ post →
  String_match dateTimeRegex h = Some hm →
  Forall (λ l, String_match dateTimeRegex l = None) conts →
  (post = [] ∨ ∃ h' post', post = h' :: post' ∧ isHeader h') →
  (∃ before m after,
     parseChat chatContent files = before ++ m :: after
     ∧ length before = length (filter isHeader pre)
     ∧ length after = length (filter isHeader post)
     ∧ id m = (dateNow (length pre), length pre)
     ∧ sender m = sender (newMessage files (length pre) hm)
     ∧ kind m = kind (newMessage files (length pre) hm)
     ∧ message m = message (newMessage files (length pre) hm)
                   ++ concat ((λ l, 10%N :: l) <$> conts))
  ∧ (λ m, (sender m, message m, kind m, attachment m))
      <$> parseChat (lit "1/2/24, 10:30 AM - Alice: Hello\nWorld") files
    = [(lit "Alice", lit "Hello\nWorld", message_, None)].
Proof.
  intros Hlines Hh Hc Hpost. split; [|by vm_compute].
  destruct (parseChat_block_at chatContent files pre h hm conts post)
    as (before & after & Hout & Hbefore & Hafter); [done..|].
  exists before, (appendLines (newMessage files (length pre) hm) conts), after.
  destruct (appendLines_fields (newMessage files (length pre) hm) conts)
    as (-> & _ & _ & -> & _ & _ & -> & _ & ->).
  by destruct (newMessage_header files (length pre) hm) as (-> & _).
Qed.

(** ** Splitting at the first colon *)

Lemma indexOf_unit_first (a : N) name rest :
  a ∉ name → Str.indexOf [a] (name ++ a :: rest) = Some (length name).
Proof.
  induction name as [|c name IH]; intros Hn; cbn.
  - by rewrite N.eqb_refl.
  - apply not_elem_of_cons in Hn as [Hne Hn].
    destruct (N.eqb_spec a c) as [->|_]; [done|]. cbn. by rewrite IH.
Qed.

Lemma indexOf_unit_none (a : N) s : a ∉ s → Str.indexOf [a] s = None.
Proof.
  induction s as [|c s IH]; intros Hn; cbn; [done|].
  apply not_elem_of_cons in Hn as [Hne Hn].
  destruct (N.eqb_spec a c) as [->|_]; [done|]. cbn. by rewrite IH.
Qed.

(** C4. For every header line the sender is split from the body at the
    first colon of the trimmed rest, and only when that colon is not at
    index 0: the text before it (trimmed) is the sender of an authored
    message whose body comes from the text after it; with no colon, or a
    colon at index 0, the whole rest is the body of a System message with
    sender System, classified by [getSystemMessageType]; and the line of
    scenario B yields one System message classified as joined. *)
Theorem sender_split_at_first_colon files index hm :
  let content := Str.trim (group 3 hm) in
  let m := newMessage files index hm in
  (∀ name rest,
     content = name ++ lit ":" ++ rest → 58%N ∉ name → name ≠ [] →
     kind m = message_ ∧ sender m = Str.trim name ∧ systemType m = None
     ∧ attachment m = extractAttachment (Str.trim rest) files
     ∧ (attachment m = None → message m = Str.trim rest))
  ∧ (58%N ∉ content ∨ (∃ rest, content = lit ":" ++ rest) →
     kind m = system_ ∧ sender m = lit "System" ∧ message m = content
     ∧ attachment m = None ∧ systemType m = Some (getSystemMessageType content))
  ∧ (λ m, (sender m, message m, kind m, systemType m, attachment m))
      <$> parseChat (lit "1/2/24, 10:31 AM - Bob joined using this group's invite link")
            files
    = [(lit "System", lit "Bob joined using this group's invite link", system_,
        Some joined, None)].
Proof.
  cbv zeta. split; [|split; [|by vm_compute]].
  - intros name rest Hc Hn Hne. unfold newMessage. rewrite Hc.
    change (lit ":") with [58%N]. cbn [app].
    rewrite indexOf_unit_first by done.
    destruct name as [|c name]; [done|]. cbn [length].
    unfold Str.substring, Str.substringFrom. rewrite Nat.sub_0_r, drop_0.
    replace (S (length name)) with (length (c :: name)) by done.
    rewrite take_app_length.
    replace (length (c :: name) + 1) with (length ((c :: name) ++ [58%N]))
      by (rewrite length_app; done).
    replace ((c :: name) ++ 58%N :: rest) with (((c :: name) ++ [58%N]) ++ rest)
      by (by rewrite <-(assoc (++))).
    rewrite drop_app_length. cbn.
    repeat split. by intros ->.
  - intros [Hn|[rest Hc]]; unfold newMessage.
    + change (lit ":") with [58%N]. by rewrite indexOf_unit_none.
    + rewrite Hc. change (lit ":") with [58%N]. by cbn.
Qed.

(** ** A header line on its own terms *)

Lemma newMessage_authored files index hm n :
  Str.indexOf (lit ":") (Str.trim (group 3 hm)) = Some (S n) →
  let messageText := headerMessageText hm in
  let m := newMessage files index hm in
  kind m = message_
  ∧ attachment m = extractAttachment messageText files
  ∧ message m = match extractAttachment messageText files with
                | Some a => Str.trim (Str.removeFirst (originalText a) messageText)
                | None => messageText
                end.
Proof. intros H. unfold newMessage, headerMessageText. by rewrite H. Qed.


(** ** The bracketed marker *)

Lemma Sem_chars icase len l : ∀ x c y c',
  Sem icase len (chars l) x c y c' →
  ∃ w, x = w ++ y ∧ Forall2 (λ a ch, ceq icase a ch = true) l w ∧ c' = c.
Proof.
  unfold chars. induction l as [|a [|b l] IH]; intros x c y c' H.
  - destruct H as [-> ->]. exists []. by repeat split.
  - destruct H as (ch & -> & Hch & ->). exists [ch]. repeat split; by repeat constructor.
  - destruct H as (z & c1 & (ch & -> & Hch & ->) & H).
    apply IH in H as (w & -> & Hw & ->). exists (ch :: w). repeat split; by constructor.
Qed.

Lemma Sem_word icase len s x c y c' :
  Sem icase len (word s) x c y c' →
  ∃ w, x = w ++ y ∧ Forall2 (λ a ch, ceq icase a ch = true) (lit s) w ∧ c' = c.
Proof. apply Sem_chars. Qed.

(** What [attachedPattern] matches: the tag in any casing, white space, a
    non-empty name free of the closing bracket, the closing bracket; group 1
    is the name. *)
Lemma attachedMatch_shape messageText am :
  String_match attachedPattern messageText = Some am →
  ∃ pre tag ws name post,
    messageText = pre ++ matched am ++ post
    ∧ matched am = tag ++ ws ++ name ++ lit ">"
    ∧ group 1 am = name
    ∧ Forall2 (λ a ch, Char.asciiUpper ch = Char.asciiUpper a) (lit "<attached:") tag
    ∧ Forall (λ ch, Char.isSpace ch = true) ws
    ∧ name ≠ [] ∧ 62%N ∉ name.
Proof.
  intros H. apply String_match_sound in H as (j & y & Hj & _ & HS & Hm); [|done].
  cbn [pattern attachedPattern seqs ignoreCase] in HS.
  destruct HS as (x1 & c1 & (tag & Hx & Htag & ->)%Sem_word
                  & x2 & c2 & (n2 & _ & _ & It2)
                  & x3 & c3 & (c' & (n3 & Hn3 & _ & It3) & ->)
                  & (close & -> & Hclose & Hcaps)%Sem_word).
  apply (iter_Chr true _ Space) in It2 as (ws & -> & _ & Hws & ->).
  apply (iter_Chr true _ (NoneOf _)) in It3 as (name & -> & Hlen & Hname & ->).
  change (lit ">") with [62%N] in Hclose.
  apply Forall2_cons_inv_l in Hclose as (ch & close' & Hch & Hnil & ->).
  apply Forall2_nil_inv_l in Hnil as ->.
  apply ceq_ascii in Hch; [|done]. apply asciiUpper_fixed in Hch; [|by left].
  vm_compute in Hch. subst ch.
  assert (matched am = tag ++ ws ++ name ++ lit ">") as Hmatched.
  { rewrite Hm, Hx. apply take_prefix_length. by simplify_list_eq. }
  exists (take j messageText), tag, ws, name, y. repeat split.
  - rewrite Hmatched. rewrite <-(take_drop j messageText) at 1. rewrite Hx.
    by simplify_list_eq.
  - done.
  - unfold group. rewrite Hcaps, lookup_insert_eq. cbn [default].
    by apply take_prefix_length.
  - by apply Forall2_ceq_ascii.
  - done.
  - destruct name; [cbn in Hlen; lia|done].
  - intros Hin. rewrite Forall_forall in Hname. specialize (Hname _ Hin).
    by vm_compute in Hname.
Qed.



(** ** The resolver *)

Lemma resolve_Some files name original a :
  resolve files name original = Some a →
  filename a = name ∧ originalText a = original
  ∧ type a = getFileType name ∧ files !! name = Some (blob a).
Proof.
  unfold resolve. destruct (files !! name) as [file|]; cbn; [|done].
  by intros [= <-].
Qed.

Lemma extractAttachment_Some messageText files a :
  extractAttachment messageText files = Some a →
  type a = getFileType (filename a) ∧ files !! filename a = Some (blob a).
Proof.
  unfold extractAttachment, orElse, tryAttached, tryFileAttached, tryDirect.
  destruct messageText as [|c s]; [done|].
  destruct (String_match attachedPattern (c :: s) ≫= _) eqn:E1;
    [|destruct (String_match fileAttachedPattern (c :: s) ≫= _) eqn:E2];
    intros H; try (injection H as ->).
  - apply bind_Some in E1 as (m & _ & (<- & _ & -> & ->)%resolve_Some). done.
  - apply bind_Some in E2 as (m & _ & (<- & _ & -> & ->)%resolve_Some). done.
  - apply bind_Some in H as (m & _ & (<- & _ & -> & ->)%resolve_Some). done.
Qed.


(** With the explicit marker unresolved the resolver goes on to the
    parenthetical and the direct patterns. *)
Lemma extractAttachment_fall_through messageText files am :
  String_match attachedPattern messageText = Some am →
  files !! Str.trim (group 1 am) = None →
  extractAttachment messageText files
  = orElse (tryFileAttached messageText files) (tryDirect messageText files).
Proof.
  intros Hm Hf. unfold extractAttachment. destruct messageText as [|c s].
  { by vm_compute in Hm. }
  unfold tryAttached at 1. rewrite Hm. cbn. unfold resolve. by rewrite Hf.
Qed.

(** C6 (amended). When the name of a bracketed marker is absent from the
    file table the resolver does not stop: it goes on to the parenthetical
    and the direct filename patterns, and yields none only when these do
    not resolve either; whenever it yields none the body is left as it was.
    For the body of scenario E, with missing.jpg absent, it yields none and
    the marker stays in the body. *)
Theorem absent_marker_name_falls_through files :
  (∀ messageText am,
     String_match attachedPattern messageText = Some am →
     files !! Str.trim (group 1 am) = None →
     (∃ pre tag ws name post,
        messageText = pre ++ tag ++ ws ++ name ++ lit ">" ++ post
        ∧ Forall2 (λ a ch, Char.asciiUpper ch = Char.asciiUpper a) (lit "<attached:") tag
        ∧ Forall (λ ch, Char.isSpace ch = true) ws
        ∧ name ≠ [] ∧ (62%N ∉ name)
        ∧ files !! Str.trim name = None)
     ∧ extractAttachment messageText files
       = orElse (tryFileAttached messageText files) (tryDirect messageText files))
  ∧ (∀ index hm n,
       Str.indexOf (lit ":") (Str.trim (group 3 hm)) = Some (S n) →
       extractAttachment (headerMessageText hm) files = None →
       message (newMessage files index hm) = headerMessageText hm
       ∧ attachment (newMessage files index hm) = None)
  ∧ (files !! lit "missing.jpg" = None →
     extractAttachment (lit "<attached: missing.jpg>") files = None
     ∧ (λ m, (sender m, message m, attachment m))
         <$> parseChat (lit "1/2/24, 10:30 AM - Alice: <attached: missing.jpg>") files
       = [(lit "Alice", lit "<attached: missing.jpg>", None)]).
Proof.
  split.
  { intros messageText am Hm Hf. split; [|by apply (extractAttachment_fall_through _ _ am)].
    destruct (attachedMatch_shape messageText am Hm)
      as (pre & tag & ws & name & post & Htext & Hmatched & Hname & Htag & Hws & Hne & Hn).
    exists pre, tag, ws, name, post. rewrite Htext, Hmatched, <-Hname.
    repeat split; try done; [by simplify_list_eq|by rewrite Hname..]. }
  split.
  { intros index hm n Hcolon Hnone.
    destruct (newMessage_authored files index hm n Hcolon) as (_ & -> & ->).
    by rewrite Hnone. }
  intros Hmissing.
  assert (extractAttachment (lit "<attached: missing.jpg>") files = None) as Hnone.
  { destruct (String_match attachedPattern (lit "<attached: missing.jpg>"))
      as [am|] eqn:E; [|by vm_compute in E].
    rewrite (extractAttachment_fall_through _ _ am E).
    - by vm_compute.
    - vm_compute in E. injection E as <-.
      by change (files !! lit "missing.jpg" = None). }
  split; [done|].
  rewrite parseChat_blocks.
  destruct (String_match dateTimeRegex
              (lit "1/2/24, 10:30 AM - Alice: <attached: missing.jpg>"))
    as [hm|] eqn:E; [|by vm_compute in E].
  assert (linesOf (lit "1/2/24, 10:30 AM - Alice: <attached: missing.jpg>")
          = [lit "1/2/24, 10:30 AM - Alice: <attached: missing.jpg>"]) as ->
    by by vm_compute.
  cbn [blocks continuation]. rewrite E. cbn [fmap list_fmap]. unfold messageOfBlock.
  cbn [fst snd appendLines foldl].
  assert (Str.indexOf (lit ":") (Str.trim (group 3 hm)) = Some 5
          ∧ headerMessageText hm = lit "<attached: missing.jpg>"
          ∧ sender (newMessage files 0 hm) = lit "Alice") as (Hcolon & Htext & ->).
  { vm_compute in E. injection E as <-. by vm_compute. }
  destruct (newMessage_authored files 0 hm 4 Hcolon) as (_ & -> & ->).
  by rewrite Htext, Hnone.
Qed.

(** ** Extensions *)









(** ** The poll parser *)

Lemma optionsFrom_0 lines : optionsFrom 0 lines = lines ≫= optionOfLine.
Proof. induction lines as [|l lines IH]; cbn; [done|]. by rewrite IH. Qed.

Lemma optionsFrom_1 line0 rest : optionsFrom 1 (line0 :: rest) = rest ≫= optionOfLine.
Proof. apply optionsFrom_0. Qed.

Lemma pollLines_nonempty message : Forall (λ line, line ≠ []) (pollLines message).
Proof.
  unfold pollLines. apply Forall_forall. intros line [Hlen _]%list_elem_of_filter.
  destruct line; [cbn in Hlen; lia|done].
Qed.

(** What [parsePollMessage] returns, read backwards. *)
Lemma parsePollMessage_Some message p :
  parsePollMessage message = Some p →
  ∃ line0 rest o1 o2 os,
    pollLines message = line0 :: rest
    ∧ 3 ≤ length (pollLines message)
    ∧ hasPollIndicator line0 = true
    ∧ existsb hasOptionIndicator (pollLines message) = true
    ∧ rest ≫= optionOfLine = o1 :: o2 :: os
    ∧ options p = o1 :: o2 :: os
    ∧ totalVotes p = foldl (λ sum option, sum + votes option)%Z 0%Z (o1 :: o2 :: os)
    ∧ maxVotes p = (let m := mathMax (votes o1) (votes <$> o2 :: os) in
                    if (m =? 0)%Z then 1%Z else m)
    ∧ title p = (let title :=
                   if hasPollPrefix line0 then Str.trim (String_remove titlePrefixRegex line0)
                   else default [] (rest !! 0) in
                 match title with [] => lit "Poll" | _ => title end).
Proof.
  unfold parsePollMessage. case_bool_decide as Hlen; [done|].
  destruct (pollLines message) as [|line0 rest] eqn:El; [cbn in Hlen; lia|].
  change (default [] ((line0 :: rest) !! 0)) with line0.
  change (default [] ((line0 :: rest) !! 1)) with (default [] (rest !! 0)).
  destruct (hasPollIndicator line0) eqn:Hind; cbn [negb]; [|done].
  destruct (existsb hasOptionIndicator (line0 :: rest)) eqn:Hopt; cbn [negb]; [|done].
  rewrite optionsFrom_1.
  destruct (rest ≫= optionOfLine) as [|o1 [|o2 os]] eqn:Eo; [done..|].
  intros [= <-]. exists line0, rest, o1, o2, os. cbn [options totalVotes maxVotes title].
  repeat split; try done. lia.
Qed.

(** C8. [parsePollMessage] returns none whenever the text has fewer than
    three trimmed non-empty lines, and whenever fewer than two options are
    extracted from the lines after the first; a text with a poll indicator
    on its first line and an option indicator, but a single extracted
    option, is not a poll. *)
Theorem poll_needs_three_lines_and_two_options :
  (∀ message, length (pollLines message) < 3 → parsePollMessage message = None)
  ∧ (∀ message,
       length (optionsFrom 1 (pollLines message)) < 2 → parsePollMessage message = None)
  ∧ (let message := lit "POLL: Lunch?\nOPTION: Pizza (3 votes)\nOPTION: Sushi" in
     length (pollLines message) = 3
     ∧ hasPollIndicator (default [] (pollLines message !! 0)) = true
     ∧ existsb hasOptionIndicator (pollLines message) = true
     ∧ length (optionsFrom 1 (pollLines message)) = 1
     ∧ parsePollMessage message = None).
Proof.
  split; [|split; [|by vm_compute]].
  - intros message Hlen. unfold parsePollMessage. by rewrite bool_decide_true.
  - intros message Hopts. unfold parsePollMessage.
    destruct (bool_decide _); [done|]. destruct (negb _); [done|].
    destruct (negb _); [done|].
    destruct (optionsFrom 1 (pollLines message)) as [|o1 [|o2 os]]; [done..|].
    cbn in Hopts. lia.
Qed.

(** ** Vote counts *)













(** C10. The options of a returned poll are extracted from exactly the
    lines after the first, in order: the first line contributes none, even
    when it has the shape of an option; and the second line is scanned even
    when it serves as the title (the first line having no POLL: prefix), so
    that a title of the shape text (N) is counted as the first option. *)
Theorem poll_options_from_second_line message p :
  parsePollMessage message = Some p →
  (∃ line0 rest,
     pollLines message = line0 :: rest
     ∧ options p = rest ≫= optionOfLine
     ∧ (hasPollPrefix line0 = false →
        ∃ line1 rest',
          rest = line1 :: rest'
          ∧ title p = line1
          ∧ options p = optionOfLine line1 ++ (rest' ≫= optionOfLine)))
  ∧ (let message := lit "POLL: x (5)\nOPTION: A (0)\nOPTION: B (0)" in
     (λ o, (text o, votes o)) <$> optionOfLine (lit "POLL: x (5)") = [(lit "POLL: x", 5%Z)]
     ∧ (λ p, (title p, (λ o, (text o, votes o)) <$> options p))
         <$> parsePollMessage message
       = Some (lit "x (5)", [(lit "A", 0%Z); (lit "B", 0%Z)]))
  ∧ (let message := pollMark1 ++ lit "\nFavorite (2)\nOPTION: A (1)\nOPTION: B (0)" in
     (λ p, (title p, (λ o, (text o, votes o)) <$> options p))
       <$> parsePollMessage message
     = Some (lit "Favorite (2)",
             [(lit "Favorite", 2%Z); (lit "A", 1%Z); (lit "B", 0%Z)])).
Proof.
  intros H. split; [|split; by vm_compute].
  pose proof (pollLines_nonempty message) as Hne.
  apply parsePollMessage_Some in H
    as (line0 & rest & o1 & o2 & os & Hl & Hlen & _ & _ & Hopts & -> & _ & _ & ->).
  exists line0, rest. split; [done|]. split; [done|].
  intros ->. rewrite Hl in Hlen, Hne.
  destruct rest as [|line1 rest']; [cbn in Hlen; lia|].
  exists line1, rest'. split; [done|]. cbn. split; [|done].
  apply Forall_cons in Hne as [_ [Hne1 _]%Forall_cons]. by destruct line1.
Qed.

(** ** Trimming *)

Lemma trimStart_spec s :
  ∃ w, s = w ++ Str.trimStart s
       ∧ Forall (λ c, Char.isSpace c = true) w
       ∧ match Str.trimStart s with [] => True | c :: _ => Char.isSpace c = false end.
Proof.
  induction s as [|c s (w & Hs & Hw & Hhead)]; [by exists []|].
  cbn [Str.trimStart]. destruct (Char.isSpace c) eqn:Hc.
  - exists (c :: w). split; [by rewrite Hs at 1|]. split; [by constructor|done].
  - by exists [].
Qed.

Lemma trimStart_spaces w s :
  Forall (λ c, Char.isSpace c = true) w → Str.trimStart (w ++ s) = Str.trimStart s.
Proof. induction 1 as [|c w Hc _ IH]; [done|]. cbn. by rewrite Hc. Qed.

Lemma trimStart_id s :
  match s with [] => True | c :: _ => Char.isSpace c = false end → Str.trimStart s = s.
Proof. destruct s as [|c s]; [done|]. cbn. by intros ->. Qed.

Lemma trimEnd_spec s :
  ∃ w, s = Str.trimEnd s ++ w
       ∧ Forall (λ c, Char.isSpace c = true) w
       ∧ match last (Str.trimEnd s) with None => True | Some c => Char.isSpace c = false end.
Proof.
  unfold Str.trimEnd. destruct (trimStart_spec (reverse s)) as (w & Hs & Hw & Hhead).
  exists (reverse w). split; [|split].
  - by rewrite <-reverse_app, <-Hs, reverse_involutive.
  - by apply Forall_reverse.
  - rewrite last_reverse. by destruct (Str.trimStart (reverse s)).
Qed.

Lemma trimEnd_unique t w :
  Forall (λ c, Char.isSpace c = true) w →
  match last t with None => True | Some c => Char.isSpace c = false end →
  Str.trimEnd (t ++ w) = t.
Proof.
  intros Hw Hlast. unfold Str.trimEnd.
  rewrite reverse_app, trimStart_spaces by by apply Forall_reverse.
  rewrite trimStart_id; [apply reverse_involutive|].
  rewrite <-head_reverse in Hlast. by destruct (reverse t).
Qed.

(** The shape of [s.trim()]: white space, the trimmed text, white space;
    the trimmed text neither starts nor ends with white space. *)
Lemma trim_spec s :
  ∃ w1 w2, s = w1 ++ Str.trim s ++ w2
           ∧ Forall (λ c, Char.isSpace c = true) (w1 ++ w2)
           ∧ match Str.trim s with [] => True | c :: _ => Char.isSpace c = false end
           ∧ match last (Str.trim s) with
             | None => True
             | Some c => Char.isSpace c = false
             end.
Proof.
  unfold Str.trim. destruct (trimStart_spec s) as (w1 & Hs & Hw1 & Hhead).
  destruct (trimEnd_spec (Str.trimStart s)) as (w2 & Ht & Hw2 & Hlast).
  exists w1, w2. split; [by rewrite <-Ht|]. split; [by apply Forall_app|].
  split; [|done]. rewrite Ht in Hhead.
  destruct (Str.trimEnd (Str.trimStart s)) as [|c t]; [done|]. done.
Qed.

Lemma trim_id s :
  match s with [] => True | c :: _ => Char.isSpace c = false end →
  match last s with None => True | Some c => Char.isSpace c = false end →
  Str.trim s = s.
Proof.
  intros Hhead Hlast. unfold Str.trim. rewrite trimStart_id by done.
  rewrite <-(app_nil_r s) at 1. by apply trimEnd_unique.
Qed.

Lemma trim_idempotent s : Str.trim (Str.trim s) = Str.trim s.
Proof. destruct (trim_spec s) as (w1 & w2 & _ & _ & Hhead & Hlast). by apply trim_id. Qed.

Lemma trim_elem_of c s : c ∈ Str.trim s → c ∈ s.
Proof.
  destruct (trim_spec s) as (w1 & w2 & Hs & _). intros Hc. rewrite Hs.
  rewrite !elem_of_app. right. by left.
Qed.

Lemma trim_nonempty c s : Char.isSpace c = false → Str.trim (c :: s) ≠ [].
Proof.
  intros Hc Hnil. destruct (trim_spec (c :: s)) as (w1 & w2 & Hs & Hw & _).
  rewrite Hnil in Hs. cbn [app] in Hs. rewrite <-Hs in Hw.
  apply Forall_cons in Hw as [Hw _]. congruence.
Qed.

Lemma indexOf_unit_Some (a : N) s i :
  Str.indexOf [a] s = Some i → (a ∉ take i s) ∧ s !! i = Some a.
Proof.
  revert i. induction s as [|c s IH]; intros i; cbn; [done|].
  destruct (N.eqb_spec a c) as [->|Hne]; cbn.
  - intros [= <-]. split; [apply not_elem_of_nil|done].
  - destruct (Str.indexOf [a] s) as [j|]; [|done]. cbn. intros [= <-].
    destruct (IH j eq_refl) as [Hnot Hat]. split; [|done].
    cbn. by apply not_elem_of_cons.
Qed.

(** ** Colours *)

Lemma toInt32_range z : (- 2 ^ 31 ≤ toInt32 z < 2 ^ 31)%Z.
Proof.
  unfold toInt32. cbv zeta.
  pose proof (Z.mod_pos_bound z (2 ^ 32) ltac:(lia)).
  destruct (Z.leb_spec (2 ^ 31) (z `mod` 2 ^ 32)); lia.
Qed.

Lemma toInt32_mod z : (toInt32 z `mod` 2 ^ 32 = z `mod` 2 ^ 32)%Z.
Proof.
  unfold toInt32. cbv zeta. destruct (Z.leb_spec (2 ^ 31) (z `mod` 2 ^ 32)).
  - rewrite <-(Z.mod_add _ 1 (2 ^ 32)) by lia.
    replace (z `mod` 2 ^ 32 - 2 ^ 32 + 1 * 2 ^ 32)%Z with (z `mod` 2 ^ 32)%Z by lia.
    by rewrite Z.mod_mod.
  - by rewrite Z.mod_mod.
Qed.

Lemma toInt32_congruent z z' :
  (z `mod` 2 ^ 32 = z' `mod` 2 ^ 32)%Z → toInt32 z = toInt32 z'.
Proof. unfold toInt32. by intros ->. Qed.

Lemma hashStep_toInt32 hash char :
  hashStep hash char = toInt32 (31 * hash + Z.of_N char).
Proof.
  unfold hashStep. cbv zeta. rewrite Z.land_diag, Z.shiftl_mul_pow2 by lia.
  apply toInt32_congruent.
  rewrite Zplus_mod, Zminus_mod, toInt32_mod, Zmult_mod, toInt32_mod.
  rewrite <-Zmult_mod, <-Zminus_mod, <-Zplus_mod. f_equal. lia.
Qed.

Lemma hash_polyHash userName :
  foldl hashStep 0%Z userName = toInt32 (polyHash userName).
Proof.
  unfold polyHash. induction userName as [|c userName IH] using rev_ind; [done|].
  rewrite !foldl_app. cbn [foldl]. rewrite hashStep_toInt32, IH.
  apply toInt32_congruent.
  rewrite Zplus_mod, Zmult_mod, toInt32_mod, <-Zmult_mod, <-Zplus_mod. done.
Qed.

(** X1. [getUserColor] always yields a colour, whatever [totalUsers] is:
    the gray [#6B7280] for the empty name and for no other, and an entry of
    the palette for every other name; the index never leaves the palette. *)
Theorem getUserColor_in_palette userName totalUsers :
  ∃ color,
    getUserColor userName totalUsers = Some color
    ∧ (userName = [] → color = lit "#6B7280")
    ∧ (userName ≠ [] → color ∈ userColors)
    ∧ (color = lit "#6B7280" ↔ userName = []).
Proof.
  destruct userName as [|c userName].
  { exists (lit "#6B7280"). by repeat split. }
  unfold getUserColor. set (hash := foldl hashStep 0%Z (c :: userName)).
  cbv zeta.
  assert (0 ≤ Z.rem (Z.abs hash) (Z.of_nat (length userColors))
          < Z.of_nat (length userColors))%Z as Hidx.
  { change (length userColors) with 20. apply Z.rem_bound_pos; lia. }
  destruct (lookup_lt_is_Some_2 userColors
              (Z.to_nat (Z.rem (Z.abs hash) (Z.of_nat (length userColors)))))
    as [color Hcolor]; [lia|].
  exists color. split; [done|]. split; [done|].
  assert (color ∈ userColors) as Hin by by eapply list_elem_of_lookup_2.
  split; [done|]. split; [|done].
  intros ->. exfalso. revert Hin. clear. vm_compute. intros Hin.
  repeat (apply elem_of_cons in Hin as [Hin|Hin]; [discriminate Hin|]).
  by apply elem_of_nil in Hin.
Qed.

(** X2. The hash of [getUserColor], which wraps to 32 bits in every turn
    of its loop, is the polynomial hash of the name (the sum of
    [c_i * 31^(n-1-i)] over its code units) wrapped once; it lies in the
    signed 32-bit range, and the colour is the palette entry at the
    absolute value of that hash modulo 20. *)
Theorem getUserColor_polynomial_hash userName totalUsers :
  foldl hashStep 0%Z userName = toInt32 (polyHash userName)
  ∧ (- 2 ^ 31 ≤ foldl hashStep 0%Z userName < 2 ^ 31)%Z
  ∧ (userName ≠ [] →
     getUserColor userName totalUsers
     = userColors !! Z.to_nat (Z.abs (toInt32 (polyHash userName)) `mod` 20)).
Proof.
  split; [apply hash_polyHash|]. split.
  { rewrite hash_polyHash. apply toInt32_range. }
  intros Hne. destruct userName as [|c userName]; [done|].
  unfold getUserColor. cbv zeta. rewrite hash_polyHash.
  change (Z.of_nat (length userColors)) with 20%Z.
  by rewrite Z.rem_mod_nonneg by lia.
Qed.

Lemma setProperty_lookup {V} (o : gmap jsstring V) key v p :
  setProperty o key v !! p
  = if bool_decide (p = key ∧ key ≠ lit "__proto__") then Some v else o !! p.
Proof.
  unfold setProperty. case_bool_decide as Hk.
  - rewrite bool_decide_false; [done|]. intros [_ ?]. done.
  - case_bool_decide as Hp.
    + destruct Hp as [-> _]. by rewrite lookup_insert_eq.
    + rewrite lookup_insert_ne; [done|]. intros <-. by apply Hp.
Qed.

Lemma colorLoop_not_in participants : ∀ index colorMap p,
  p ∉ participants ∨ p = lit "__proto__" →
  colorLoop index participants colorMap !! p = colorMap !! p.
Proof.
  induction participants as [|q participants IH]; intros index colorMap p Hp; [done|].
  cbn [colorLoop]. rewrite IH.
  - rewrite setProperty_lookup, bool_decide_false; [done|].
    intros [-> Hq]. destruct Hp as [Hp|Hp]; [|done]. apply Hp. by left.
  - destruct Hp as [Hp|Hp]; [left|by right]. intros Hin. apply Hp. by right.
Qed.

Lemma colorLoop_last participants : ∀ index colorMap p i,
  p ≠ lit "__proto__" →
  participants !! i = Some p →
  (∀ j, i < j → participants !! j ≠ Some p) →
  colorLoop index participants colorMap !! p
  = Some (userColors !! ((index + i) `mod` length userColors)).
Proof.
  induction participants as [|q participants IH]; intros index colorMap p i Hp Hi Hlast;
    [done|].
  cbn [colorLoop]. destruct i as [|i].
  - injection Hi as ->. rewrite colorLoop_not_in.
    + rewrite setProperty_lookup, bool_decide_true by done. by rewrite Nat.add_0_r.
    + left. intros (j & Hj)%list_elem_of_lookup_1. by apply (Hlast (S j)); [lia|].
  - rewrite (IH _ _ p i); [|done|done|].
    + do 3 f_equal. lia.
    + intros j Hj. apply (Hlast (S j)). lia.
Qed.

Lemma userColors_lookup n : is_Some (userColors !! (n `mod` length userColors)).
Proof.
  apply lookup_lt_is_Some_2. apply Nat.mod_upper_bound. done.
Qed.


(** X3. [createColorMap] holds exactly the listed participants as keys,
    the name [__proto__] apart, which never becomes a key. The value of a
    participant is the palette entry at the index of its last occurrence in
    the list, modulo 20, and it is always a defined colour. *)
Theorem createColorMap_lookup participants p :
  (createColorMap participants !! p = None ↔ p ∉ participants ∨ p = lit "__proto__")
  ∧ (∀ i, participants !! i = Some p →
          (∀ j, i < j → participants !! j ≠ Some p) →
          p ≠ lit "__proto__" →
          ∃ color, userColors !! (i `mod` 20) = Some color
                   ∧ createColorMap participants !! p = Some (Some color)).
Proof.
  assert (∀ i, participants !! i = Some p →
               (∀ j, i < j → participants !! j ≠ Some p) →
               p ≠ lit "__proto__" →
               ∃ color, userColors !! (i `mod` 20) = Some color
                        ∧ createColorMap participants !! p = Some (Some color)) as Hlast.
  { intros i Hi Hno Hp. destruct (userColors_lookup i) as [color Hcolor].
    exists color. split; [done|]. unfold createColorMap.
    rewrite (colorLoop_last _ _ _ p i) by done. by rewrite Nat.add_0_l, Hcolor. }
  split; [|done]. split.
  - intros Hnone. destruct (decide (p = lit "__proto__")) as [|Hp]; [by right|left].
    intros Hin.
    assert (∃ i, participants !! i = Some p ∧ ∀ j, i < j → participants !! j ≠ Some p)
      as (i & Hi & Hno).
    { clear -Hin. induction participants as [|q participants IH]; [by apply elem_of_nil in Hin|].
      destruct (decide (p ∈ participants)) as [Hin'|Hout].
      - destruct (IH Hin') as (i & Hi & Hno). exists (S i). split; [done|].
        intros [|j] Hj; [lia|]. apply Hno. lia.
      - apply elem_of_cons in Hin as [->|?]; [|done]. exists 0. split; [done|].
        intros [|j] Hj; [lia|]. cbn. intros Hq. apply Hout.
        by eapply list_elem_of_lookup_2. }
    destruct (Hlast i Hi Hno Hp) as (color & _ & Hsome). congruence.
  - intros Hp. unfold createColorMap. by rewrite colorLoop_not_in.
Qed.





(** ** Chunks *)

Lemma Array_slice_chunk {A} (array : list A) (k size : nat) :
  k ≤ length array →
  Array_slice (Z.of_nat k) (Z.of_nat k + Z.of_nat size) array = take size (drop k array).
Proof.
  intros Hk. unfold Array_slice. cbv zeta.
  destruct (Z.ltb_spec (Z.of_nat k) 0); [lia|].
  destruct (Z.ltb_spec (Z.of_nat k + Z.of_nat size) 0); [lia|].
  rewrite (Z.min_l (Z.of_nat k)) by lia. rewrite Nat2Z.id.
  destruct (decide (k + size ≤ length array)) as [Hle|Hgt].
  - rewrite Z.min_l by lia. f_equal. lia.
  - rewrite Z.min_r by lia.
    rewrite (take_ge _ size) by (rewrite length_drop; lia).
    apply take_ge. rewrite length_drop. lia.
Qed.

Lemma chunkLoop_from {A} (array : list A) (size : nat) : 1 ≤ size →
  ∀ fuel k chunks,
    length array - k * size < fuel →
    ∃ cs, chunkLoop fuel array (Z.of_nat size) (Z.of_nat (k * size)) chunks
          = Some (chunks ++ cs)
          ∧ concat cs = drop (k * size) array
          ∧ (∀ j chunk, cs !! j = Some chunk →
                        chunk = take size (drop ((k + j) * size) array)
                        ∧ (k + j) * size < length array)
          ∧ length array ≤ (k + length cs) * size
          ∧ (k * size < length array → (k + length cs) * size < length array + size)
          ∧ (length array ≤ k * size → cs = []).
Proof.
  intros Hsize fuel. induction fuel as [|fuel IH]; intros k chunks Hfuel.
  { lia. }
  cbn [chunkLoop]. destruct (Z.ltb_spec (Z.of_nat (k * size)) (Z.of_nat (length array)))
    as [Hlt|Hge].
  - destruct (IH (S k) (chunks ++ [take size (drop (k * size) array)])) as
      (cs & Hrun & Hcat & Hchunk & Hlen & Hup & _); [nia|].
    exists (take size (drop (k * size) array) :: cs).
    rewrite Array_slice_chunk by lia.
    replace (Z.of_nat (k * size) + Z.of_nat size)%Z with (Z.of_nat (S k * size)) by lia.
    split; [by rewrite Hrun, <-app_assoc|]. split.
    { cbn [concat]. rewrite Hcat. replace (S k * size) with (k * size + size) by lia.
      by rewrite <-drop_drop, take_drop. }
    split.
    { intros [|j] chunk Hj.
      - injection Hj as <-. rewrite Nat.add_0_r. split; [done|lia].
      - cbn in Hj. apply Hchunk in Hj as [-> Hj].
        replace ((S k + j) * size) with ((k + S j) * size) in * by lia. done. }
    cbn [length]. split; [nia|]. split; [|lia]. intros _.
    destruct (decide (S k * size < length array)) as [Hmore|Hlast].
    + specialize (Hup Hmore). nia.
    + destruct (IH (S k) (chunks ++ [take size (drop (k * size) array)]))
        as (cs' & Hrun' & _ & _ & _ & _ & Hnil); [nia|].
      rewrite Hrun in Hrun'. injection Hrun' as Heq%app_inv_head.
      rewrite Heq, Hnil by lia. cbn [length]. nia.
  - exists []. rewrite app_nil_r. split; [done|]. split.
    { cbn. symmetry. apply drop_ge. lia. }
    split; [done|]. cbn [length]. split; [nia|]. split; [lia|done].
Qed.


(** X5. For a chunk size of at least 1 [chunkArray] returns, and its
    chunks are the consecutive slices of the array: joined in order they
    give the array back, chunk [j] is the [size] elements from position
    [j * size] on, no chunk is empty or longer than [size], every chunk
    but the last is full, and there are [ceil(length / size)] of them. *)
Theorem chunkArray_partitions {A} (array : list A) (size : Z) fuel :
  (1 ≤ size)%Z → length array < fuel →
  ∃ chunks,
    chunkArray fuel array size = Some chunks
    ∧ concat chunks = array
    ∧ (∀ j chunk, chunks !! j = Some chunk →
         chunk = take (Z.to_nat size) (drop (j * Z.to_nat size) array)
         ∧ 1 ≤ length chunk ≤ Z.to_nat size
         ∧ (S j < length chunks → length chunk = Z.to_nat size))
    ∧ (Z.of_nat (length array) ≤ Z.of_nat (length chunks) * size
       < Z.of_nat (length array) + size)%Z.
Proof.
  intros Hsize Hfuel.
  assert (∃ n, size = Z.of_nat n ∧ 1 ≤ n) as (n & -> & Hn)
    by (exists (Z.to_nat size); lia).
  rewrite ?Nat2Z.id.
  destruct (chunkLoop_from array n Hn fuel 0 []) as (cs & Hrun & Hcat & Hchunk & Hlen & Hup & Hnil);
    [lia|].
  exists cs. split; [exact Hrun|]. split; [by rewrite Hcat|]. split.
  - intros j chunk Hj. pose proof (lookup_lt_Some _ _ _ Hj) as Hjlt.
    apply Hchunk in Hj as [-> Hj]. cbn [Nat.add] in *. split; [done|].
    rewrite length_take, length_drop. split; [lia|]. intros Hnext.
    destruct (decide (0 * n < length array)) as [Hpos|]; [|lia].
    specialize (Hup Hpos). nia.
  - cbn [Nat.add] in *. destruct (decide (0 * n < length array)) as [Hpos|Hzero].
    + specialize (Hup Hpos). nia.
    + rewrite Hnil by lia. cbn [length]. lia.
Qed.

Lemma chunkLoop_stuck {A} (array : list A) (size : Z) :
  (size ≤ 0)%Z → array ≠ [] →
  ∀ fuel i chunks, (i ≤ 0)%Z → chunkLoop fuel array size i chunks = None.
Proof.
  intros Hsize Hne fuel. induction fuel as [|fuel IH]; intros i chunks Hi; [done|].
  cbn [chunkLoop]. destruct array as [|a array]; [done|].
  destruct (Z.ltb_spec i (Z.of_nat (length (a :: array)))) as [_|Hge];
    [|cbn [length] in Hge; lia].
  apply IH. lia.
Qed.

(** X6. With a chunk size of zero or less [chunkArray] never returns on
    an array that is not empty: the index does not advance, so the loop
    is still running after any number of turns. On the empty array it
    returns no chunk at once, whatever the size. *)
Theorem chunkArray_needs_positive_size {A} (array : list A) (size : Z) :
  (size ≤ 0)%Z →
  (array ≠ [] → ∀ fuel, chunkArray fuel array size = None)
  ∧ chunkArray 1 (@nil A) size = Some [].
Proof.
  intros Hsize. split; [|done].
  intros Hne fuel. by apply chunkLoop_stuck.
Qed.






(** ** The object URLs of a manager *)

Lemma Tracks_newManager store0 : wellFormedStore store0 → Tracks store0 (newManager store0).
Proof.
  intros Hwf. unfold Tracks, newManager. cbn [store urls].
  split; [done|]. split; [done|]. split; [done|]. split; [done|]. split.
  { intros url Hge Hsome%Hwf. lia. }
  split; [done|]. rewrite map_size_empty. lia.
Qed.

Lemma Tracks_revokeURL store0 this key :
  Tracks store0 this → Tracks store0 (revokeURL key this).
Proof.
  intros (H1 & H2 & H3 & H4 & H5 & H6 & H7). unfold revokeURL.
  destruct (urls this !! key) as [url|] eqn:Hkey; [|done].
  destruct (H4 _ _ Hkey) as [Hge Hlive].
  unfold Tracks, wellFormedStore. cbn [store urls URL_revokeObjectURL issued entries].
  split; [done|]. split.
  { intros u [b [_ Hu]%lookup_delete_Some]. apply H2. by exists b. }
  split.
  { intros u Hu. rewrite lookup_delete_ne by lia. by apply H3. }
  split.
  { intros k u [Hk Hu]%lookup_delete_Some. destruct (H4 _ _ Hu) as [? ?].
    split; [done|]. rewrite lookup_delete_ne; [done|].
    intros <-. apply Hk. by apply (H6 _ _ url). }
  split.
  { intros u Hu [b [Hne Hb]%lookup_delete_Some].
    destruct (H5 u Hu) as [k Hk]; [by exists b|]. exists k.
    rewrite lookup_delete_ne; [done|]. intros <-. congruence. }
  split.
  { intros k1 k2 u [_ Hk1]%lookup_delete_Some [_ Hk2]%lookup_delete_Some.
    by apply (H6 _ _ u). }
  rewrite !map_size_delete_Some by (done || by exists url).
  pose proof (map_size_ne_0_lookup_2 (urls this) key ltac:(by exists url)). lia.
Qed.

Lemma Tracks_createURL store0 this blob key :
  Tracks store0 this → Tracks store0 (createURL blob key this).2.
Proof.
  intros Hthis. unfold createURL.
  set (this1 := if bool_decide (is_Some (urls this !! key)) then revokeURL key this
                else this).
  assert (Tracks store0 this1 ∧ urls this1 !! key = None) as [Hinv Hfree].
  { unfold this1. case_bool_decide as Hhas.
    - split; [by apply Tracks_revokeURL|]. unfold revokeURL.
      destruct Hhas as [url ->]. cbn [urls]. apply lookup_delete_eq.
    - split; [done|]. by apply eq_None_not_Some. }
  clearbody this1. destruct Hinv as (H1 & H2 & H3 & H4 & H5 & H6 & H7).
  cbv zeta. unfold URL_createObjectURL. cbn [snd].
  unfold Tracks, wellFormedStore. cbn [store urls issued entries].
  assert (entries (store this1) !! issued (store this1) = None) as Hfresh.
  { apply eq_None_not_Some. intros Hsome%H2. lia. }
  split; [lia|]. split.
  { intros u [Hu|Hu]%lookup_insert_is_Some; [lia|]. destruct Hu as [_ Hu%H2]. lia. }
  split.
  { intros u Hu. rewrite lookup_insert_ne by lia. by apply H3. }
  split.
  { intros k u [[<- <-]|[Hk Hu]]%lookup_insert_Some.
    - split; [done|]. by rewrite lookup_insert_eq.
    - destruct (H4 _ _ Hu) as [? Hlive]. split; [done|].
      rewrite lookup_insert_ne; [done|]. apply H2 in Hlive. lia. }
  split.
  { intros u Hu [Heq|[Hne Hlive]]%lookup_insert_is_Some.
    - exists key. by rewrite Heq, lookup_insert_eq.
    - destruct (H5 u Hu Hlive) as [k Hk]. exists k.
      rewrite lookup_insert_ne; [done|]. intros <-. congruence. }
  split.
  { intros k1 k2 u [[<- <-]|[Hk1 Hu1]]%lookup_insert_Some
                   [[<- Heq]|[Hk2 Hu2]]%lookup_insert_Some; try done.
    - destruct (H4 _ _ Hu2) as [_ Hlive%H2]. lia.
    - destruct (H4 _ _ Hu1) as [_ Hlive%H2]. lia.
    - by apply (H6 _ _ u). }
  rewrite !map_size_insert_None by done. lia.
Qed.

Lemma revokeAll_store (store1 : URLStore) (m : gmap jsstring nat) :
  let store' := map_fold (λ _ url store, URL_revokeObjectURL url store) store1 m in
  issued store' = issued store1
  ∧ (∀ key url, m !! key = Some url → entries store' !! url = None)
  ∧ (∀ url, (∀ key, m !! key ≠ Some url) → entries store' !! url = entries store1 !! url).
Proof.
  cbv zeta.
  apply (map_fold_weak_ind
           (λ store' m,
              issued store' = issued store1
              ∧ (∀ key url, m !! key = Some url → entries store' !! url = None)
              ∧ (∀ url, (∀ key, m !! key ≠ Some url) →
                        entries store' !! url = entries store1 !! url))).
  - split; [done|]. split; [|done]. intros key url Hkey. by rewrite lookup_empty in Hkey.
  - intros key url m' store' Hnew (Hiss & Hheld & Hfree).
    cbn [URL_revokeObjectURL issued entries]. split; [done|]. split.
    + intros k u [[<- <-]|[Hk Hu]]%lookup_insert_Some; [apply lookup_delete_eq|].
      destruct (decide (url = u)) as [->|Hne]; [apply lookup_delete_eq|].
      rewrite lookup_delete_ne by done. by apply (Hheld k).
    + intros u Hu. rewrite lookup_delete_ne.
      * apply Hfree. intros k Hk. apply (Hu k). rewrite lookup_insert_ne; [done|].
        intros <-. congruence.
      * intros <-. apply (Hu key). by rewrite lookup_insert_eq.
Qed.

Lemma revokeAll_restores store0 this :
  wellFormedStore store0 → Tracks store0 this →
  entries (store (revokeAll this)) = entries store0
  ∧ issued (store (revokeAll this)) = issued (store this).
Proof.
  intros Hwf (H1 & H2 & H3 & H4 & H5 & H6 & H7). unfold revokeAll. cbn [store].
  destruct (revokeAll_store (store this) (urls this)) as (Hiss & Hheld & Hfree).
  split; [|done]. apply map_eq. intros url.
  destruct (decide (url < issued store0)) as [Hold|Hnew].
  { rewrite Hfree; [by apply H3|]. intros key Hkey. destruct (H4 _ _ Hkey). lia. }
  assert (entries store0 !! url = None) as ->.
  { apply eq_None_not_Some. intros Hsome%Hwf. lia. }
  destruct (entries (store this) !! url) as [b|] eqn:Hb.
  - destruct (H5 url) as [key Hkey]; [lia|by exists b|]. by apply (Hheld key).
  - rewrite Hfree; [done|]. intros key Hkey. destruct (H4 _ _ Hkey) as [_ [? ?]].
    congruence.
Qed.

Lemma Tracks_revokeAll store0 this :
  wellFormedStore store0 → Tracks store0 this → Tracks store0 (revokeAll this).
Proof.
  intros Hwf Hthis. destruct (revokeAll_restores store0 this Hwf Hthis) as [Hent Hiss].
  destruct Hthis as (H1 & H2 & H3 & H4 & H5 & H6 & H7).
  unfold Tracks, wellFormedStore. rewrite Hent, Hiss. cbn [urls revokeAll].
  split; [done|]. split; [intros url Hu%Hwf; lia|]. split; [done|]. split; [done|].
  split; [intros url Hge Hu%Hwf; lia|]. split; [done|]. rewrite map_size_empty. lia.
Qed.

Lemma Tracks_calls store0 calls :
  wellFormedStore store0 → Tracks store0 (foldl call (newManager store0) calls).
Proof.
  intros Hwf. induction calls as [|c calls IH] using rev_ind.
  { by apply Tracks_newManager. }
  rewrite foldl_app. cbn [foldl]. destruct c as [blob key|key|]; cbn [call].
  - by apply Tracks_createURL.
  - by apply Tracks_revokeURL.
  - by apply Tracks_revokeAll.
Qed.

(** X8. Whatever calls a manager has served since it was created, the
    store holds the URLs it held before, with their blobs, and besides
    them exactly the URLs the manager has under its keys: each of these was
    minted by the manager, no two keys share one, and [getCount] is the
    number of URLs the manager has added to the store. *)
Theorem manager_tracks_its_urls store0 calls :
  wellFormedStore store0 →
  let this := foldl call (newManager store0) calls in
  (∀ url, is_Some (entries (store this) !! url)
          ↔ is_Some (entries store0 !! url) ∨ ∃ key, getURL key this = Some url)
  ∧ (∀ url, is_Some (entries store0 !! url) →
            entries (store this) !! url = entries store0 !! url)
  ∧ (∀ key url, getURL key this = Some url → issued store0 ≤ url)
  ∧ (∀ key1 key2 url, getURL key1 this = Some url → getURL key2 this = Some url →
                      key1 = key2)
  ∧ size (entries (store this)) = size (entries store0) + getCount this.
Proof.
  intros Hwf this.
  destruct (Tracks_calls store0 calls Hwf) as (H1 & H2 & H3 & H4 & H5 & H6 & H7).
  fold this in H1, H2, H3, H4, H5, H6, H7. unfold getURL, getCount.
  split; [|split; [|split; [|split]]].
  - intros url. split.
    + intros Hlive. destruct (decide (url < issued store0)) as [Hold|Hnew].
      * left. by rewrite <-H3.
      * right. apply H5; [lia|done].
    + intros [Hold|[key Hkey]].
      * rewrite H3; [done|]. by apply Hwf.
      * by destruct (H4 _ _ Hkey).
  - intros url Hold%Hwf. by apply H3.
  - intros key url Hkey. by destruct (H4 _ _ Hkey).
  - exact H6.
  - exact H7.
Qed.

(** X9. [revokeAll] gives back everything the manager has taken: after
    any calls, it leaves the store with the entries it had before the
    manager was created, and the manager with no key. *)
Theorem revokeAll_releases_everything store0 calls :
  wellFormedStore store0 →
  let this := revokeAll (foldl call (newManager store0) calls) in
  entries (store this) = entries store0
  ∧ getCount this = 0
  ∧ ∀ key, getURL key this = None.
Proof.
  intros Hwf this.
  destruct (revokeAll_restores store0 _ Hwf (Tracks_calls store0 calls Hwf)) as [Hent _].
  split; [exact Hent|]. split; [apply map_size_empty|]. intros key. apply lookup_empty.
Qed.

(** X10. [createURL] on a manager that has served any calls: the URL
    returned is new to the store, resolves to the blob and is what
    [getURL] gives for the key from then on; the URL the key had before,
    if any, is revoked; the other keys and the other entries of the store
    stay as they were; the count grows by one only when the key was new. *)
Theorem createURL_replaces store0 calls blob key :
  wellFormedStore store0 →
  let this := foldl call (newManager store0) calls in
  let url := (createURL blob key this).1 in
  let this' := (createURL blob key this).2 in
  getURL key this' = Some url
  ∧ entries (store this') !! url = Some blob
  ∧ entries (store this) !! url = None
  ∧ (∀ old, getURL key this = Some old → entries (store this') !! old = None)
  ∧ (∀ key', key' ≠ key → getURL key' this' = getURL key' this)
  ∧ (∀ u, u ≠ url → getURL key this ≠ Some u →
          entries (store this') !! u = entries (store this) !! u)
  ∧ getCount this'
    = if bool_decide (is_Some (getURL key this)) then getCount this
      else S (getCount this).
Proof.
  intros Hwf this.
  destruct (Tracks_calls store0 calls Hwf) as (H1 & H2 & H3 & H4 & H5 & H6 & H7).
  fold this in H1, H2, H3, H4, H5, H6, H7. clearbody this. cbv zeta.
  assert (entries (store this) !! issued (store this) = None) as Hfresh.
  { apply eq_None_not_Some. intros Hsome%H2. lia. }
  unfold createURL, getURL, getCount.
  destruct (urls this !! key) as [old|] eqn:Hkey.
  - rewrite bool_decide_true by done. unfold revokeURL. rewrite Hkey.
    cbn [store urls URL_createObjectURL URL_revokeObjectURL issued entries fst snd].
    destruct (H4 _ _ Hkey) as [_ Hold%H2].
    split; [apply lookup_insert_eq|]. split; [apply lookup_insert_eq|].
    split; [done|]. split.
    { intros ? [= <-]. rewrite lookup_insert_ne by lia. apply lookup_delete_eq. }
    split.
    { intros key' Hne. by rewrite lookup_insert_ne, lookup_delete_ne. }
    split.
    { intros u Hu Hu'. rewrite lookup_insert_ne by done.
      rewrite lookup_delete_ne; [done|]. intros <-. done. }
    rewrite map_size_insert_None by apply lookup_delete_eq.
    rewrite map_size_delete_Some by done.
    pose proof (map_size_ne_0_lookup_2 (urls this) key ltac:(done)). lia.
  - rewrite bool_decide_false by (by intros [? ?]).
    cbn [store urls URL_createObjectURL issued entries fst snd].
    split; [apply lookup_insert_eq|]. split; [apply lookup_insert_eq|].
    split; [done|]. split; [done|]. split.
    { intros key' Hne. by rewrite lookup_insert_ne. }
    split.
    { intros u Hu _. by rewrite lookup_insert_ne. }
    by rewrite map_size_insert_None.
Qed.

(** ** File categories and MIME types *)

Lemma Array_includes_elem_of s l : Array_includes s l = true ↔ s ∈ l.
Proof.
  unfold Array_includes. induction l as [|t l IH]; cbn [existsb].
  { split; [done|]. by intros ?%elem_of_nil. }
  rewrite orb_true_iff, bool_decide_eq_true, IH, elem_of_cons. done.
Qed.

Lemma typeMapLoop_found entries extension type :
  typeMapLoop entries extension = type → type ≠ lit "unknown" →
  ∃ extensions, (type, extensions) ∈ entries ∧ extension ∈ extensions.
Proof.
  intros Hloop Hne.
  induction entries as [|[t exts] entries IH]; cbn [typeMapLoop] in Hloop.
  { by destruct Hne. }
  destruct (Array_includes extension exts) eqn:Hinc.
  - exists exts. subst t. split; [by left|]. by apply Array_includes_elem_of.
  - destruct (IH Hloop) as (extensions & Hin & Hext).
    exists extensions. split; [by right|done].
Qed.

Lemma ownProperty_elem_of {V} (o : list (jsstring * V)) key v :
  ownProperty o key = Some v → (key, v) ∈ o.
Proof.
  induction o as [|[k w] o IH]; cbn [ownProperty]; [done|].
  case_bool_decide as Hk.
  - intros [= ->]. subst k. by left.
  - intros Hv. right. by apply IH.
Qed.

(** An entry of [typeMap] singled out by its category. *)
Ltac typeMap_entry Hin :=
  unfold typeMap in Hin;
  repeat (apply elem_of_cons in Hin as [Hin|Hin];
          [first [ exfalso; apply (f_equal fst) in Hin; vm_compute in Hin; discriminate Hin
                 | apply (f_equal snd) in Hin; cbn [snd] in Hin; subst ]|]);
  try (by apply elem_of_nil in Hin).

(** A string known to be one of a list of literals. *)
Ltac literal_cases H :=
  cbn [fmap list_fmap] in H;
  repeat (apply elem_of_cons in H as [->|H]); [..|by apply elem_of_nil in H].

Lemma mimeTypes_categorised extension mime :
  ownProperty mimeTypes extension = Some mime →
  typeMapLoop typeMap extension ≠ lit "unknown"
  ∧ ¬ extension ∈ objectPrototypeNames.
Proof.
  intros Hin%ownProperty_elem_of. unfold mimeTypes in Hin.
  repeat (apply elem_of_cons in Hin as [Hin|Hin];
          [apply (f_equal fst) in Hin; cbn [fst] in Hin; subst extension;
           split; [by vm_compute|compute_done]|]).
  by apply elem_of_nil in Hin.
Qed.

Lemma fileTypeDetector_getFileType_range filename :
  fileTypeDetector_getFileType filename ∈ lit <$> ["image"; "video"; "audio"; "document"]
  ∨ fileTypeDetector_getFileType filename ∈ lit <$> ["archive"; "code"; "unknown"].
Proof.
  unfold fileTypeDetector_getFileType. destruct filename as [|c filename].
  { right. compute_done. }
  generalize (extensionOf (c :: filename)). intros extension.
  unfold typeMap. cbn [typeMapLoop].
  repeat match goal with
         | |- context [Array_includes extension ?l] => destruct (Array_includes extension l)
         end; first [left; compute_done | right; compute_done].
Qed.

(** X11. The MIME type goes with the category: a file whose category is
    image, video or audio has a MIME type of that top-level type (so has
    every file that can be previewed); a document or an archive has an
    application type or text/plain; code and unknown files have
    application/octet-stream. A file can be previewed exactly when it is
    an image, a video or an audio file, and gets the generic component
    exactly when it is an archive, code or unknown. The exception is an
    extension that names a member of Object.prototype, such as
    [constructor]: for it [getMimeType] returns that member, which is no
    string. *)
Theorem mime_type_follows_category filename :
  let type := fileTypeDetector_getFileType filename in
  (∀ top, top ∈ lit <$> ["image"; "video"; "audio"] → type = top →
          ∃ sub, getMimeType filename = MimeType (top ++ lit "/" ++ sub))
  ∧ (type = lit "document" ∨ type = lit "archive" →
     (∃ sub, getMimeType filename = MimeType (lit "application/" ++ sub))
     ∨ getMimeType filename = MimeType (lit "text/plain"))
  ∧ (canPreview filename = true ↔ type ∈ lit <$> ["image"; "video"; "audio"])
  ∧ canPreview filename = isImage filename || isVideo filename || isAudio filename
  ∧ (getComponentType filename = lit "GenericAttachment"
     ↔ type ∈ lit <$> ["archive"; "code"; "unknown"])
  ∧ (extensionOf filename ∈ objectPrototypeNames →
     type = lit "unknown"
     ∧ getMimeType filename = PrototypeMember (extensionOf filename))
  ∧ (type = lit "code" ∨ type = lit "unknown" →
     extensionOf filename ∉ objectPrototypeNames →
     getMimeType filename = MimeType (lit "application/octet-stream")).
Proof.
  cbv zeta. split; [|split; [|split; [|split; [|split; [|split]]]]].
  - intros top Htop Htype. unfold fileTypeDetector_getFileType, getMimeType in *.
    destruct filename as [|c filename].
    { subst top. exfalso. revert Htop. clear. compute_done. }
    revert Htype. generalize (extensionOf (c :: filename)). intros extension Htype.
    apply typeMapLoop_found in Htype as (exts & Hin & Hext);
      [|intros ->; revert Htop; clear; compute_done].
    literal_cases Htop; typeMap_entry Hin; literal_cases Hext;
      vm_compute; eexists; reflexivity.
  - unfold fileTypeDetector_getFileType, getMimeType.
    destruct filename as [|c filename]; [by intros [?|?]|].
    generalize (extensionOf (c :: filename)). intros extension.
    intros [Htype|Htype];
      (apply typeMapLoop_found in Htype as (exts & Hin & Hext); [|done]);
      typeMap_entry Hin; literal_cases Hext; vm_compute;
      first [right; reflexivity | left; eexists; reflexivity].
  - unfold canPreview. cbv zeta. apply Array_includes_elem_of.
  - unfold canPreview, isImage, isVideo, isAudio, Array_includes. cbv zeta.
    cbn [existsb fmap list_fmap]. by rewrite orb_false_r, orb_assoc.
  - unfold getComponentType. cbv zeta.
    destruct (fileTypeDetector_getFileType_range filename) as [Htype|Htype];
      literal_cases Htype; compute_done.
  - unfold fileTypeDetector_getFileType, getMimeType.
    destruct filename as [|c filename].
    { intros Hext. exfalso. revert Hext. change (extensionOf []) with (@nil N).
      clear. compute_done. }
    generalize (extensionOf (c :: filename)). intros extension Hext.
    unfold objectPrototypeNames in Hext. literal_cases Hext; by vm_compute.
  - intros Htype Hproto. unfold getMimeType. cbv zeta.
    destruct (ownProperty mimeTypes (extensionOf filename)) as [mime|] eqn:Hown.
    + exfalso. destruct (mimeTypes_categorised _ _ Hown) as [Hknown _].
      unfold fileTypeDetector_getFileType in Htype.
      destruct filename as [|c filename].
      { revert Hown. change (extensionOf []) with (@nil N). by vm_compute. }
      destruct Htype as [Htype|Htype]; [|done].
      apply typeMapLoop_found in Htype as (exts & Hin & Hext); [|done].
      typeMap_entry Hin. revert Hown. generalize (extensionOf (c :: filename)) Hext.
      clear. intros extension Hext. literal_cases Hext; by vm_compute.
    + destruct (Array_includes (extensionOf filename) objectPrototypeNames) eqn:Hinc;
        [|done].
      by apply Array_includes_elem_of in Hinc.
Qed.

(** X12. The chat parser's own [getFileType] and the one of the file
    type detector agree wherever the chat parser gives a category: an
    attachment it calls image, video, audio or document gets the same
    category from the detector. The detector knows more extensions, so
    what it calls unknown the chat parser calls unknown too. *)
Theorem getFileType_agrees filename :
  (getFileType filename ≠ unknown →
   fileTypeDetector_getFileType filename = typeName (getFileType filename))
  ∧ (fileTypeDetector_getFileType filename = lit "unknown" →
     getFileType filename = unknown).
Proof.
  assert (getFileType filename ≠ unknown →
          fileTypeDetector_getFileType filename = typeName (getFileType filename)) as Hagree.
  { unfold getFileType, fileTypeDetector_getFileType.
    destruct filename as [|c filename].
    { change (extensionOf []) with (@nil N). by vm_compute. }
    generalize (extensionOf (c :: filename)). intros extension. unfold typeOfExtension.
    destruct (Array_includes extension imageTypes) eqn:H1.
    { intros _. apply Array_includes_elem_of in H1. unfold imageTypes in H1.
      literal_cases H1; by vm_compute. }
    destruct (Array_includes extension videoTypes) eqn:H2.
    { intros _. apply Array_includes_elem_of in H2. unfold videoTypes in H2.
      literal_cases H2; by vm_compute. }
    destruct (Array_includes extension audioTypes) eqn:H3.
    { intros _. apply Array_includes_elem_of in H3. unfold audioTypes in H3.
      literal_cases H3; by vm_compute. }
    destruct (Array_includes extension documentTypes) eqn:H4; [|done].
    intros _. apply Array_includes_elem_of in H4. unfold documentTypes in H4.
    literal_cases H4; by vm_compute. }
  split; [done|]. intros Hunknown.
  rewrite Hunknown in Hagree.
  destruct (getFileType filename); [..|done];
    specialize (Hagree ltac:(done)); by vm_compute in Hagree.
Qed.

(** ** The two shapes of a message *)

Lemma newMessage_shape files index hm :
  let m := newMessage files index hm in
  (kind m = message_ ∧ systemType m = None
   ∧ sender m ≠ [] ∧ (58%N ∉ sender m) ∧ Str.trim (sender m) = sender m
   ∧ Str.trim (message m) = message m
   ∧ ∀ a, attachment m = Some a →
          files !! filename a = Some (blob a) ∧ type a = getFileType (filename a))
  ∨ (kind m = system_ ∧ sender m = lit "System" ∧ attachment m = None
     ∧ systemType m = Some (getSystemMessageType (message m))
     ∧ Str.trim (message m) = message m).
Proof.
  cbv zeta. unfold newMessage.
  destruct (Str.indexOf (lit ":") (Str.trim (group 3 hm))) as [[|n]|] eqn:Hcolon;
    [right|left|right]; cbn [kind systemType sender message attachment];
    try by rewrite trim_idempotent.
  split; [done|]. split; [done|].
  apply (indexOf_unit_Some 58) in Hcolon as [Hnot Hat].
  destruct (trim_spec (group 3 hm)) as (_ & _ & _ & _ & Hhead & _).
  destruct (Str.trim (group 3 hm)) as [|c content] eqn:Hcontent; [done|].
  unfold Str.substring. rewrite Nat.sub_0_r, drop_0. split.
  { cbn [take]. by apply trim_nonempty. }
  split.
  { by intros Hin%trim_elem_of. }
  split; [apply trim_idempotent|]. split.
  { destruct (extractAttachment _ files); apply trim_idempotent. }
  intros a Ha%extractAttachment_Some. by destruct Ha.
Qed.

(** X13. Every message [parseChat] returns has one of two shapes. An
    authored message has no system type, and its sender is not empty,
    holds no colon and no white space at either end; an attachment, when
    there is one, names a file of the table and carries that file's blob
    and the category of its name. A system message has the sender
    [System], no attachment and a system type. *)
Theorem parseChat_message_shapes chatContent files :
  Forall (λ m,
    (kind m = message_ ∧ systemType m = None
     ∧ sender m ≠ [] ∧ (58%N ∉ sender m) ∧ Str.trim (sender m) = sender m
     ∧ ∀ a, attachment m = Some a →
            files !! filename a = Some (blob a) ∧ type a = getFileType (filename a))
    ∨ (kind m = system_ ∧ sender m = lit "System" ∧ attachment m = None
       ∧ is_Some (systemType m)))
    (parseChat chatContent files).
Proof.
  rewrite parseChat_blocks. apply Forall_fmap, Forall_forall.
  intros [[index hm] conts] _. unfold compose, messageOfBlock. cbn [fst snd].
  destruct (appendLines_fields (newMessage files index hm) conts)
    as (_ & _ & _ & -> & -> & _ & -> & -> & _).
  destruct (newMessage_shape files index hm)
    as [(-> & -> & ? & ? & ? & _ & ?)|(-> & -> & -> & -> & _)]; [left|right]; done.
Qed.

(** ** The text around the messages *)

Lemma splitAux_cur sep s : ∀ cur,
  Str.splitAux sep cur s
  = match Str.splitAux sep [] s with
    | first :: others => (reverse cur ++ first) :: others
    | [] => []
    end.
Proof.
  induction s as [|c s IH]; intros cur; cbn [Str.splitAux].
  { by rewrite app_nil_r. }
  destruct (c =? sep)%N.
  - by rewrite app_nil_r.
  - rewrite (IH (c :: cur)), (IH [c]). destruct (Str.splitAux sep [] s); [done|].
    by rewrite reverse_cons, <-(assoc (++)).
Qed.

Lemma linesOf_BOM chatContent : linesOf (0xFEFF%N :: chatContent) = linesOf chatContent.
Proof.
  unfold linesOf. cbn [stripBOM]. rewrite N.eqb_refl.
  destruct chatContent as [|c rest]; [done|]. cbn [stripBOM].
  destruct (N.eqb_spec c 0xFEFF) as [->|_]; [|done].
  unfold Str.split. cbn [Str.splitAux]. change (65279 =? 10)%N with false. cbv iota.
  rewrite splitAux_cur. destruct (Str.splitAux 10 [] rest) as [|first others]; [done|].
  rewrite !fmap_cons. by f_equal.
Qed.

(** X14. A byte order mark in front of the text changes nothing, whether
    the text it is put before starts with another one or not: the lines
    are trimmed, and the mark counts as white space. *)
Theorem parseChat_ignores_BOM chatContent files :
  parseChat (0xFEFF%N :: chatContent) files = parseChat chatContent files.
Proof. by rewrite !parseChat_blocks, linesOf_BOM. Qed.

(** X15. What stands before the first header line is dropped: two texts
    that differ only there, in as many lines, yield the same messages; and
    a text without any header line yields none. *)
Theorem text_before_first_header_dropped chatContent chatContent' files pre pre' rest :
  linesOf chatContent = pre ++ rest →
  linesOf chatContent' = pre' ++ rest →
  length pre = length pre' →
  Forall (λ l, String_match dateTimeRegex l = None) (pre ++ pre') →
  parseChat chatContent files = parseChat chatContent' files
  ∧ (rest = [] → parseChat chatContent files = []).
Proof.
  intros Hl Hl' Hlen [Hpre Hpre']%Forall_app.
  rewrite !parseChat_blocks, Hl, Hl', !blocks_skip, Hlen by done.
  split; [done|]. by intros ->.
Qed.

(** ** System messages *)

Lemma startsWith_app p q s : Str.startsWith (p ++ q) s = true → Str.startsWith p s = true.
Proof.
  revert s. induction p as [|a p IH]; intros s; [done|].
  destruct s as [|b s]; cbn; [done|]. intros [-> H]%andb_prop. by rewrite (IH s).
Qed.

Lemma includes_prefix p q s : Str.includes (p ++ q) s = true → Str.includes p s = true.
Proof.
  unfold Str.includes. rewrite !bool_decide_eq_true.
  induction s as [|c s IH]; cbn [Str.indexOf].
  - destruct (Str.startsWith (p ++ q) []) eqn:E; [|by intros [? ?]].
    by rewrite (startsWith_app _ _ _ E).
  - destruct (Str.startsWith (p ++ q) (c :: s)) eqn:E.
    { by rewrite (startsWith_app _ _ _ E). }
    intros Hq. destruct (Str.startsWith p (c :: s)); [done|].
    destruct (Str.indexOf (p ++ q) s); [|by destruct Hq].
    destruct IH as [i ->]; done.
Qed.

Lemma toLowerCase_ascii s :
  forallb Char.isAscii s = true → toLowerCase s = Char.asciiLower <$> s.
Proof. unfold toLowerCase. by intros ->. Qed.

Lemma asciiLower_Upper c : Char.asciiLower (Char.asciiUpper c) = Char.asciiLower c.
Proof.
  unfold Char.asciiLower, Char.asciiUpper.
  destruct (N.leb_spec 97 c), (N.leb_spec c 122); cbn [andb];
    repeat match goal with
           | |- context [(?a <=? ?b)%N] => destruct (N.leb_spec a b)
           end; cbn [andb]; lia.
Qed.

Lemma asciiUpper_isAscii s :
  forallb Char.isAscii s = true → forallb Char.isAscii (Char.asciiUpper <$> s) = true.
Proof.
  induction s as [|c s IH]; [done|]. cbn. intros [Hc Hs]%andb_prop.
  rewrite (asciiUpper_ascii _ Hc). by apply IH.
Qed.

(** X16. A system message is classified as [joined] exactly when its
    lower-cased text contains [joined] or [added]: the test for the longer
    invite-link phrase adds nothing, and these two words win over every
    other keyword. The classification of an ASCII text does not depend on
    its casing. *)
Theorem system_type_joined message :
  (getSystemMessageType message = joined
   ↔ Str.includes (lit "joined") (toLowerCase message) = true
     ∨ Str.includes (lit "added") (toLowerCase message) = true)
  ∧ (forallb Char.isAscii message = true →
     getSystemMessageType (Char.asciiUpper <$> message) = getSystemMessageType message).
Proof.
  split.
  - unfold getSystemMessageType. cbv zeta.
    pose proof (includes_prefix (lit "joined") (lit " using this group's invite link")
                  (toLowerCase message)) as Hlong.
    change (lit "joined" ++ lit " using this group's invite link")
      with (lit "joined using this group's invite link") in Hlong.
    destruct (Str.includes (lit "joined using this group's invite link") _) eqn:E0.
    { rewrite Hlong by done. split; [by left|done]. }
    destruct (Str.includes (lit "joined") _) eqn:E1; [split; [by left|done]|].
    destruct (Str.includes (lit "added") _) eqn:E2; [split; [by right|done]|].
    cbn [orb]. split; [|by intros [?|?]].
    repeat match goal with
           | |- context [if ?b then _ else _] => destruct b
           end; done.
  - intros Hascii. unfold getSystemMessageType.
    rewrite (toLowerCase_ascii _ Hascii), (toLowerCase_ascii _ (asciiUpper_isAscii _ Hascii)).
    rewrite <-list_fmap_compose.
    by rewrite (list_fmap_ext (Char.asciiLower ∘ Char.asciiUpper) Char.asciiLower message)
      by (intros; apply asciiLower_Upper).
Qed.

(** ** Polls as they are returned *)





(** ** The chat file of an archive *)

Lemma findChatFile_from (files : list (jsstring * Blob)) :
  match filter (λ filename, isChatFileName filename = true) files.*1 with
  | [] => Forall (λ entry, isChatFileName entry.1 = false) files
  | chatFileName :: _ =>
      ∃ before file after,
        files = before ++ (chatFileName, file) :: after
        ∧ Forall (λ entry, isChatFileName entry.1 = false) before
        ∧ isChatFileName chatFileName = true
        ∧ Map_get files chatFileName = Some file
  end.
Proof.
  induction files as [|[filename file] files IH]; [constructor|].
  rewrite fmap_cons, filter_cons. cbn [fst].
  destruct (decide (isChatFileName filename = true)) as [Hchat|Hother].
  - exists [], file, files. split; [done|]. split; [constructor|]. split; [done|].
    unfold Map_get. cbn [ownProperty]. by rewrite bool_decide_true.
  - apply not_true_is_false in Hother.
    destruct (filter _ files.*1) as [|chatFileName chatFiles].
    + by constructor.
    + destruct IH as (before & file' & after & -> & Hbefore & Hchat & Hget).
      exists ((filename, file) :: before), file', after.
      split; [done|]. split; [by constructor|]. split; [done|].
      unfold Map_get in *. cbn [ownProperty]. rewrite bool_decide_false; [done|].
      intros ->. congruence.
Qed.

(** X18. [findChatFile] picks the first entry of the file map, in
    insertion order, whose lower-cased name ends in [.txt] and contains
    [chat] or [whatsapp], and hands out that entry's own blob, which is what
    [getFile] gives for the name; it returns null exactly when no entry has
    such a name. *)
Theorem findChatFile_first (files : list (jsstring * Blob)) :
  (findChatFile files = None ↔ Forall (λ entry, isChatFileName entry.1 = false) files)
  ∧ (∀ chatFileName chatBlob,
       findChatFile files = Some (chatFileName, chatBlob) →
       ∃ before file after,
         files = before ++ (chatFileName, file) :: after
         ∧ Forall (λ entry, isChatFileName entry.1 = false) before
         ∧ isChatFileName chatFileName = true
         ∧ chatBlob = Some file
         ∧ getFile files chatFileName = Some file).
Proof.
  pose proof (findChatFile_from files) as Hfrom. unfold findChatFile, getFile. cbv zeta.
  destruct (filter _ files.*1) as [|chatFileName chatFiles] eqn:Hfilter.
  - split; [done|]. intros ? ? [=].
  - destruct Hfrom as (before & file & after & Hfiles & Hbefore & Hchat & Hget).
    split.
    + split; [done|]. intros Hnone. exfalso.
      rewrite Hfiles in Hnone. apply Forall_app in Hnone as [_ Hnone].
      apply Forall_cons in Hnone as [Hnone _]. cbn in Hnone. congruence.
    + intros ? ? [= <- <-]. exists before, file, after. by rewrite Hget.
Qed.

(** ** Replacing all matches *)

Lemma iter_suffix icase len r gs n : ∀ x c y c',
  iter (Sem icase len r) gs n x c y c' → ∃ w, x = w ++ y.
Proof.
  induction n as [|n IH]; intros x c y c' Hiter; inversion Hiter; subst.
  - by exists [].
  - match goal with
    | H : Sem _ _ _ _ _ _ _, H' : iter _ _ _ _ _ _ _ |- _ =>
        apply Sem_prefix in H as [w1 ->]; apply IH in H' as [w2 ->]
    end.
    exists (w1 ++ w2). by rewrite <-(assoc (++)).
Qed.

Lemma Sem_requires units len r :
  requires units r = true →
  ∀ x c y c', Sem false len r x c y c' →
              ∃ w a, x = w ++ y ∧ a ∈ units ∧ a ∈ w.
Proof.
  induction r as [|cl|r1 IH1 r2 IH2|r1 IH1 r2 IH2|min max greedy r IH|i r IH|r IH| |];
    cbn [requires]; intros Hreq x c y c' Hsem; try done.
  - destruct cl as [a| | | | |]; try done. apply bool_decide_eq_true in Hreq.
    destruct Hsem as (ch & -> & Hch & _). cbn in Hch. apply N.eqb_eq in Hch as <-.
    exists [a], a. split; [done|]. split; [done|]. by left.
  - destruct Hsem as (z & c1 & H1 & H2). apply orb_prop in Hreq as [Hreq|Hreq].
    + destruct (IH1 Hreq _ _ _ _ H1) as (w & a & -> & Ha & Hw).
      apply Sem_prefix in H2 as [w2 ->]. exists (w ++ w2), a.
      split; [by rewrite <-(assoc (++))|]. split; [done|].
      apply elem_of_app. by left.
    + destruct (IH2 Hreq _ _ _ _ H2) as (w & a & -> & Ha & Hw).
      apply Sem_prefix in H1 as [w1 ->]. exists (w1 ++ w), a.
      split; [by rewrite <-(assoc (++))|]. split; [done|].
      apply elem_of_app. by right.
  - apply andb_prop in Hreq as [Hreq1 Hreq2].
    destruct Hsem as [Hsem|Hsem]; [by apply (IH1 Hreq1 _ c _ c')|by apply (IH2 Hreq2 _ c _ c')].
  - apply andb_prop in Hreq as [Hmin%bool_decide_eq_true Hreq].
    destruct Hsem as (n & Hn & _ & Hiter). destruct n as [|n]; [lia|].
    inversion Hiter as [|? ? ? z c1 ? ? Hfirst Hrest]; subst.
    destruct (IH Hreq _ _ _ _ Hfirst) as (w & a & -> & Ha & Hw).
    apply iter_suffix in Hrest as [w2 ->]. exists (w ++ w2), a.
    split; [by rewrite <-(assoc (++))|]. split; [done|]. apply elem_of_app. by left.
  - destruct Hsem as (c1 & Hsem & _). by apply (IH Hreq _ c _ c1).
  - by apply (IH Hreq _ c _ c').
Qed.

(** A pattern finds nothing in a text that holds none of the units it
    requires. *)
Lemma execFrom_requires units r len i x :
  wellFormed r = true → requires units r = true →
  (∀ a, a ∈ units → a ∉ x) →
  execFrom false r len i x = Failure.
Proof.
  intros Hwf Hreq Hx. destruct (execFrom false r len i x) as [m| |] eqn:E; [|done|].
  - exfalso. apply execFrom_Matched in E as (j & y & _ & _ & Hsem & _); [|done].
    destruct (Sem_requires _ _ _ Hreq _ _ _ _ Hsem) as (w & a & Hw & Ha & Hin).
    apply (Hx a Ha). rewrite <-(take_drop j x), Hw, !elem_of_app. right. by left.
  - by apply execFrom_answers in E.
Qed.

Lemma String_replaceAll_without units re replaceValue s :
  ignoreCase re = false → wellFormed (pattern re) = true →
  requires units (pattern re) = true →
  (∀ a, a ∈ units → a ∉ s) →
  String_replaceAll re replaceValue s = s.
Proof.
  intros Hcase Hwf Hreq Hs. unfold String_replaceAll. cbn [replaceFrom].
  by rewrite Hcase, (execFrom_requires units).
Qed.

Lemma String_replaceTemplate_without units re template s :
  ignoreCase re = false → wellFormed (pattern re) = true →
  requires units (pattern re) = true →
  (∀ a, a ∈ units → a ∉ s) →
  String_replaceTemplate re template s = s.
Proof. apply String_replaceAll_without. Qed.

Lemma replaceFrom_Failure fuel re len replaceValue i x :
  execFrom (ignoreCase re) (pattern re) len i x = Failure →
  replaceFrom fuel re len replaceValue i x = x.
Proof. intros E. destruct fuel; [done|]. cbn [replaceFrom]. by rewrite E. Qed.

(** The number of turns [String_replaceAll] allows is enough: more turns
    give the same result. *)
Lemma replaceFrom_fuel re len replaceValue :
  wellFormed (pattern re) = true →
  ∀ n x i fuel1 fuel2,
    length x ≤ n → n < fuel1 → n < fuel2 →
    replaceFrom fuel1 re len replaceValue i x = replaceFrom fuel2 re len replaceValue i x.
Proof.
  intros Hwf n. induction n as [|n IH]; intros x i fuel1 fuel2 Hx H1 H2;
    (destruct fuel1 as [|fuel1]; [lia|]); (destruct fuel2 as [|fuel2]; [lia|]);
    cbn [replaceFrom];
    (destruct (execFrom (ignoreCase re) (pattern re) len i x) as [m| |] eqn:E; [|done|done]);
    apply execFrom_Matched in E as (j & y & Hj & Hidx & Hsem & Hm); [|done| |done];
    apply Sem_prefix in Hsem as [w Hw];
    (assert (length (matched m) ≤ length x - j) as Hlen
       by (rewrite Hm, length_take, length_drop; lia));
    cbv zeta; do 2 f_equal.
  - destruct x; [|cbn in Hx; lia]. cbn in Hlen.
    destruct (matched m); [|cbn in Hlen; lia]. by rewrite drop_nil.
  - destruct (matched m) as [|c' mt] eqn:Hmt.
    + destruct (drop (index m - i + length (@nil N)) x) as [|c rest] eqn:Hrest; [done|].
      f_equal.
      apply IH; [|lia|lia].
      apply (f_equal length) in Hrest. rewrite length_drop in Hrest. cbn in Hrest. lia.
    + apply IH; [|lia|lia]. rewrite length_drop. cbn [length] in *. lia.
Qed.

Lemma execFrom_skip icase r len pre : ∀ i x,
  Forall (λ ch, ∀ y, matcher icase len r (ch :: y) ∅ (λ y c, Matched (y, c)) = Failure) pre →
  execFrom icase r len i (pre ++ x) = execFrom icase r len (i + length pre) x.
Proof.
  induction pre as [|ch pre IH]; intros i x Hpre.
  { cbn [app length]. by rewrite Nat.add_0_r. }
  apply Forall_cons in Hpre as [Hch Hpre]. cbn [app execFrom]. rewrite Hch, IH by done.
  cbn [length]. f_equal. lia.
Qed.

(** *** Line feeds *)

Lemma lineBreak_id x : (10%N ∉ x) → x ≫= lineBreak = x.
Proof.
  induction x as [|c x IH]; [done|]. intros [Hc Hx]%not_elem_of_cons.
  rewrite bind_cons, IH by done. unfold lineBreak.
  by destruct (N.eqb_spec c 10) as [->|_].
Qed.

Lemma lineFeed_replaceFrom len replaceValue :
  (∀ m, replaceValue m = lit "<br>") →
  ∀ fuel x i, length x < fuel →
              replaceFrom fuel lineFeedRegex len replaceValue i x = x ≫= lineBreak.
Proof.
  intros Hvalue fuel. induction fuel as [|fuel IH]; intros x i Hfuel; [lia|].
  destruct (decide (10%N ∈ x)) as [Hin|Hout].
  - apply list_elem_of_split_l in Hin as (pre & rest & -> & Hpre).
    cbn [replaceFrom]. change (pattern lineFeedRegex) with (Chr (Lit 10)).
    change (ignoreCase lineFeedRegex) with false.
    rewrite execFrom_skip.
    2:{ apply Forall_forall. intros ch Hch y. rewrite matcher_Chr_cons.
        unfold cmatch, ceq. destruct (N.eqb_spec 10 ch) as [<-|_]; done. }
    rewrite (execFrom_first _ _ _ _ _ rest ∅) by done.
    cbn [index matched length]. rewrite Hvalue.
    replace (S (length rest) - length rest) with 1 by lia.
    replace (i + length pre - i) with (length pre) by lia.
    change (take 1 (10%N :: rest)) with [10%N]. cbn [length].
    rewrite take_app_length.
    replace (drop (length pre + 1) (pre ++ 10%N :: rest)) with rest
      by (rewrite drop_app_ge by lia;
          by replace (length pre + 1 - length pre) with 1 by lia).
    rewrite IH by (rewrite length_app in Hfuel; cbn in Hfuel; lia).
    by rewrite bind_app, bind_cons, (lineBreak_id pre) by done.
  - rewrite replaceFrom_Failure; [by rewrite lineBreak_id|].
    apply (execFrom_requires [10%N]); [done|done|].
    by intros a ->%list_elem_of_singleton.
Qed.

Lemma String_replace_lineFeed s :
  String_replaceTemplate lineFeedRegex "<br>" s = s ≫= lineBreak.
Proof.
  unfold String_replaceTemplate, String_replaceAll.
  apply lineFeed_replaceFrom; [done|lia].
Qed.

(** X19. The text [formatMessageText] returns holds no line feed,
    whatever the input: its last step turns every line feed into [<br>]. *)
Theorem formatMessageText_no_line_feed text : 10%N ∉ formatMessageText text.
Proof.
  unfold formatMessageText. destruct text as [|c text]; [apply not_elem_of_nil|].
  cbv zeta. rewrite String_replace_lineFeed. intros Hin.
  apply list_elem_of_bind in Hin as (ch & Hin & _).
  unfold lineBreak in Hin. destruct (N.eqb_spec ch 10) as [Heq|Hne].
  - revert Hin. clear. compute_done.
  - apply list_elem_of_singleton in Hin. congruence.
Qed.

(** X20. A text that holds none of the units [*], [_], [~], the
    backquote, the dot and the colon comes out as it went in, save for its
    line feeds, each of which is turned into [<br>]: no other unit is
    changed, so the markup characters of HTML are not escaped. *)
Theorem formatMessageText_plain text :
  (∀ a, a ∈ lit "*_~`.:" → a ∉ text) →
  formatMessageText text = text ≫= lineBreak
  ∧ ((10%N ∉ text) → formatMessageText text = text).
Proof.
  intros Hplain.
  assert (formatMessageText text = text ≫= lineBreak) as Hfmt.
  { unfold formatMessageText. destruct text as [|c text]; [done|]. cbv zeta.
    rewrite (String_replaceTemplate_without (lit "*") (markerRegex "*")),
            (String_replaceTemplate_without (lit "_") (markerRegex "_")),
            (String_replaceTemplate_without (lit "~") (markerRegex "~")),
            (String_replaceTemplate_without (lit "`") (markerRegex "```")),
            (String_replaceAll_without (lit ".:") linkRegex);
      try done; try (intros a Ha; apply Hplain; revert Ha; clear; intros Ha;
                     repeat (apply elem_of_cons in Ha as [->|Ha]; [compute_done|]);
                     by apply elem_of_nil in Ha).
    apply String_replace_lineFeed. }
  split; [done|]. intros Hlf. by rewrite Hfmt, lineBreak_id.
Qed.

(** *** Markers *)

Lemma Forall2_ceq_refl l : Forall2 (λ a ch, ceq false a ch = true) l l.
Proof. induction l; constructor; [apply N.eqb_refl|done]. Qed.

Lemma matcher_chars_first len a l ch y c k :
  ch ≠ a → matcher false len (chars (a :: l)) (ch :: y) c k = Failure.
Proof.
  intros Hne. assert (cmatch false (Lit a) ch = false) as Hch.
  { cbn. by apply N.eqb_neq. }
  unfold chars. rewrite fmap_cons. destruct l as [|b l].
  - cbn [fmap list_fmap seqs compose]. by rewrite matcher_Chr_cons, Hch.
  - rewrite fmap_cons. cbn [seqs compose matcher]. by rewrite Hch.
Qed.

Lemma chars_requires a l : requires [a] (chars (a :: l)) = true.
Proof.
  unfold chars. rewrite fmap_cons. destruct l as [|b l].
  - cbn. apply bool_decide_eq_true. by left.
  - rewrite fmap_cons. cbn [seqs compose requires].
    rewrite bool_decide_true by by left. done.
Qed.

Lemma chars_wellFormed l : wellFormed (chars l) = true.
Proof.
  unfold chars. induction l as [|a [|b l] IH]; [done|done|].
  rewrite fmap_cons in *. by cbn [seqs wellFormed andb compose].
Qed.

Lemma chars_groups l : groups (chars l) = [].
Proof.
  unfold chars. induction l as [|a [|b l] IH]; [done|done|].
  rewrite fmap_cons in *. cbn [seqs groups compose app]. done.
Qed.

(** A lazy star over a one-character class stops at the first place where
    the rest of the pattern succeeds. *)
Lemma RepeatMatcher_lazy_run icase len cl (rest : jsstring) c k v :
  k rest c = Matched v →
  ∀ w fuel,
    Forall (λ ch, cmatch icase cl ch = true) w →
    (∀ j, j < length w → k (drop j (w ++ rest)) c = Failure) →
    length (w ++ rest) < fuel →
    RepeatMatcher fuel (matcher icase len (Chr cl)) [] 0 None false (w ++ rest) c k
    = Matched v.
Proof.
  intros Hk w. induction w as [|ch w IH]; intros fuel Hw Hfail Hfuel;
    (destruct fuel as [|fuel]; [lia|]); cbn [RepeatMatcher].
  - rewrite bool_decide_false by done. cbn [negb bool_decide app]. cbn. by rewrite Hk.
  - rewrite bool_decide_false by done. apply Forall_cons in Hw as [Hch Hw].
    rewrite (bool_decide_true (0 = 0)) by done. cbn [negb andb clear foldr].
    pose proof (Hfail 0 ltac:(cbn; lia)) as Hfirst. rewrite drop_0 in Hfirst.
    rewrite Hfirst. cbn [app]. rewrite matcher_Chr_cons, Hch.
    rewrite bool_decide_false by (cbn [length]; lia). cbn [pred fmap option_fmap option_map].
    apply IH; [done| |cbn [app length] in Hfuel; lia].
    intros j Hj. apply (Hfail (S j)). cbn [length]. lia.
Qed.

Section Marker.
Variable marker : string.
Variables (a : N) (mk' : jsstring).
Hypothesis Hmarker : lit marker = a :: mk'.

Lemma markerRegex_wellFormed : wellFormed (pattern (markerRegex marker)) = true.
Proof.
  cbn [pattern markerRegex seqs wellFormed]. unfold word.
  by rewrite chars_wellFormed.
Qed.

Lemma markerRegex_requires : requires [a] (pattern (markerRegex marker)) = true.
Proof using Hmarker.
  cbn [pattern markerRegex seqs requires]. unfold word.
  by rewrite Hmarker, chars_requires.
Qed.

Lemma markerRegex_groups : length (groups (pattern (markerRegex marker))) = 1.
Proof.
  cbn [pattern markerRegex seqs groups]. unfold word. by rewrite chars_groups.
Qed.

Lemma markerRegex_skip len ch y c k :
  ch ≠ a → matcher false len (pattern (markerRegex marker)) (ch :: y) c k = Failure.
Proof using Hmarker.
  intros Hne. cbn [pattern markerRegex seqs]. cbn [matcher]. unfold word at 1.
  rewrite Hmarker. by apply matcher_chars_first.
Qed.

Lemma markerRegex_match len s rest :
  (a ∉ s) → Forall (λ ch, Char.isLineTerminator ch = false) s →
  matcher false len (pattern (markerRegex marker))
    (lit marker ++ s ++ lit marker ++ rest) ∅ (λ y c, Matched (y, c))
  = Matched (rest, <[1 := s]> ∅).
Proof using Hmarker.
  intros Ha Hs. cbn [pattern markerRegex seqs]. cbn [matcher].
  unfold word at 1.
  apply (matcher_Run false len (chars (lit marker)) _ ∅ (s ++ lit marker ++ rest) ∅).
  { apply Run_chars, Forall2_ceq_refl. }
  unfold lazyStar. cbn [groups].
  apply (RepeatMatcher_lazy_run false len Dot (lit marker ++ rest)).
  - unfold word.
    apply (matcher_Run false len (chars (lit marker)) _ _ rest
             (<[1 := take (length (s ++ lit marker ++ rest) - length (lit marker ++ rest))
                       (s ++ lit marker ++ rest)]> ∅)).
    { apply Run_chars, Forall2_ceq_refl. }
    do 3 f_equal. rewrite length_app, Nat.add_sub. apply take_app_length.
  - eapply Forall_impl; [exact Hs|]. intros ch Hch. cbn. by rewrite Hch.
  - intros j Hj. rewrite drop_app_le by lia.
    destruct (drop j s) as [|ch t] eqn:Hdrop.
    { apply (f_equal length) in Hdrop. rewrite length_drop in Hdrop. cbn in Hdrop. lia. }
    cbn [app]. unfold word. rewrite Hmarker. apply matcher_chars_first.
    intros ->. apply Ha. apply (subseteq_drop j). rewrite Hdrop. by left.
  - rewrite !length_app. lia.
Qed.

Lemma marker_replace template opening closing pre s post :
  (∀ matched str position,
     GetSubstitution matched str position (<[1 := s]> ∅) 1 (lit template)
     = opening ++ s ++ closing) →
  (a ∉ pre) → (a ∉ s) → (a ∉ post) →
  Forall (λ ch, Char.isLineTerminator ch = false) s →
  String_replaceTemplate (markerRegex marker) template
    (pre ++ lit marker ++ s ++ lit marker ++ post)
  = pre ++ opening ++ s ++ closing ++ post.
Proof using Hmarker.
  intros Htemplate Hpre Hs Hpost Hdot.
  unfold String_replaceTemplate, String_replaceAll. cbn [replaceFrom].
  change (ignoreCase (markerRegex marker)) with false.
  rewrite execFrom_skip.
  2:{ apply Forall_forall. intros ch Hch y. apply markerRegex_skip. by intros ->. }
  rewrite (execFrom_first _ _ _ _ _ post (<[1 := s]> ∅)) by by apply markerRegex_match.
  cbn [index matched caps]. rewrite markerRegex_groups, Htemplate.
  replace (take (length (lit marker ++ s ++ lit marker ++ post) - length post)
             (lit marker ++ s ++ lit marker ++ post))
    with (lit marker ++ s ++ lit marker)
    by (symmetry; apply take_prefix_length; by rewrite <-!(assoc (++))).
  rewrite Nat.add_0_l, Nat.sub_0_r, take_app_length.
  replace (drop (length pre + length (lit marker ++ s ++ lit marker))
             (pre ++ lit marker ++ s ++ lit marker ++ post)) with post.
  2:{ rewrite drop_app_ge by lia.
      replace (length pre + length (lit marker ++ s ++ lit marker) - length pre)
        with (length (lit marker ++ s ++ lit marker)) by lia.
      replace (lit marker ++ s ++ lit marker ++ post)
        with ((lit marker ++ s ++ lit marker) ++ post) by (by rewrite <-!(assoc (++))).
      by rewrite drop_app_length. }
  rewrite Hmarker at 1. cbn [app].
  rewrite replaceFrom_Failure; [by rewrite <-!(assoc (++))|].
  apply (execFrom_requires [a]);
    [apply markerRegex_wellFormed|apply markerRegex_requires|].
  by intros ? ->%list_elem_of_singleton.
Qed.
End Marker.

Lemma formatMessageText_nonempty text :
  text ≠ [] →
  formatMessageText text
  = String_replaceTemplate lineFeedRegex "<br>"
      (String_replaceAll linkRegex linkReplacer
         (String_replaceTemplate (markerRegex "```") "<code>$1</code>"
            (String_replaceTemplate (markerRegex "~") "<del>$1</del>"
               (String_replaceTemplate (markerRegex "_") "<em>$1</em>"
                  (String_replaceTemplate (markerRegex "*") "<strong>$1</strong>" text))))).
Proof. by destruct text. Qed.

Lemma marked_without (units pre l1 s l2 post : jsstring) :
  (∀ a, a ∈ units → (a ∉ pre) ∧ (a ∉ s) ∧ (a ∉ post)) →
  (∀ a, a ∈ units → a ∉ l1 ++ l2) →
  ∀ a, a ∈ units → a ∉ pre ++ l1 ++ s ++ l2 ++ post.
Proof.
  intros Hparts Hlit a Ha. destruct (Hparts a Ha) as (Hpre & Hs & Hpost).
  specialize (Hlit a Ha). apply not_elem_of_app in Hlit as [H1 H2].
  rewrite !not_elem_of_app. done.
Qed.

(** The side conditions of the steps that change nothing. *)
Ltac without_units Hparts :=
  first
    [ done
    | apply marked_without;
      [ intros ? Hunit; apply Hparts; revert Hunit; clear; intros Hunit;
        repeat (apply elem_of_cons in Hunit as [->|Hunit]; [compute_done|]);
        by apply elem_of_nil in Hunit
      | clear; intros ? Hunit;
        repeat (apply elem_of_cons in Hunit as [->|Hunit]; [compute_done|]);
        by apply elem_of_nil in Hunit ] ].

(** X21. A stretch of text between two markers is wrapped in the tag of
    the marker, the markers being dropped: [*] gives [strong], [_] gives
    [em], [~] gives [del] and three backquotes give [code]. This holds when
    the text around and between the markers holds no marker, dot or colon,
    and the text between them no line terminator; of the text around them
    only the line feeds are changed. *)
Theorem formatMessageText_markers pre s post :
  (∀ a, a ∈ lit "*_~`.:" → a ∉ pre ++ s ++ post) →
  Forall (λ ch, Char.isLineTerminator ch = false) s →
  formatMessageText (pre ++ lit "*" ++ s ++ lit "*" ++ post)
  = (pre ≫= lineBreak) ++ lit "<strong>" ++ s ++ lit "</strong>" ++ (post ≫= lineBreak)
  ∧ formatMessageText (pre ++ lit "_" ++ s ++ lit "_" ++ post)
    = (pre ≫= lineBreak) ++ lit "<em>" ++ s ++ lit "</em>" ++ (post ≫= lineBreak)
  ∧ formatMessageText (pre ++ lit "~" ++ s ++ lit "~" ++ post)
    = (pre ≫= lineBreak) ++ lit "<del>" ++ s ++ lit "</del>" ++ (post ≫= lineBreak)
  ∧ formatMessageText (pre ++ lit "```" ++ s ++ lit "```" ++ post)
    = (pre ≫= lineBreak) ++ lit "<code>" ++ s ++ lit "</code>" ++ (post ≫= lineBreak).
Proof.
  intros Hplain Hdot.
  assert (∀ a, a ∈ lit "*_~`.:" → (a ∉ pre) ∧ (a ∉ s) ∧ (a ∉ post)) as Hparts.
  { intros a Ha. specialize (Hplain a Ha). by rewrite !not_elem_of_app in Hplain. }
  assert (s ≫= lineBreak = s) as Hs.
  { apply lineBreak_id. intros Hin. by apply (proj1 (Forall_forall _ _) Hdot) in Hin. }
  destruct (Hparts 42%N ltac:(compute_done)) as (S1 & S2 & S3).
  destruct (Hparts 95%N ltac:(compute_done)) as (U1 & U2 & U3).
  destruct (Hparts 126%N ltac:(compute_done)) as (T1 & T2 & T3).
  destruct (Hparts 96%N ltac:(compute_done)) as (B1 & B2 & B3).
  split; [|split; [|split]]; rewrite formatMessageText_nonempty by by destruct pre.
  - rewrite (marker_replace "*" 42 [] eq_refl _ (lit "<strong>") (lit "</strong>"))
      by done.
    rewrite (String_replaceTemplate_without (lit "_") (markerRegex "_")),
            (String_replaceTemplate_without (lit "~") (markerRegex "~")),
            (String_replaceTemplate_without (lit "`") (markerRegex "```")),
            (String_replaceAll_without (lit ".:") linkRegex),
            String_replace_lineFeed, !bind_app, Hs; try without_units Hparts.
  - rewrite (String_replaceTemplate_without (lit "*") (markerRegex "*"));
      try without_units Hparts.
    rewrite (marker_replace "_" 95 [] eq_refl _ (lit "<em>") (lit "</em>")) by done.
    rewrite (String_replaceTemplate_without (lit "~") (markerRegex "~")),
            (String_replaceTemplate_without (lit "`") (markerRegex "```")),
            (String_replaceAll_without (lit ".:") linkRegex),
            String_replace_lineFeed, !bind_app, Hs; try without_units Hparts.
  - rewrite (String_replaceTemplate_without (lit "*") (markerRegex "*")),
            (String_replaceTemplate_without (lit "_") (markerRegex "_"));
      try without_units Hparts.
    rewrite (marker_replace "~" 126 [] eq_refl _ (lit "<del>") (lit "</del>")) by done.
    rewrite (String_replaceTemplate_without (lit "`") (markerRegex "```")),
            (String_replaceAll_without (lit ".:") linkRegex),
            String_replace_lineFeed, !bind_app, Hs; try without_units Hparts.
  - rewrite (String_replaceTemplate_without (lit "*") (markerRegex "*")),
            (String_replaceTemplate_without (lit "_") (markerRegex "_")),
            (String_replaceTemplate_without (lit "~") (markerRegex "~"));
      try without_units Hparts.
    rewrite (marker_replace "```" 96 (lit "``") eq_refl _ (lit "<code>") (lit "</code>"))
      by done.
    rewrite (String_replaceAll_without (lit ".:") linkRegex),
            String_replace_lineFeed, !bind_app, Hs; try without_units Hparts.
Qed.

(** *** Links *)

Lemma iter_within (P : N → Prop) len r gs :
  (∀ x c y c', Sem false len r x c y c' → ∃ w, x = w ++ y ∧ Forall P w) →
  ∀ n x c y c', iter (Sem false len r) gs n x c y c' → ∃ w, x = w ++ y ∧ Forall P w.
Proof.
  intros Hr n. induction n as [|n IH]; intros x c y c' Hiter; inversion Hiter; subst.
  - by exists [].
  - match goal with
    | H : Sem _ _ _ _ _ _ _, H' : iter _ _ _ _ _ _ _ |- _ =>
        apply Hr in H as (w1 & -> & Hw1); apply IH in H' as (w2 & -> & Hw2)
    end.
    exists (w1 ++ w2). split; [by rewrite <-(assoc (++))|]. by apply Forall_app.
Qed.

Lemma Sem_within (P : N → Prop) len r :
  within P r →
  ∀ x c y c', Sem false len r x c y c' → ∃ w, x = w ++ y ∧ Forall P w.
Proof.
  induction r as [|cl|r1 IH1 r2 IH2|r1 IH1 r2 IH2|min max greedy r IH|i r IH|r IH| |];
    cbn [within Sem]; intros Hin x c y c' Hsem.
  - destruct Hsem as [-> _]. by exists [].
  - destruct Hsem as (ch & -> & Hch & _). exists [ch]. split; [done|].
    apply Forall_singleton. by apply Hin.
  - destruct Hin as [Hin1 Hin2]. destruct Hsem as (z & c1 & H1 & H2).
    destruct (IH1 Hin1 _ _ _ _ H1) as (w1 & -> & Hw1).
    destruct (IH2 Hin2 _ _ _ _ H2) as (w2 & -> & Hw2).
    exists (w1 ++ w2). split; [by rewrite <-(assoc (++))|]. by apply Forall_app.
  - destruct Hin as [Hin1 Hin2].
    destruct Hsem as [Hsem|Hsem]; [by apply (IH1 Hin1 _ c _ c')|by apply (IH2 Hin2 _ c _ c')].
  - destruct Hsem as (n & _ & _ & Hiter).
    by apply (iter_within P len r (groups r) (IH Hin) n _ c _ c').
  - destruct Hsem as (c1 & Hsem & _). by apply (IH Hin _ c _ c1).
  - by apply (IH Hin _ c _ c').
  - destruct Hsem as (_ & -> & _). by exists [].
  - destruct Hsem as (-> & -> & _). by exists [].
Qed.

Lemma chars_within (P : N → Prop) l : Forall P l → within P (chars l).
Proof.
  unfold chars. induction l as [|a [|b l] IH]; intros Hl; [done| |].
  - cbn. intros ch ->%N.eqb_eq. by apply Forall_cons in Hl as [Hch _].
  - apply Forall_cons in Hl as [Ha Hl]. rewrite fmap_cons in *.
    cbn [seqs within compose]. split; [|by apply IH].
    cbn. by intros ch ->%N.eqb_eq.
Qed.

Lemma OneOf_elem_of l ch : cmatch false (OneOf l) ch = true ↔ ch ∈ l.
Proof.
  cbn [cmatch]. rewrite existsb_exists. split.
  - intros (a & Ha%list_elem_of_In & ->%N.eqb_eq). done.
  - intros Hin. exists ch. split; [by apply list_elem_of_In|]. cbn. apply N.eqb_refl.
Qed.

Lemma OneOf_not_space l :
  forallb (λ a, negb (Char.isSpace a)) l = true →
  ∀ ch, cmatch false (OneOf l) ch = true → Char.isSpace ch = false.
Proof.
  intros Hl ch Hch%OneOf_elem_of%list_elem_of_In. apply negb_true_iff.
  by apply (proj1 (forallb_forall _ _) Hl).
Qed.

(** [[^\s]] reads the units that are no white space. *)
Lemma notSpace_spec ch : cmatch false notSpace ch = negb (Char.isSpace ch).
Proof.
  unfold notSpace.
  match goal with
  | |- cmatch false (NoneOf ?l) ch = _ =>
      change (cmatch false (NoneOf l) ch) with (negb (cmatch false (OneOf l) ch));
      f_equal; apply eq_true_iff_eq; rewrite OneOf_elem_of; set (spaces := l)
  end.
  split.
  - intros Hin.
    assert (forallb Char.isSpace spaces = true) as Hall by by vm_compute.
    apply (proj1 (forallb_forall _ _) Hall). by apply list_elem_of_In.
  - unfold Char.isSpace, Char.isWhiteSpace, Char.isLineTerminator.
    rewrite !orb_true_iff, andb_true_iff, !N.eqb_eq, !N.leb_le. intros H.
    assert (ch = 9 ∨ ch = 10 ∨ ch = 11 ∨ ch = 12 ∨ ch = 13 ∨ ch = 32 ∨ ch = 160
            ∨ ch = 5760 ∨ ch = 8192 ∨ ch = 8193 ∨ ch = 8194 ∨ ch = 8195 ∨ ch = 8196
            ∨ ch = 8197 ∨ ch = 8198 ∨ ch = 8199 ∨ ch = 8200 ∨ ch = 8201 ∨ ch = 8202
            ∨ ch = 8232 ∨ ch = 8233 ∨ ch = 8239 ∨ ch = 8287 ∨ ch = 12288
            ∨ ch = 65279)%N as Hch by lia.
    clear H. repeat (destruct Hch as [->|Hch]; [compute_done|]). subst. compute_done.
Qed.

Lemma linkRegex_within : within (λ ch, Char.isSpace ch = false) (pattern linkRegex).
Proof.
  assert (∀ ch, cmatch false notSpace ch = true → Char.isSpace ch = false) as Hns.
  { intros ch. rewrite notSpace_spec. apply negb_true_iff. }
  unfold linkRegex, linkWithScheme, linkWithWww, linkWithDomain, plus, opt, star, word.
  cbn [pattern alts seqs within].
  repeat match goal with |- _ ∧ _ => split end;
    first [ exact Hns
          | apply chars_within; by repeat constructor
          | by apply OneOf_not_space ].
Qed.

(** No link starts in a stretch of text without dot and colon that ends with
    white space. *)
Lemma linkRegex_not_before len q sp x j :
  (∀ a, a ∈ lit ".:" → a ∉ q) → Char.isSpace sp = true → j ≤ length q →
  matcher false len (pattern linkRegex) (drop j q ++ sp :: x) ∅ (λ y c, Matched (y, c))
  = Failure.
Proof.
  intros Hq Hsp Hj.
  destruct (matcher false len (pattern linkRegex) (drop j q ++ sp :: x) ∅
              (λ y c, Matched (y, c))) as [v| |] eqn:E; [|done|].
  - exfalso. apply matcher_sound in E as (y & c' & Hsem & _); [|done].
    destruct (Sem_within _ _ _ linkRegex_within _ _ _ _ Hsem) as (w & Hw & Hns).
    destruct (Sem_requires (lit ".:") len (pattern linkRegex) eq_refl _ _ _ _ Hsem)
      as (w' & a & Hw' & Ha & Hin).
    assert (w' = w) as -> by (apply (app_inv_tail y); congruence).
    destruct (decide (length w ≤ length (drop j q))) as [Hle|Hgt].
    + apply (Hq a Ha). apply (subseteq_drop j).
      assert (w = take (length w) (drop j q)) as Hwq.
      { apply (f_equal (take (length w))) in Hw.
        by rewrite take_app_le, take_app_length in Hw by done. }
      rewrite Hwq in Hin. by apply (subseteq_take (length w)).
    + assert (w !! length (drop j q) = Some sp) as Hlook.
      { rewrite <-(lookup_app_l w y) by lia. rewrite <-Hw.
        by rewrite lookup_app_r, Nat.sub_diag by done. }
      apply (proj1 (Forall_lookup _ _) Hns) in Hlook. congruence.
  - exfalso. revert E. by apply matcher_answers.
Qed.

Lemma execFrom_skip_at icase r len pre x : ∀ i,
  (∀ j, j < length pre →
        matcher icase len r (drop j pre ++ x) ∅ (λ y c, Matched (y, c)) = Failure) →
  execFrom icase r len i (pre ++ x) = execFrom icase r len (i + length pre) x.
Proof.
  induction pre as [|ch pre IH]; intros i Hpre.
  { cbn [app length]. by rewrite Nat.add_0_r. }
  cbn [app execFrom]. pose proof (Hpre 0 ltac:(cbn; lia)) as H0. cbn [drop app] in H0.
  rewrite H0, IH.
  - cbn [length]. f_equal. lia.
  - intros j Hj. apply (Hpre (S j)). cbn [length]. lia.
Qed.

(** The first alternative reads [http], an [s] or none, [://] and the run of
    units up to the next white space. *)
Lemma linkWithScheme_match len s rest post :
  s = [] ∨ s = lit "s" →
  rest ≠ [] → Forall (λ ch, Char.isSpace ch = false) rest →
  (∀ ch, head post = Some ch → Char.isSpace ch = true) →
  matcher false len (pattern linkRegex)
    (lit "http" ++ s ++ lit "://" ++ rest ++ post) ∅ (λ y c, Matched (y, c))
  = Matched (post, <[1 := lit "http" ++ s ++ lit "://" ++ rest]> ∅).
Proof.
  intros Hs Hne Hrest Hpost. cbn [pattern linkRegex alts matcher].
  rewrite (matcher_Run false len linkWithScheme _ ∅ post ∅ _
             (post, <[1 := lit "http" ++ s ++ lit "://" ++ rest]> ∅)); [done| |].
  - unfold linkWithScheme. cbn [seqs].
    eapply Run_Seq; [apply Run_chars, Forall2_ceq_refl|].
    eapply (Run_Seq _ _ _ _ _ _ (lit "://" ++ rest ++ post)).
    { unfold opt, word. apply (Run_Rep _ _ _ _ _ s); [done| | | |].
      - destruct Hs as [->| ->]; by repeat constructor.
      - lia.
      - intros m [= <-]. destruct Hs as [->| ->]; cbn; lia.
      - destruct Hs as [->| ->]; [by right|by left]. }
    eapply Run_Seq; [apply Run_chars, Forall2_ceq_refl|].
    unfold plus. apply (Run_Rep _ _ _ _ _ rest); [done| | |done|].
    + eapply Forall_impl; [exact Hrest|]. intros ch Hch. by rewrite notSpace_spec, Hch.
    + destruct rest; [done|cbn; lia].
    + right. destruct post as [|ch post]; [done|].
      by rewrite notSpace_spec, (Hpost ch eq_refl).
  - do 3 f_equal.
    replace (lit "http" ++ s ++ lit "://" ++ rest ++ post)
      with ((lit "http" ++ s ++ lit "://" ++ rest) ++ post)
      by (by rewrite <-!(assoc (++))).
    by rewrite length_app, Nat.add_sub, take_app_length.
Qed.

(** The second alternative reads [www.] and the run of units up to the next
    white space. *)
Lemma linkWithWww_match len rest post :
  rest ≠ [] → Forall (λ ch, Char.isSpace ch = false) rest →
  (∀ ch, head post = Some ch → Char.isSpace ch = true) →
  matcher false len (pattern linkRegex) (lit "www." ++ rest ++ post) ∅
    (λ y c, Matched (y, c))
  = Matched (post, <[1 := lit "www." ++ rest]> ∅).
Proof.
  intros Hne Hrest Hpost. cbn [pattern linkRegex alts matcher].
  assert (∀ c k, matcher false len linkWithScheme (lit "www." ++ rest ++ post) c k
                 = Failure) as ->.
  { intros c k. unfold linkWithScheme. cbn [seqs matcher]. unfold word at 1.
    by apply matcher_chars_first. }
  rewrite (matcher_Run false len linkWithWww _ ∅ post ∅ _
             (post, <[1 := lit "www." ++ rest]> ∅)); [done| |].
  - unfold linkWithWww. cbn [seqs].
    eapply Run_Seq; [apply Run_chars, Forall2_ceq_refl|].
    unfold plus. apply (Run_Rep _ _ _ _ _ rest); [done| | |done|].
    + eapply Forall_impl; [exact Hrest|]. intros ch Hch. by rewrite notSpace_spec, Hch.
    + destruct rest; [done|cbn; lia].
    + right. destruct post as [|ch post]; [done|].
      by rewrite notSpace_spec, (Hpost ch eq_refl).
  - do 3 f_equal.
    replace (lit "www." ++ rest ++ post) with ((lit "www." ++ rest) ++ post)
      by (by rewrite <-!(assoc (++))).
    by rewrite length_app, Nat.add_sub, take_app_length.
Qed.

Lemma linkReplacer_anchor m :
  linkReplacer m
  = anchor (if Str.startsWith (lit "http") (matched m) then matched m
            else lit "https://" ++ matched m) (matched m).
Proof. done. Qed.

(** A link the pattern reads, between a text that ends with white space
    and a text without dot and colon, is the one match of the text. *)
Lemma link_replace pre link post :
  (∀ len, matcher false len (pattern linkRegex) (link ++ post) ∅ (λ y c, Matched (y, c))
          = Matched (post, <[1 := link]> ∅)) →
  link ≠ [] →
  (∀ a, a ∈ lit ".:" → a ∉ pre) → (∀ a, a ∈ lit ".:" → a ∉ post) →
  (∀ ch, last pre = Some ch → Char.isSpace ch = true) →
  String_replaceAll linkRegex linkReplacer (pre ++ link ++ post)
  = pre ++ anchor (if Str.startsWith (lit "http") link then link
                   else lit "https://" ++ link) link ++ post.
Proof.
  intros Hmatch Hne Hpre Hpost Hlast.
  unfold String_replaceAll. cbn [replaceFrom].
  change (ignoreCase linkRegex) with false.
  rewrite execFrom_skip_at.
  2:{ intros j Hj. destruct (last pre) as [sp|] eqn:El.
      - apply last_Some in El as [q ->]. rewrite length_app in Hj. cbn in Hj.
        rewrite drop_app_le by lia.
        replace ((drop j q ++ [sp]) ++ link ++ post)
          with (drop j q ++ sp :: link ++ post) by (by rewrite <-(assoc (++))).
        apply linkRegex_not_before; [|by apply Hlast|lia].
        intros a Ha Hin. apply (Hpre a Ha). apply elem_of_app. by left.
      - apply last_None in El as ->. cbn in Hj. lia. }
  rewrite (execFrom_first _ _ _ _ _ post (<[1 := link]> ∅)) by apply Hmatch.
  rewrite linkReplacer_anchor. cbn [index matched caps].
  rewrite length_app, Nat.add_sub, take_app_length.
  rewrite Nat.add_0_l, Nat.sub_0_r, take_app_length.
  replace (drop (length pre + length link) (pre ++ link ++ post)) with post.
  2:{ rewrite drop_app_ge by lia.
      replace (length pre + length link - length pre) with (length link) by lia.
      by rewrite drop_app_length. }
  destruct link as [|l0 link]; [done|].
  rewrite replaceFrom_Failure; [done|].
  by apply (execFrom_requires (lit ".:")).
Qed.

Lemma anchor_no_line_feed href label :
  (10%N ∉ href) → (10%N ∉ label) → 10%N ∉ anchor href label.
Proof.
  intros Hhref Hlabel. unfold anchor. rewrite !not_elem_of_app.
  repeat split; first [done|compute_done].
Qed.

Lemma formatMessageText_link pre link post :
  (∀ len, matcher false len (pattern linkRegex) (link ++ post) ∅ (λ y c, Matched (y, c))
          = Matched (post, <[1 := link]> ∅)) →
  link ≠ [] → (10%N ∉ link) →
  (∀ a, a ∈ lit "*_~`" → a ∉ pre ++ link ++ post) →
  (∀ a, a ∈ lit ".:" → a ∉ pre) → (∀ a, a ∈ lit ".:" → a ∉ post) →
  (∀ ch, last pre = Some ch → Char.isSpace ch = true) →
  formatMessageText (pre ++ link ++ post)
  = (pre ≫= lineBreak)
    ++ anchor (if Str.startsWith (lit "http") link then link else lit "https://" ++ link)
         link
    ++ (post ≫= lineBreak).
Proof.
  intros Hmatch Hne Hlf Hmark Hpre Hpost Hlast.
  assert (∀ a b, a ∈ lit "*_~`" → b ∈ [a] → b ∉ pre ++ link ++ post) as Hone.
  { intros a b Ha ->%list_elem_of_singleton. by apply Hmark. }
  rewrite formatMessageText_nonempty by (destruct pre, link; done).
  rewrite (String_replaceTemplate_without [42%N] (markerRegex "*")),
          (String_replaceTemplate_without [95%N] (markerRegex "_")),
          (String_replaceTemplate_without [126%N] (markerRegex "~")),
          (String_replaceTemplate_without [96%N] (markerRegex "```")),
          link_replace, String_replace_lineFeed, !bind_app, (lineBreak_id (anchor _ _));
    try done;
    try (intros b; apply Hone; compute_done).
  apply anchor_no_line_feed; [|done].
  destruct (Str.startsWith (lit "http") link); [done|].
  apply not_elem_of_app. split; [compute_done|done].
Qed.

(** X22. An address that starts with [https://], [http://] or [www.] and
    runs up to the next white space or the end of the text is wrapped in an
    anchor that opens in a new tab; the text of the anchor is the address
    as written, its [href] the address, with [https://] put in front of one
    that starts with [www.]. This holds when the address follows white
    space or starts the text and holds no marker, and the text around it
    holds no marker, dot or colon; of that text only the line feeds are
    changed. The units of the address are copied into the [href] as they
    are. *)
Theorem formatMessageText_links pre rest post :
  (∀ a, a ∈ lit "*_~`.:" → a ∉ pre ++ post) →
  (∀ a, a ∈ lit "*_~`" → a ∉ rest) →
  (∀ ch, last pre = Some ch → Char.isSpace ch = true) →
  (∀ ch, head post = Some ch → Char.isSpace ch = true) →
  rest ≠ [] → Forall (λ ch, Char.isSpace ch = false) rest →
  formatMessageText (pre ++ lit "https://" ++ rest ++ post)
  = (pre ≫= lineBreak)
    ++ anchor (lit "https://" ++ rest) (lit "https://" ++ rest) ++ (post ≫= lineBreak)
  ∧ formatMessageText (pre ++ lit "http://" ++ rest ++ post)
    = (pre ≫= lineBreak)
      ++ anchor (lit "http://" ++ rest) (lit "http://" ++ rest) ++ (post ≫= lineBreak)
  ∧ formatMessageText (pre ++ lit "www." ++ rest ++ post)
    = (pre ≫= lineBreak)
      ++ anchor (lit "https://www." ++ rest) (lit "www." ++ rest) ++ (post ≫= lineBreak).
Proof.
  intros Haround Hrest Hlast Hhead Hne Hns.
  assert (10%N ∉ rest) as Hlf.
  { intros Hin. by apply (proj1 (Forall_forall _ _) Hns) in Hin. }
  assert (∀ a, a ∈ lit "*_~`.:" → (a ∉ pre) ∧ (a ∉ post)) as Hparts.
  { intros a Ha. apply not_elem_of_app. by apply Haround. }
  assert (∀ a, a ∈ lit ".:" → a ∉ pre) as Hpre.
  { intros a Ha. apply Hparts. revert Ha. clear. intros Ha.
    repeat (apply elem_of_cons in Ha as [->|Ha]; [compute_done|]).
    by apply elem_of_nil in Ha. }
  assert (∀ a, a ∈ lit ".:" → a ∉ post) as Hpost.
  { intros a Ha. apply Hparts. revert Ha. clear. intros Ha.
    repeat (apply elem_of_cons in Ha as [->|Ha]; [compute_done|]).
    by apply elem_of_nil in Ha. }
  assert (∀ l : jsstring, (∀ a, a ∈ lit "*_~`" → a ∉ l) →
          ∀ a, a ∈ lit "*_~`" → a ∉ pre ++ (l ++ rest) ++ post) as Hmark.
  { intros l Hl a Ha. rewrite !not_elem_of_app.
    assert (a ∈ lit "*_~`.:") as Ha'.
    { revert Ha. clear. intros Ha.
      repeat (apply elem_of_cons in Ha as [->|Ha]; [compute_done|]).
      by apply elem_of_nil in Ha. }
    destruct (Hparts a Ha'). auto. }
  assert (∀ l : jsstring, (10%N ∉ l) → 10%N ∉ l ++ rest) as Hlfl.
  { intros l Hl. by apply not_elem_of_app. }
  split; [|split].
  - apply (formatMessageText_link pre (lit "https://" ++ rest) post); try done.
    + intros len. by apply (linkWithScheme_match len (lit "s")); [right|..].
    + apply Hlfl. compute_done.
    + apply Hmark. clear. intros a Ha.
      repeat (apply elem_of_cons in Ha as [->|Ha]; [compute_done|]).
      by apply elem_of_nil in Ha.
  - apply (formatMessageText_link pre (lit "http://" ++ rest) post); try done.
    + intros len. by apply (linkWithScheme_match len []); [left|..].
    + apply Hlfl. compute_done.
    + apply Hmark. clear. intros a Ha.
      repeat (apply elem_of_cons in Ha as [->|Ha]; [compute_done|]).
      by apply elem_of_nil in Ha.
  - apply (formatMessageText_link pre (lit "www." ++ rest) post); try done.
    + intros len. by apply linkWithWww_match.
    + apply Hlfl. compute_done.
    + apply Hmark. clear. intros a Ha.
      repeat (apply elem_of_cons in Ha as [->|Ha]; [compute_done|]).
      by apply elem_of_nil in Ha.
Qed.

End Runtime.

(** * Closed examples: witnesses and counterexamples *)

(** C2, as stated, fails: a line whose time has no am/pm marker is not a
    header, and alone it yields no message. *)
Lemma header_without_marker_rejected :
  headerFields Host.upper (lit "1/2/24, 10:30 - Alice: Hi") = None
  ∧ parseChat (Blob := unit) Host.upper Host.lower Host.now Host.getTime
      (lit "1/2/24, 10:30 - Alice: Hi") ∅ = [].
Proof. by vm_compute. Qed.

Lemma header_time_ends_with_marker_witness :
  ∃ hm,
    String_match Host.upper dateTimeRegex (lit "1/2/24, 10:30 pM - Alice: Hi") = Some hm
    ∧ (∃ hh mm ws a b,
         group 2 hm = hh ++ lit ":" ++ mm ++ ws ++ [a; b]
         ∧ Forall (λ ch, Char.isDigit ch = true) (hh ++ mm)
         ∧ Forall (λ ch, Char.isSpace ch = true) ws
         ∧ isAmPmLetter a ∧ isAmPmLetter b)
    ∧ headerFields Host.upper (lit "1/2/24, 10:30 pM - Alice: Hi")
      = Some (lit "1/2/24", lit "10:30 pM", lit "Alice: Hi").
Proof.
  destruct (String_match Host.upper dateTimeRegex
              (lit "1/2/24, 10:30 pM - Alice: Hi")) as [hm|] eqn:E;
    [|by vm_compute in E].
  exists hm. split; [done|]. split.
  - exact (proj1 (header_time_ends_with_marker Host.upper) _ hm E).
  - apply (proj2 (proj2 (header_time_ends_with_marker Host.upper))
             (lit "1") (lit "2") (lit "24") (lit "10") (lit "30")
             (lit " ") (lit " ") (lit " ") (lit " ")
             (N_of_ascii "p") (N_of_ascii "M") (lit "Alice: Hi"));
      first [by repeat constructor | cbn; lia | unfold isAmPmLetter; compute_done | done].
Defined.

Lemma continuation_lines_joined_witness :
  ∃ hm,
    String_match Host.upper dateTimeRegex (lit "1/2/24, 10:30 AM - Alice: Hello") = Some hm
    ∧ ∃ before m after,
        parseChat (Blob := unit) Host.upper Host.lower Host.now Host.getTime
          (lit "1/2/24, 10:30 AM - Alice: Hello\nWorld") ∅ = before ++ m :: after
        ∧ length before = 0 ∧ length after = 0
        ∧ message m
          = message (newMessage (Blob := unit) Host.upper Host.lower Host.now
                       Host.getTime ∅ 0 hm)
            ++ lit "\nWorld".
Proof.
  destruct (String_match Host.upper dateTimeRegex
              (lit "1/2/24, 10:30 AM - Alice: Hello")) as [hm|] eqn:E;
    [|by vm_compute in E].
  exists hm. split; [done|].
  destruct (continuation_lines_joined (Blob := unit) Host.upper Host.lower Host.now
              Host.getTime (lit "1/2/24, 10:30 AM - Alice: Hello\nWorld") ∅
              [] (lit "1/2/24, 10:30 AM - Alice: Hello") hm [lit "World"] [])
    as [(before & m & after & Hout & Hb & Ha & _ & _ & _ & Hmsg) _].
  - by vm_compute.
  - exact E.
  - by repeat constructor.
  - by left.
  - by exists before, m, after.
Defined.

Lemma sender_split_at_first_colon_witness :
  (∃ hm,
     String_match Host.upper dateTimeRegex (lit "1/2/24, 10:30 AM - Alice: Hello") = Some hm
     ∧ Str.trim (group 3 hm) = lit "Alice" ++ lit ":" ++ lit " Hello"
     ∧ (58%N ∉ lit "Alice") ∧ (lit "Alice" ≠ [])
     ∧ let m := newMessage (Blob := unit) Host.upper Host.lower Host.now Host.getTime
                  ∅ 0 hm in
       kind m = message_ ∧ sender m = Str.trim (lit "Alice") ∧ systemType m = None
       ∧ attachment m = extractAttachment Host.upper Host.lower (Str.trim (lit " Hello")) ∅
       ∧ (attachment m = None → message m = Str.trim (lit " Hello")))
  ∧ (∃ hm,
       String_match Host.upper dateTimeRegex (lit "1/2/24, 10:31 AM - Bob left") = Some hm
       ∧ (58%N ∉ Str.trim (group 3 hm))
       ∧ let m := newMessage (Blob := unit) Host.upper Host.lower Host.now Host.getTime
                    ∅ 0 hm in
         kind m = system_ ∧ sender m = lit "System" ∧ message m = Str.trim (group 3 hm)
         ∧ attachment m = None
         ∧ systemType m = Some (getSystemMessageType Host.lower (Str.trim (group 3 hm)))).
Proof.
  split.
  - destruct (String_match Host.upper dateTimeRegex
                (lit "1/2/24, 10:30 AM - Alice: Hello")) as [hm|] eqn:E;
      [|by vm_compute in E].
    exists hm. split; [done|].
    assert (Str.trim (group 3 hm) = lit "Alice" ++ lit ":" ++ lit " Hello") as Hc.
    { vm_compute in E. injection E as <-. by vm_compute. }
    assert (58%N ∉ lit "Alice") as Hn by compute_done.
    assert (lit "Alice" ≠ []) as Hne by done.
    repeat split; try done.
    all: apply (proj1 (sender_split_at_first_colon (Blob := unit) Host.upper Host.lower
                         Host.now Host.getTime ∅ 0 hm) (lit "Alice") (lit " Hello")
                  Hc Hn Hne).
  - destruct (String_match Host.upper dateTimeRegex
                (lit "1/2/24, 10:31 AM - Bob left")) as [hm|] eqn:E;
      [|by vm_compute in E].
    exists hm. split; [done|].
    assert (58%N ∉ Str.trim (group 3 hm)) as Hn.
    { vm_compute in E. injection E as <-. compute_done. }
    split; [done|].
    exact (proj1 (proj2 (sender_split_at_first_colon (Blob := unit) Host.upper Host.lower
                           Host.now Host.getTime ∅ 0 hm)) (or_introl Hn)).
Defined.



(** C6, as stated, fails: with the marker's name absent the resolver still
    resolves a direct filename in the same body, and the body is cut. *)
Lemma absent_marker_name_still_resolves :
  let files : gmap jsstring unit := {[ lit "IMG-1.jpg" := () ]} in
  files !! lit "missing.jpg" = None
  ∧ (λ a, (filename a, originalText a))
      <$> extractAttachment Host.upper Host.lower
            (lit "<attached: missing.jpg> IMG-1.jpg") files
    = Some (lit "IMG-1.jpg", lit "IMG-1.jpg")
  ∧ (λ m, (message m, filename <$> attachment m))
      <$> parseChat Host.upper Host.lower Host.now Host.getTime
            (lit "1/2/24, 10:30 AM - Alice: <attached: missing.jpg> IMG-1.jpg") files
    = [(lit "<attached: missing.jpg>", Some (lit "IMG-1.jpg"))].
Proof. by vm_compute. Qed.

Lemma absent_marker_name_falls_through_witness :
  let files : gmap jsstring unit := {[ lit "IMG-1.jpg" := () ]} in
  (∃ am,
     String_match Host.upper attachedPattern (lit "<attached: missing.jpg> IMG-1.jpg")
     = Some am
     ∧ files !! Str.trim (group 1 am) = None
     ∧ extractAttachment Host.upper Host.lower
         (lit "<attached: missing.jpg> IMG-1.jpg") files
       = orElse (tryFileAttached Host.upper Host.lower
                   (lit "<attached: missing.jpg> IMG-1.jpg") files)
                (tryDirect Host.upper Host.lower
                   (lit "<attached: missing.jpg> IMG-1.jpg") files))
  ∧ (∃ hm,
       String_match Host.upper dateTimeRegex
         (lit "1/2/24, 10:30 AM - Alice: <attached: missing.jpg>") = Some hm
       ∧ Str.indexOf (lit ":") (Str.trim (group 3 hm)) = Some 5
       ∧ extractAttachment Host.upper Host.lower (headerMessageText hm) files = None
       ∧ message (newMessage Host.upper Host.lower Host.now Host.getTime files 0 hm)
         = headerMessageText hm
       ∧ attachment (newMessage Host.upper Host.lower Host.now Host.getTime files 0 hm)
         = None)
  ∧ files !! lit "missing.jpg" = None
  ∧ extractAttachment Host.upper Host.lower (lit "<attached: missing.jpg>") files = None.
Proof.
  cbv zeta.
  pose proof (absent_marker_name_falls_through (Blob := unit) Host.upper Host.lower
                Host.now Host.getTime {[ lit "IMG-1.jpg" := () ]}) as (H1 & H2 & H3).
  assert (({[ lit "IMG-1.jpg" := () ]} : gmap jsstring unit) !! lit "missing.jpg" = None)
    as Hmissing by by vm_compute.
  split; [|split; [|split; [done|by apply H3]]].
  - destruct (String_match Host.upper attachedPattern
                (lit "<attached: missing.jpg> IMG-1.jpg")) as [am|] eqn:E;
      [|by vm_compute in E].
    assert (({[ lit "IMG-1.jpg" := () ]} : gmap jsstring unit)
              !! Str.trim (group 1 am) = None) as Habsent.
    { vm_compute in E. injection E as <-. by vm_compute. }
    exists am. split; [done|]. split; [done|]. exact (proj2 (H1 _ am E Habsent)).
  - destruct (String_match Host.upper dateTimeRegex
                (lit "1/2/24, 10:30 AM - Alice: <attached: missing.jpg>"))
      as [hm|] eqn:E; [|by vm_compute in E].
    assert (Str.indexOf (lit ":") (Str.trim (group 3 hm)) = Some 5
            ∧ extractAttachment (Blob := unit) Host.upper Host.lower (headerMessageText hm)
                {[ lit "IMG-1.jpg" := () ]} = None) as [Hcolon Hnone].
    { vm_compute in E. injection E as <-. by vm_compute. }
    exists hm. split; [done|]. split; [done|]. split; [done|].
    exact (H2 0 hm 4 Hcolon Hnone).
Defined.


Lemma poll_needs_three_lines_and_two_options_witness :
  length (pollLines (lit "POLL: Lunch?\nOPTION: Pizza (3 votes)")) < 3
  ∧ parsePollMessage Host.upper (lit "POLL: Lunch?\nOPTION: Pizza (3 votes)") = None
  ∧ length (optionsFrom Host.upper 1
              (pollLines (lit "POLL: Lunch?\nOPTION: Pizza (3 votes)\nOPTION: Sushi"))) < 2
  ∧ parsePollMessage Host.upper (lit "POLL: Lunch?\nOPTION: Pizza (3 votes)\nOPTION: Sushi")
    = None.
Proof.
  pose proof (poll_needs_three_lines_and_two_options Host.upper) as (H1 & H2 & _).
  assert (length (pollLines (lit "POLL: Lunch?\nOPTION: Pizza (3 votes)")) < 3)
    as Hlines by (vm_compute; lia).
  assert (length (optionsFrom Host.upper 1
                    (pollLines (lit "POLL: Lunch?\nOPTION: Pizza (3 votes)\nOPTION: Sushi")))
          < 2) as Hopts by (vm_compute; lia).
  split; [done|]. split; [by apply H1|]. split; [done|]. by apply H2.
Defined.


Lemma poll_options_from_second_line_witness :
  ∃ p,
    parsePollMessage Host.upper
      (pollMark1 ++ lit "\nFavorite (2)\nOPTION: A (1)\nOPTION: B (0)") = Some p
    ∧ ∃ line0 rest,
        pollLines (pollMark1 ++ lit "\nFavorite (2)\nOPTION: A (1)\nOPTION: B (0)")
        = line0 :: rest
        ∧ options p = rest ≫= optionOfLine Host.upper
        ∧ (hasPollPrefix line0 = false →
           ∃ line1 rest',
             rest = line1 :: rest'
             ∧ title p = line1
             ∧ options p = optionOfLine Host.upper line1
                           ++ (rest' ≫= optionOfLine Host.upper)).
Proof.
  destruct (parsePollMessage Host.upper
              (pollMark1 ++ lit "\nFavorite (2)\nOPTION: A (1)\nOPTION: B (0)"))
    as [p|] eqn:E; [|by vm_compute in E].
  exists p. split; [done|].
  exact (proj1 (poll_options_from_second_line Host.upper _ p E)).
Defined.


Lemma chunkArray_partitions_witness :
  (1 ≤ 2)%Z ∧ length [1; 2; 3; 4; 5] < 6
  ∧ ∃ chunks,
      chunkArray 6 [1; 2; 3; 4; 5] 2 = Some chunks
      ∧ chunks = [[1; 2]; [3; 4]; [5]]
      ∧ concat chunks = [1; 2; 3; 4; 5]
      ∧ (∀ j chunk, chunks !! j = Some chunk →
           chunk = take (Z.to_nat 2) (drop (j * Z.to_nat 2) [1; 2; 3; 4; 5])
           ∧ 1 ≤ length chunk ≤ Z.to_nat 2
           ∧ (S j < length chunks → length chunk = Z.to_nat 2))
      ∧ (Z.of_nat (length [1; 2; 3; 4; 5]) ≤ Z.of_nat (length chunks) * 2
         < Z.of_nat (length [1; 2; 3; 4; 5]) + 2)%Z.
Proof.
  assert (1 ≤ 2)%Z as Hsize by lia.
  assert (length [1; 2; 3; 4; 5] < 6) as Hfuel by (cbn; lia).
  split; [done|]. split; [done|].
  destruct (chunkArray_partitions [1; 2; 3; 4; 5] 2 6 Hsize Hfuel)
    as (chunks & Hrun & Hrest).
  exists chunks. split; [done|]. split; [|done].
  vm_compute in Hrun. by injection Hrun as <-.
Defined.

Lemma chunkArray_needs_positive_size_witness :
  (0 ≤ 0)%Z ∧ [7] ≠ [] ∧ (∀ fuel, chunkArray fuel [7] 0 = None)
  ∧ chunkArray 1 (@nil nat) 0 = Some [].
Proof.
  assert (0 ≤ 0)%Z as Hsize by lia.
  destruct (chunkArray_needs_positive_size [7] 0 Hsize) as [Hloop Hempty].
  split; [done|]. split; [done|]. split; [by apply Hloop|done].
Defined.


Lemma manager_tracks_its_urls_witness :
  let store0 : URLStore (Blob := unit) := {| issued := 1; entries := {[ 0 := () ]} |} in
  let calls := [CreateURL () (lit "a.jpg"); CreateURL () (lit "b.jpg");
                CreateURL () (lit "a.jpg"); RevokeURL (lit "b.jpg")] in
  let this := foldl call (newManager store0) calls in
  wellFormedStore store0
  ∧ getURL (lit "a.jpg") this = Some 3
  ∧ getCount this = 1
  ∧ (∀ url, is_Some (entries (store this) !! url)
            ↔ is_Some (entries store0 !! url) ∨ ∃ key, getURL key this = Some url)
  ∧ (∀ url, is_Some (entries store0 !! url) →
            entries (store this) !! url = entries store0 !! url)
  ∧ (∀ key url, getURL key this = Some url → issued store0 ≤ url)
  ∧ (∀ key1 key2 url, getURL key1 this = Some url → getURL key2 this = Some url →
                      key1 = key2)
  ∧ size (entries (store this)) = size (entries store0) + getCount this.
Proof.
  cbv zeta.
  assert (wellFormedStore (Blob := unit) {| issued := 1; entries := {[ 0 := () ]} |})
    as Hwf.
  { intros url [b Hb]. cbn [entries] in Hb.
    apply lookup_singleton_Some in Hb as [<- _]. cbn. lia. }
  split; [done|]. split; [by vm_compute|]. split; [by vm_compute|].
  exact (manager_tracks_its_urls _ _ Hwf).
Defined.

Lemma revokeAll_releases_everything_witness :
  let store0 : URLStore (Blob := unit) := {| issued := 1; entries := {[ 0 := () ]} |} in
  let calls := [CreateURL () (lit "a.jpg"); CreateURL () (lit "b.jpg");
                CreateURL () (lit "a.jpg")] in
  let this := revokeAll (foldl call (newManager store0) calls) in
  wellFormedStore store0
  ∧ getCount (foldl call (newManager store0) calls) = 2
  ∧ entries (store this) = entries store0
  ∧ getCount this = 0
  ∧ ∀ key, getURL key this = None.
Proof.
  cbv zeta.
  assert (wellFormedStore (Blob := unit) {| issued := 1; entries := {[ 0 := () ]} |})
    as Hwf.
  { intros url [b Hb]. cbn [entries] in Hb.
    apply lookup_singleton_Some in Hb as [<- _]. cbn. lia. }
  split; [done|]. split; [by vm_compute|].
  exact (revokeAll_releases_everything _ _ Hwf).
Defined.

Lemma createURL_replaces_witness :
  let store0 : URLStore (Blob := unit) := {| issued := 1; entries := {[ 0 := () ]} |} in
  let calls := [CreateURL () (lit "a.jpg"); CreateURL () (lit "b.jpg")] in
  let this := foldl call (newManager store0) calls in
  let url := (createURL () (lit "a.jpg") this).1 in
  let this' := (createURL () (lit "a.jpg") this).2 in
  wellFormedStore store0
  ∧ getURL (lit "a.jpg") this = Some 1
  ∧ url = 3
  ∧ getURL (lit "a.jpg") this' = Some url
  ∧ entries (store this') !! url = Some ()
  ∧ entries (store this) !! url = None
  ∧ (∀ old, getURL (lit "a.jpg") this = Some old → entries (store this') !! old = None)
  ∧ (∀ key', key' ≠ lit "a.jpg" → getURL key' this' = getURL key' this)
  ∧ (∀ u, u ≠ url → getURL (lit "a.jpg") this ≠ Some u →
          entries (store this') !! u = entries (store this) !! u)
  ∧ getCount this'
    = if bool_decide (is_Some (getURL (lit "a.jpg") this)) then getCount this
      else S (getCount this).
Proof.
  cbv zeta.
  assert (wellFormedStore (Blob := unit) {| issued := 1; entries := {[ 0 := () ]} |})
    as Hwf.
  { intros url [b Hb]. cbn [entries] in Hb.
    apply lookup_singleton_Some in Hb as [<- _]. cbn. lia. }
  split; [done|]. split; [by vm_compute|]. split; [by vm_compute|].
  exact (createURL_replaces _ _ () (lit "a.jpg") Hwf).
Defined.

Lemma text_before_first_header_dropped_witness :
  let chatContent := lit "WhatsApp export\n1/2/24, 10:30 AM - Alice: Hi" in
  let chatContent' := lit "\n1/2/24, 10:30 AM - Alice: Hi" in
  let rest := [lit "1/2/24, 10:30 AM - Alice: Hi"] in
  linesOf chatContent = [lit "WhatsApp export"] ++ rest
  ∧ linesOf chatContent' = [[]] ++ rest
  ∧ Forall (λ l, String_match Host.upper dateTimeRegex l = None)
      ([lit "WhatsApp export"] ++ [[]])
  ∧ parseChat (Blob := unit) Host.upper Host.lower Host.now Host.getTime chatContent ∅
    = parseChat Host.upper Host.lower Host.now Host.getTime chatContent' ∅.
Proof.
  cbv zeta.
  assert (linesOf (lit "WhatsApp export\n1/2/24, 10:30 AM - Alice: Hi")
          = [lit "WhatsApp export"] ++ [lit "1/2/24, 10:30 AM - Alice: Hi"]) as Hl
    by by vm_compute.
  assert (linesOf (lit "\n1/2/24, 10:30 AM - Alice: Hi")
          = [[]] ++ [lit "1/2/24, 10:30 AM - Alice: Hi"]) as Hl' by by vm_compute.
  assert (Forall (λ l, String_match Host.upper dateTimeRegex l = None)
            ([lit "WhatsApp export"] ++ [[]])) as Hpre.
  { repeat constructor; by vm_compute. }
  split; [done|]. split; [done|]. split; [done|].
  exact (proj1 (text_before_first_header_dropped (Blob := unit) Host.upper Host.lower
                  Host.now Host.getTime _ _ ∅ _ _ _ Hl Hl' eq_refl Hpre)).
Defined.



Lemma formatMessageText_plain_witness :
  let text := lit "<b>hi</b>\nbye" in
  (∀ a, a ∈ lit "*_~`.:" → a ∉ text)
  ∧ formatMessageText Host.upper text = lit "<b>hi</b><br>bye".
Proof.
  cbv zeta.
  assert (∀ a, a ∈ lit "*_~`.:" → a ∉ lit "<b>hi</b>\nbye") as Hplain.
  { intros a Ha. repeat (apply elem_of_cons in Ha as [->|Ha]; [compute_done|]).
    by apply elem_of_nil in Ha. }
  split; [done|].
  exact (proj1 (formatMessageText_plain Host.upper _ Hplain)).
Defined.

Lemma formatMessageText_markers_witness :
  let pre := lit "say\n" in
  let s := lit "hi <b>" in
  let post := lit " now" in
  (∀ a, a ∈ lit "*_~`.:" → a ∉ pre ++ s ++ post)
  ∧ Forall (λ ch, Char.isLineTerminator ch = false) s
  ∧ formatMessageText Host.upper (lit "say\n*hi <b>* now")
    = lit "say<br><strong>hi <b></strong> now".
Proof.
  cbv zeta.
  assert (∀ a, a ∈ lit "*_~`.:" → a ∉ lit "say\n" ++ lit "hi <b>" ++ lit " now")
    as Hplain.
  { intros a Ha. repeat (apply elem_of_cons in Ha as [->|Ha]; [compute_done|]).
    by apply elem_of_nil in Ha. }
  assert (Forall (λ ch, Char.isLineTerminator ch = false) (lit "hi <b>")) as Hdot
    by by repeat constructor.
  split; [done|]. split; [done|].
  exact (proj1 (formatMessageText_markers Host.upper _ _ _ Hplain Hdot)).
Defined.

Lemma formatMessageText_links_witness :
  let pre := lit "see\n" in
  let rest := lit "example.com/a?b=1" in
  let post := lit " soon" in
  (∀ a, a ∈ lit "*_~`.:" → a ∉ pre ++ post)
  ∧ (∀ a, a ∈ lit "*_~`" → a ∉ rest)
  ∧ (∀ ch, last pre = Some ch → Char.isSpace ch = true)
  ∧ (∀ ch, head post = Some ch → Char.isSpace ch = true)
  ∧ rest ≠ []
  ∧ Forall (λ ch, Char.isSpace ch = false) rest
  ∧ formatMessageText Host.upper (lit "see\nwww.example.com/a?b=1 soon")
    = lit "see<br>"
      ++ anchor (lit "https://www.example.com/a?b=1") (lit "www.example.com/a?b=1")
      ++ lit " soon".
Proof.
  cbv zeta.
  assert (∀ a, a ∈ lit "*_~`.:" → a ∉ lit "see\n" ++ lit " soon") as Haround.
  { intros a Ha. repeat (apply elem_of_cons in Ha as [->|Ha]; [compute_done|]).
    by apply elem_of_nil in Ha. }
  assert (∀ a, a ∈ lit "*_~`" → a ∉ lit "example.com/a?b=1") as Hrest.
  { intros a Ha. repeat (apply elem_of_cons in Ha as [->|Ha]; [compute_done|]).
    by apply elem_of_nil in Ha. }
  assert (∀ ch, last (lit "see\n") = Some ch → Char.isSpace ch = true) as Hlast
    by (by intros ch [= <-]).
  assert (∀ ch, head (lit " soon") = Some ch → Char.isSpace ch = true) as Hhead
    by (by intros ch [= <-]).
  assert (lit "example.com/a?b=1" ≠ []) as Hne by done.
  assert (Forall (λ ch, Char.isSpace ch = false) (lit "example.com/a?b=1")) as Hns
    by by repeat constructor.
  repeat (split; [done|]).
  exact (proj2 (proj2 (formatMessageText_links Host.upper _ _ _
                         Haround Hrest Hlast Hhead Hne Hns))).
Defined.
